(** * DillNet: a shallow embedding of [dillnet.py]

    Part I holds the definitions, in the order of the source file:

    - [Torch]: the fragment of the tensor engine the source calls. A tensor
      is its shape and its entries in logical (row-major) order; every
      operation checks shapes the way the engine does and fails with
      [None] where the engine raises.
    - [Scan]: [binary_operator] and [associative_scan].
    - [Model]: [RMSNorm], [RotaryEmbedding], [Retention], [MambaBlock],
      [DillNetBlock] and [DillNet], constructors and [forward] methods.

    Part II holds the theorems. Floating-point tensors are embedded over
    the real numbers, the exact arithmetic the floats approximate; integer
    tensors ([arange], index differences) over [Z]. *)

From Stdlib Require Import ZArith List Lia Bool Arith.
From Stdlib Require Import Reals Lra.
Import ListNotations.

Set Implicit Arguments.

(* ================================================================== *)
(** * Part I: definitions *)

(* ------------------------------------------------------------------ *)
(** ** The tensor engine *)

Module Torch.

(** *** Errors *)

Definition bind {X Y : Type} (c : option X) (k : X -> option Y) : option Y :=
  match c with
  | Some x => k x
  | None => None
  end.

Declare Scope torch_scope.
Delimit Scope torch_scope with torch.

Notation "x <- c ;; k" := (bind c (fun x => k))
  (at level 61, c at next level, right associativity) : torch_scope.
Notation "' pat <- c ;; k" := (bind c (fun x => match x with pat => k end))
  (at level 61, pat pattern, c at next level, right associativity) : torch_scope.

Local Open Scope torch_scope.

(** Whether a call returned. *)
Definition ran {X : Type} (c : option X) : bool :=
  match c with
  | Some _ => true
  | None => false
  end.

Fixpoint mapM {X Y : Type} (f : X -> option Y) (l : list X) : option (list Y) :=
  match l with
  | [] => Some []
  | x :: l' => y <- f x ;; r <- mapM f l' ;; Some (y :: r)
  end.

(** *** Tensors *)

Record tensor (A : Type) : Type := mkT {
  shape : list nat;
  entry : list nat -> A
}.

Definition rank {A : Type} (t : tensor A) : nat := length (shape t).

Definition numel (s : list nat) : nat := fold_right Nat.mul 1 s.

(** The entries of a tensor in row-major order. *)
Fixpoint indices (s : list nat) : list (list nat) :=
  match s with
  | [] => [[]]
  | n :: s' => flat_map (fun i => map (cons i) (indices s')) (seq 0 n)
  end.

Definition to_list {A : Type} (t : tensor A) : list A :=
  map (entry t) (indices (shape t)).

Definition of_list {A : Type} (d : A) (l : list A) : tensor A :=
  mkT [length l] (fun idx => nth (nth 0 idx 0) l d).

(** Row-major position of a multi-index, and back. *)
Fixpoint ravel (s idx : list nat) : nat :=
  match s, idx with
  | _ :: s', i :: idx' => i * numel s' + ravel s' idx'
  | _, _ => 0
  end.

Fixpoint unravel (s : list nat) (k : nat) : list nat :=
  match s with
  | [] => []
  | _ :: s' => (k / numel s') :: unravel s' (k mod numel s')
  end.

(** *** Indices and dimensions *)

(** A slice bound against the length of an axis: negative bounds count
    from the end, and every bound is clamped into [0, len]. *)
Definition norm_index (len i : Z) : Z :=
  if (i <? 0)%Z then Z.max 0 (len + i) else Z.min i len.

(** The first position of [start:stop] on an axis of length [len], and
    the number of positions it spans; an omitted bound is [None]. *)
Definition slice_lo (len : nat) (start : option Z) : nat :=
  match start with
  | Some i => Z.to_nat (norm_index (Z.of_nat len) i)
  | None => 0
  end.

Definition slice_hi (len : nat) (stop : option Z) : nat :=
  match stop with
  | Some i => Z.to_nat (norm_index (Z.of_nat len) i)
  | None => len
  end.

Definition slice_count (len : nat) (start stop : option Z) : nat :=
  slice_hi len stop - slice_lo len start.

(** A dimension argument against the rank: [-r .. r-1], else an error. *)
Definition norm_dim (r : nat) (d : Z) : option nat :=
  if ((0 <=? d) && (d <? Z.of_nat r))%Z then Some (Z.to_nat d)
  else if ((d <? 0) && (- Z.of_nat r <=? d))%Z then Some (Z.to_nat (d + Z.of_nat r))
  else None.

Definition drop_nth (k : nat) (l : list nat) : list nat :=
  firstn k l ++ skipn (S k) l.

Definition upd_nth (k : nat) (f : nat -> nat) (l : list nat) : list nat :=
  firstn k l ++ f (nth k l 0) :: skipn (S k) l.

Definition swap (i j : nat) (l : list nat) : list nat :=
  map (fun k => nth (if k =? i then j else if k =? j then i else k) l 0)
      (seq 0 (length l)).

Fixpoint index_of (j : nat) (p : list nat) : nat :=
  match p with
  | [] => 0
  | x :: p' => if x =? j then 0 else S (index_of j p')
  end.

Fixpoint shape_eqb (a b : list nat) : bool :=
  match a, b with
  | [], [] => true
  | x :: a', y :: b' => (x =? y) && shape_eqb a' b'
  | _, _ => false
  end.

(** *** Broadcasting *)

Definition bdim (x y : nat) : option nat :=
  if x =? y then Some x
  else if x =? 1 then Some y
  else if y =? 1 then Some x
  else None.

(** On reversed shapes: trailing axes are aligned. *)
Fixpoint bshape_rev (a b : list nat) : option (list nat) :=
  match a, b with
  | [], _ => Some b
  | _, [] => Some a
  | x :: a', y :: b' =>
      d <- bdim x y ;; r <- bshape_rev a' b' ;; Some (d :: r)
  end.

Definition broadcast_shapes (a b : list nat) : option (list nat) :=
  r <- bshape_rev (rev a) (rev b) ;; Some (rev r).

Fixpoint bidx_aligned (s idx : list nat) : list nat :=
  match s, idx with
  | n :: s', i :: idx' => (if n =? 1 then 0 else i) :: bidx_aligned s' idx'
  | _, _ => []
  end.

(** The index of an operand of shape [s] that feeds position [idx] of
    the broadcast result. *)
Definition bidx (s idx : list nat) : list nat :=
  bidx_aligned s (skipn (length idx - length s) idx).

(** *** Shape-changing operations *)

Section Generic.
Variable A : Type.
Implicit Types t a b : tensor A.

Definition unsqueeze t (dim : Z) : option (tensor A) :=
  k <- norm_dim (S (rank t)) dim ;;
  Some (mkT (firstn k (shape t) ++ 1 :: skipn k (shape t))
            (fun idx => entry t (drop_nth k idx))).

Definition transpose t (dim0 dim1 : Z) : option (tensor A) :=
  k0 <- norm_dim (rank t) dim0 ;;
  k1 <- norm_dim (rank t) dim1 ;;
  Some (mkT (swap k0 k1 (shape t)) (fun idx => entry t (swap k0 k1 idx))).

Definition is_perm (p : list nat) (r : nat) : bool :=
  (length p =? r) && forallb (fun j => existsb (Nat.eqb j) p) (seq 0 r).

Definition permute t (dims : list Z) : option (tensor A) :=
  p <- mapM (norm_dim (rank t)) dims ;;
  if is_perm p (rank t) then
    Some (mkT (map (fun k => nth k (shape t) 0) p)
              (fun idx =>
                 entry t (map (fun j => nth (index_of j p) idx 0)
                              (seq 0 (rank t)))))
  else None.

(** [.contiguous()] and [.clone()] copy values. *)
Definition contiguous t : tensor A := t.
Definition clone t : tensor A := t.

(** The sizes a [view] or [reshape] asks for, against the number of
    elements: at most one [-1], which is inferred; it is ambiguous,
    hence an error, when the other sizes multiply to 0. *)
Definition infer_size (sizes : list Z) (n : nat) : option (list nat) :=
  if existsb (fun d => (d <? -1)%Z) sizes then None
  else
    let known := filter (fun d => negb (d =? -1)%Z) sizes in
    let newsize := numel (map Z.to_nat known) in
    match length sizes - length known with
    | 0 => if n =? newsize then Some (map Z.to_nat sizes) else None
    | 1 =>
        if (0 <? newsize) && (n mod newsize =? 0) then
          Some (map (fun d => if (d =? -1)%Z then n / newsize else Z.to_nat d)
                    sizes)
        else None
    | _ => None
    end.

(** Tensors are read in row-major order, which is what [view] does on
    the contiguous tensors the source applies it to. *)
Definition view t (sizes : list Z) : option (tensor A) :=
  s' <- infer_size sizes (numel (shape t)) ;;
  Some (mkT s' (fun idx => entry t (unravel (shape t) (ravel s' idx)))).

Definition reshape t (sizes : list Z) : option (tensor A) := view t sizes.

(** [t[..., start:stop:step, ...]] along axis [dim]. *)
Definition slice t (dim : Z) (start stop : option Z) (step : nat)
  : option (tensor A) :=
  k <- norm_dim (rank t) dim ;;
  if step =? 0 then None
  else
    let len := nth k (shape t) 0 in
    let n := (slice_count len start stop + step - 1) / step in
    Some (mkT (firstn k (shape t) ++ n :: skipn (S k) (shape t))
              (fun idx =>
                 entry t (upd_nth k (fun i => slice_lo len start + step * i)
                                  idx))).

(** [torch.cat((a, b), dim)]. *)
Definition cat a b (dim : Z) : option (tensor A) :=
  k <- norm_dim (rank a) dim ;;
  if (rank a =? rank b)
     && shape_eqb (drop_nth k (shape a)) (drop_nth k (shape b)) then
    let na := nth k (shape a) 0 in
    let nb := nth k (shape b) 0 in
    Some (mkT (firstn k (shape a) ++ (na + nb) :: skipn (S k) (shape a))
              (fun idx =>
                 if nth k idx 0 <? na then entry a idx
                 else entry b (upd_nth k (fun i => i - na) idx)))
  else None.

(** [torch.stack((a, b), dim=-1)]. *)
Definition stack_last a b : option (tensor A) :=
  if shape_eqb (shape a) (shape b) then
    Some (mkT (shape a ++ [2])
              (fun idx =>
                 if last idx 0 =? 0 then entry a (removelast idx)
                 else entry b (removelast idx)))
  else None.

(** [t.flatten(start_dim)], up to the last axis. *)
Definition flatten t (start_dim : Z) : option (tensor A) :=
  k <- norm_dim (rank t) start_dim ;;
  Some (mkT (firstn k (shape t) ++ [numel (skipn k (shape t))])
            (fun idx =>
               entry t (firstn k idx
                        ++ unravel (skipn k (shape t)) (nth k idx 0)))).

(** Consecutive pieces of the last axis, of the given sizes. *)
Fixpoint pieces t (pre : list nat) (off : nat) (sizes : list nat)
  : list (tensor A) :=
  match sizes with
  | [] => []
  | n :: sizes' =>
      mkT (pre ++ [n])
          (fun idx => entry t (removelast idx ++ [last idx 0 + off]))
      :: pieces t pre (off + n) sizes'
  end.

(** [torch.split(t, sizes, dim=-1)]. *)
Definition split_last t (sizes : list nat) : option (list (tensor A)) :=
  match rev (shape t) with
  | [] => None
  | n :: pre_rev =>
      if fold_right Nat.add 0 sizes =? n then
        Some (pieces t (rev pre_rev) 0 sizes)
      else None
  end.

(** [t.chunk(chunks, dim=-1)]. *)
Definition chunk_last t (chunks : nat) : option (list (tensor A)) :=
  match rev (shape t) with
  | [] => None
  | n :: pre_rev =>
      if chunks =? 0 then None
      else
        let split_size := (n + chunks - 1) / chunks in
        let sizes :=
          if split_size =? 0 then repeat 0 chunks
          else repeat split_size (n / split_size)
               ++ (if n mod split_size =? 0 then [] else [n mod split_size]) in
        Some (pieces t (rev pre_rev) 0 sizes)
  end.

End Generic.

(** *** Elementwise operations *)

Definition tmap {A B : Type} (f : A -> B) (t : tensor A) : tensor B :=
  mkT (shape t) (fun idx => f (entry t idx)).

Definition bzip {A B C : Type} (f : A -> B -> C)
           (a : tensor A) (b : tensor B) : option (tensor C) :=
  s <- broadcast_shapes (shape a) (shape b) ;;
  Some (mkT s (fun idx => f (entry a (bidx (shape a) idx))
                            (entry b (bidx (shape b) idx)))).

(** *** Integer tensors *)

(** [torch.arange(n)]. *)
Definition arange (n : nat) : tensor Z :=
  mkT [n] (fun idx => Z.of_nat (nth 0 idx 0)).

(** [torch.arange(start, stop, step)]. *)
Definition arange_step (start stop step : nat) : option (tensor Z) :=
  if step =? 0 then None
  else Some (mkT [(stop - start + step - 1) / step]
                 (fun idx => Z.of_nat (start + step * nth 0 idx 0))).

(** [t.clamp(min=m)]. *)
Definition clamp_min (m : Z) (t : tensor Z) : tensor Z := tmap (Z.max m) t.

(** *** Real tensors *)

Fixpoint rsum (n : nat) (f : nat -> R) : R :=
  match n with
  | O => 0%R
  | S n' => (rsum n' f + f n')%R
  end.

Definition sigmoid (x : R) : R := (1 / (1 + exp (- x)))%R.
Definition silu (x : R) : R := (x * sigmoid x)%R.
(** [F.softplus] with its defaults [beta=1], [threshold=20]: linear
    above the threshold. *)
Definition softplus (x : R) : R :=
  if Rlt_dec 20 x then x else ln (1 + exp x)%R.
Definition rsqrt (x : R) : R := (1 / sqrt x)%R.

Definition float (t : tensor Z) : tensor R := tmap IZR t.

Definition t_add := bzip Rplus.
Definition t_sub := bzip Rminus.
Definition t_mul := bzip Rmult.
Definition t_neg (t : tensor R) : tensor R := tmap Ropp t.

(** [t.sum(-1)]. *)
Definition sum_last (t : tensor R) : option (tensor R) :=
  match rev (shape t) with
  | [] => None
  | n :: pre_rev =>
      Some (mkT (rev pre_rev)
                (fun idx => rsum n (fun k => entry t (idx ++ [k]))))
  end.

(** [t.mean(dim=-1, keepdim=True)]. *)
Definition mean_last_keepdim (t : tensor R) : option (tensor R) :=
  match rev (shape t) with
  | [] => None
  | n :: pre_rev =>
      Some (mkT (rev pre_rev ++ [1])
                (fun idx =>
                   (rsum n (fun k => entry t (removelast idx ++ [k])) / INR n)%R))
  end.

(** [torch.einsum("i,j->ij", a, b)]. *)
Definition einsum_outer (a b : tensor R) : option (tensor R) :=
  match shape a, shape b with
  | [n], [m] =>
      Some (mkT [n; m]
                (fun idx => Rmult (entry a [nth 0 idx 0]) (entry b [nth 1 idx 0])))
  | _, _ => None
  end.

(** [torch.matmul] on operands of rank at least 2 (the only ones the
    source passes): the last two axes are multiplied and the leading
    ones broadcast. *)
Definition matmul (a b : tensor R) : option (tensor R) :=
  match rev (shape a), rev (shape b) with
  | k :: m :: ba_rev, n :: k' :: bb_rev =>
      if (k =? k') then
        batch <- broadcast_shapes (rev ba_rev) (rev bb_rev) ;;
        let r := length batch in
        Some (mkT (batch ++ [m; n])
                  (fun idx =>
                     let bi := firstn r idx in
                     let i := nth r idx 0 in
                     let j := nth (S r) idx 0 in
                     rsum k (fun l =>
                               Rmult (entry a (bidx (rev ba_rev) bi ++ [i; l]))
                                     (entry b (bidx (rev bb_rev) bi ++ [l; j])))))
      else None
  | _, _ => None
  end.

(** *** Parameters *)

(** A source of parameter values: the random initial values and
    whatever training writes into them later are arbitrary reals. A
    module reads its own parameters at [[k]] and hands [child v k] to
    its [k]-th submodule. *)
Definition values : Type := list nat -> list nat -> R.

Definition param (v : values) (k : nat) (s : list nat) : tensor R :=
  mkT s (v [k]).

Definition child (v : values) (k : nat) : values :=
  fun path => v (k :: path).

(** [torch.ones(dim)]. *)
Definition ones (s : list nat) : tensor R := mkT s (fun _ => 1%R).

(** [nn.Linear]: [weight] is [(out_features, in_features)]. *)
Record Linear : Type := mkLinear {
  weight : tensor R;
  bias : tensor R
}.

Definition Linear_init (v : values) (in_features out_features : nat) : Linear :=
  mkLinear (param v 0 [out_features; in_features]) (param v 1 [out_features]).

(** The shapes [Linear_init] gives the parameters. *)
Definition Linear_wf (in_features out_features : nat) (L : Linear) : Prop :=
  shape (weight L) = [out_features; in_features]
  /\ shape (bias L) = [out_features].

(** Output feature [o] of [F.linear(x, weight, bias)], that is of
    [x @ weight.T + bias], at the position [pre] of the leading axes. *)
Definition linear_entry (L : Linear) (i : nat) (x : tensor R)
           (pre : list nat) (o : nat) : R :=
  Rplus (rsum i (fun k => Rmult (entry x (pre ++ [k])) (entry (weight L) [o; k])))
        (entry (bias L) [o]).

Definition linear (L : Linear) (x : tensor R) : option (tensor R) :=
  match shape (weight L), shape (bias L), rev (shape x) with
  | [o; i], [o'], i' :: pre_rev =>
      if ((o =? o') && (i =? i')) then
        Some (mkT (rev pre_rev ++ [o])
                  (fun idx => linear_entry L i x (removelast idx) (last idx 0)))
      else None
  | _, _, _ => None
  end.

(** [nn.Conv1d(in_channels, out_channels, kernel_size, padding, groups)]
    with stride 1: [conv_weight] is
    [(out_channels, in_channels / groups, kernel_size)]. *)
Record Conv1d : Type := mkConv1d {
  in_channels : nat;
  out_channels : nat;
  kernel_size : nat;
  padding : nat;
  groups : nat;
  conv_weight : tensor R;
  conv_bias : tensor R
}.

(** The constructor rejects a number of groups that is 0 or does not
    divide the channel counts. *)
Definition Conv1d_init (v : values) (in_channels out_channels kernel_size
                                     padding groups : nat) : option Conv1d :=
  if (groups =? 0) then None
  else if negb (in_channels mod groups =? 0) then None
  else if negb (out_channels mod groups =? 0) then None
  else Some (mkConv1d in_channels out_channels kernel_size padding groups
               (param v 0 [out_channels; in_channels / groups; kernel_size])
               (param v 1 [out_channels])).

(** The input padded with [p] zeros on each side of the time axis. *)
Definition padded (p : nat) (x : tensor R) (b c j : nat) : R :=
  match shape x with
  | [_; _; T] =>
      if (p <=? j) && (j <? p + T) then entry x [b; c; j - p] else 0%R
  | _ => 0%R
  end.

(** The convolution of a batched input [(B, C, T)]. *)
Definition conv1d (cv : Conv1d) (x : tensor R) : option (tensor R) :=
  match shape x with
  | [B; C; T] =>
      if ((C =? in_channels cv) && (kernel_size cv <=? T + 2 * padding cv)
          && (1 <=? kernel_size cv))
      then
        let cg := (in_channels cv / groups cv) in
        let og := (out_channels cv / groups cv) in
        Some (mkT [B; out_channels cv;
                   (T + 2 * padding cv - kernel_size cv + 1)]
                  (fun idx =>
                     let b := nth 0 idx 0 in
                     let o := nth 1 idx 0 in
                     let t := nth 2 idx 0 in
                     Rplus
                       (rsum cg (fun ci =>
                          rsum (kernel_size cv) (fun k =>
                            Rmult (entry (conv_weight cv) [o; ci; k])
                                  (padded (padding cv) x b
                                          ((o / og) * cg + ci) (t + k)))))
                       (entry (conv_bias cv) [o])))
      else None
  | _ => None
  end.

(** [nn.Dropout] in evaluation mode; in training mode it zeroes and
    rescales entries, and keeps the shape as well. *)
Definition dropout (x : tensor R) : tensor R := x.

(** *** Positions *)

(** Whether [idx] is a position of a tensor of shape [s]. *)
Fixpoint in_shape (s idx : list nat) : Prop :=
  match s, idx with
  | [], [] => True
  | n :: s', i :: idx' => i < n /\ in_shape s' idx'
  | _, _ => False
  end.

End Torch.

(* ------------------------------------------------------------------ *)
(** ** float32 *)

(** The tensors of the program hold float32 numbers: it is the default
    type of the parameters, and [RMSNorm.forward] and [selective_scan]
    convert to it with [.float()]. The model computes with real numbers;
    [round32] is what storing a real number in a float32 does to it
    (IEEE 754 binary32: 24 significant bits, least normal exponent -126,
    gradual underflow, round to nearest with ties to even). The
    operations of the model do not round; overflow is not modelled, and
    [round32] is used on numbers of the unit interval only. *)
Module Float32.

(** Nearest integer, ties to the even one. *)
Definition rne (y : R) : Z :=
  let f := Int_part y in
  let d := (y - IZR f)%R in
  if Rlt_dec d (1 / 2) then f
  else if Rlt_dec (1 / 2) d then (f + 1)%Z
  else if Z.even f then f else (f + 1)%Z.

(** The exponent of the binade of [x], not below that of the least normal
    number. *)
Definition exponent (x : R) : Z :=
  Z.max (-126) (Int_part (ln (Rabs x) / ln 2)).

(** The spacing of the float32 numbers around [x]. *)
Definition ulp (x : R) : R := powerRZ 2 (exponent x - 23).

Definition round32 (x : R) : R := (IZR (rne (x / ulp x)) * ulp x)%R.

End Float32.

(* ------------------------------------------------------------------ *)
(** ** The associative scan engine *)

Module Scan.
Import Torch.
Local Open Scope torch_scope.

Section Engine.
(** The scalar type of the two tensors with its product and sum. *)
Variable A : Type.
Variables (mul add : A -> A -> A).

(** [torch.addcmul(t, t1, t2)] is [t + t1 * t2]. *)
Definition addcmul (t t1 t2 : tensor A) : option (tensor A) :=
  p <- bzip mul t1 t2 ;; bzip add t p.

Definition binary_operator (q_i q_j : tensor A * tensor A)
  : option (tensor A * tensor A) :=
  let '(A_i, Bu_i) := q_i in
  let '(A_j, Bu_j) := q_j in
  a <- bzip mul A_j A_i ;;
  b <- addcmul Bu_j A_j Bu_i ;;
  Some (a, b).

(** [t.shape[0]]. *)
Definition shape0 (t : tensor A) : option nat :=
  match shape t with
  | [] => None
  | n :: _ => Some n
  end.

(** One round of the first loop. *)
Definition up_round (stride : Z) (scanned_elems : tensor A * tensor A)
  : option (tensor A * tensor A) :=
  A_a <- slice (fst scanned_elems) 0 None (Some (- stride)%Z) 1 ;;
  Bu_a <- slice (snd scanned_elems) 0 None (Some (- stride)%Z) 1 ;;
  A_b <- slice (fst scanned_elems) 0 (Some stride) None 1 ;;
  Bu_b <- slice (snd scanned_elems) 0 (Some stride) None 1 ;;
  '(A_res, Bu_res) <- binary_operator (A_a, Bu_a) (A_b, Bu_b) ;;
  A_keep <- slice (fst scanned_elems) 0 None (Some stride) 1 ;;
  new_A <- cat A_keep A_res 0 ;;
  Bu_keep <- slice (snd scanned_elems) 0 None (Some stride) 1 ;;
  new_Bu <- cat Bu_keep Bu_res 0 ;;
  Some (new_A, new_Bu).

(** The first loop, [while stride < num_elems]; the result carries
    the final [stride]. [None] is an error of the engine; the fuel
    [associative_scan] gives never runs out ([up_loop_fuel]). *)
Fixpoint up_loop (fuel : nat) (num_elems stride : Z)
         (scanned_elems : tensor A * tensor A)
  : option (Z * (tensor A * tensor A)) :=
  if (stride <? num_elems)%Z then
    match fuel with
    | O => None
    | S fuel' =>
        scanned_elems <- up_round stride scanned_elems ;;
        up_loop fuel' num_elems (stride * 2) scanned_elems
    end
  else Some (stride, scanned_elems).

(** One round of the second loop. *)
Definition down_round (stride : Z) (scanned_elems : tensor A * tensor A)
  : option (tensor A * tensor A) :=
  A_prev <- slice (fst scanned_elems) 0
                  (Some (stride - 1)%Z) (Some (- stride)%Z) 1 ;;
  Bu_prev <- slice (snd scanned_elems) 0
                   (Some (stride - 1)%Z) (Some (- stride)%Z) 1 ;;
  A_curr <- slice (fst scanned_elems) 0 (Some (2 * stride - 1)%Z) None 1 ;;
  Bu_curr <- slice (snd scanned_elems) 0 (Some (2 * stride - 1)%Z) None 1 ;;
  '(A_res, Bu_res) <- binary_operator (A_prev, Bu_prev) (A_curr, Bu_curr) ;;
  A_keep <- slice (fst scanned_elems) 0 None (Some (2 * stride - 1)%Z) 1 ;;
  new_A <- cat A_keep A_res 0 ;;
  Bu_keep <- slice (snd scanned_elems) 0 None (Some (2 * stride - 1)%Z) 1 ;;
  new_Bu <- cat Bu_keep Bu_res 0 ;;
  Some (new_A, new_Bu).

(** The second loop, [while stride > 0]. *)
Fixpoint down_loop (fuel : nat) (stride : Z)
         (scanned_elems : tensor A * tensor A)
  : option (tensor A * tensor A) :=
  if (stride >? 0)%Z then
    match fuel with
    | O => None
    | S fuel' =>
        scanned_elems <- down_round stride scanned_elems ;;
        down_loop fuel' (stride / 2) scanned_elems
    end
  else Some scanned_elems.

Definition associative_scan (elems : tensor A * tensor A)
  : option (tensor A * tensor A) :=
  let scanned_elems := (clone (fst elems), clone (snd elems)) in
  num_elems <- shape0 (fst scanned_elems) ;;
  if num_elems <=? 1 then Some scanned_elems
  else
    '(stride, scanned_elems) <-
      up_loop num_elems (Z.of_nat num_elems) 1 scanned_elems ;;
    down_loop num_elems (stride / 2) scanned_elems.

(** *** The recurrence the scan stands for (from the specification) *)

(** [h_t = A_t * h_{t-1} + Bu_t] along the leading axis of two
    1-axis sequences, started from [h]. *)
Fixpoint recurrence_from (h : A) (a bu : list A) : list A :=
  match a, bu with
  | a_t :: a', bu_t :: bu' =>
      let h' := add (mul a_t h) bu_t in h' :: recurrence_from h' a' bu'
  | _, _ => []
  end.

(** The combination operator on one position, and its sequential
    left fold: position [k] of the result combines positions
    [0..k]. *)
Definition combine (p q : A * A) : A * A :=
  (mul (fst q) (fst p), add (snd q) (mul (fst q) (snd p))).

Fixpoint fold_from (acc : A * A) (l : list (A * A)) : list (A * A) :=
  match l with
  | [] => []
  | q :: l' => let acc' := combine acc q in acc' :: fold_from acc' l'
  end.

Definition sequential_fold (l : list (A * A)) : list (A * A) :=
  match l with
  | [] => []
  | q :: l' => q :: fold_from q l'
  end.

End Engine.

(** The scan of two 1-axis tensors, read back as lists. *)
Definition scan_values {A : Type} (mul add : A -> A -> A) (d : A)
           (a bu : list A) : option (list A * list A) :=
  r <- associative_scan mul add (of_list d a, of_list d bu) ;;
  Some (to_list (fst r), to_list (snd r)).

(** The scan of two 1-axis integer tensors, read back as lists. *)
Definition scan_lists (a bu : list Z) : option (list Z * list Z) :=
  r <- associative_scan Z.mul Z.add (of_list 0%Z a, of_list 0%Z bu) ;;
  Some (to_list (fst r), to_list (snd r)).

(** The same after the first loop only. *)
Definition up_lists (a bu : list Z) : option (list Z * list Z) :=
  r <- up_loop Z.mul Z.add (length a) (Z.of_nat (length a)) 1
               (of_list 0%Z a, of_list 0%Z bu) ;;
  Some (to_list (fst (snd r)), to_list (snd (snd r))).

(** *** Positions along the scan axis *)

Section Elems.
Variable A : Type.
Variables (mul add : A -> A -> A).

(** The pair at position [k] of the scan axis and [r] of the others. *)
Definition elem_at (p : tensor A * tensor A) (k : nat) (r : list nat) : A * A :=
  (entry (fst p) (k :: r), entry (snd p) (k :: r)).

(** The elements [lo .. lo + m] combined in order. *)
Fixpoint span (e : nat -> A * A) (lo m : nat) : A * A :=
  match m with
  | 0 => e lo
  | S m' => combine mul add (span e lo m') (e (lo + m))
  end.

(** Two pairs agree up to position [k] of the scan axis, at [r] of the
    other axes. *)
Definition agree_upto (p q : tensor A * tensor A) (k : nat) (r : list nat)
  : Prop :=
  forall k', k' <= k -> elem_at p k' r = elem_at q k' r.

End Elems.

(** The values of [t] along the scan axis, at [r] of the other axes. *)
Definition column {A : Type} (t : tensor A) (r : list nat) (n : nat) : list A :=
  map (fun k => entry t (k :: r)) (seq 0 n).

(** The pairs along the scan axis, at [r] of the other axes. *)
Definition elems {A : Type} (p : tensor A * tensor A) (r : list nat) (n : nat)
  : list (A * A) :=
  map (fun k => elem_at p k r) (seq 0 n).

(** The last [w] elements up to position [k], combined in order. *)
Definition window {A : Type} (mul add : A -> A -> A) (e : nat -> A * A)
           (k w : nat) : A * A :=
  span mul add e (k + 1 - Nat.min w (k + 1)) (Nat.min w (k + 1) - 1).

End Scan.

(* ------------------------------------------------------------------ *)
(** ** The modules of [dillnet.py] *)

Module Model.
Import Torch.
Local Open Scope torch_scope.

(** *** RMSNorm *)

Record RMSNorm : Type := mkRMSNorm {
  eps : R;
  norm_weight : tensor R
}.

Definition RMSNorm_init (dim : nat) : RMSNorm :=
  mkRMSNorm (1 / 100000000)%R (ones [dim]).

Definition RMSNorm_norm (self : RMSNorm) (x : tensor R) : option (tensor R) :=
  m <- mean_last_keepdim (tmap (fun v => (v ^ 2)%R) x) ;;
  t_mul x (tmap rsqrt (tmap (fun v => (v + eps self)%R) m)).

Definition RMSNorm_forward (self : RMSNorm) (x : tensor R) : option (tensor R) :=
  output <- RMSNorm_norm self x ;;
  t_mul output (norm_weight self).

(** *** RotaryEmbedding *)

Record RotaryEmbedding : Type := mkRotary {
  inv_freq : tensor R
}.

Definition RotaryEmbedding_init (dim : nat) : option RotaryEmbedding :=
  a <- arange_step 0 dim 2 ;;
  let e := tmap (fun v => (v / INR dim)%R) (float a) in
  let p := tmap (fun v => Rpower 10000 v) e in
  Some (mkRotary (tmap (fun v => (1 / v)%R) p)).

Definition RotaryEmbedding_forward (self : RotaryEmbedding) (x : tensor R)
  : option (tensor R) :=
  match rev (shape x) with
  | _ :: seq_len :: _ =>
      let t := float (arange seq_len) in
      freqs <- einsum_outer t (inv_freq self) ;;
      emb <- cat freqs freqs (-1) ;;
      c1 <- unsqueeze (tmap cos emb) 0 ;;
      cos <- unsqueeze c1 0 ;;
      s1 <- unsqueeze (tmap sin emb) 0 ;;
      sin <- unsqueeze s1 0 ;;
      x1 <- slice x (-1) None None 2 ;;
      x2 <- slice x (-1) (Some 1%Z) None 2 ;;
      st <- stack_last (t_neg x2) x1 ;;
      x_rot <- flatten st (-2) ;;
      xc <- t_mul x cos ;;
      xs <- t_mul x_rot sin ;;
      t_add xc xs
  | _ => None
  end.

(** The squared norm of the [k]-th stride-2 pair of the row at [pre]. *)
Definition pair_norm2 (x : tensor R) (pre : list nat) (k : nat) : R :=
  Rplus (Rsqr (entry x (pre ++ [2 * k]))) (Rsqr (entry x (pre ++ [2 * k + 1]))).

(** One batch, one head, two positions, rows [(1, 0, 0, 0)]. *)
Definition e0_rows : tensor R :=
  mkT [1; 1; 2; 4] (fun idx => match nth 3 idx 0 with 0 => 1%R | _ => 0%R end).

(** *** Retention *)

Record Retention : Type := mkRetention {
  heads : nat;
  head_dim : nat;
  scale : R;
  w_q : Linear;
  w_k : Linear;
  w_v : Linear;
  gate : Linear;
  gamma_param : tensor R;
  rotary : RotaryEmbedding
}.

(** [embed_dim // heads] raises for [heads = 0]. *)
Definition Retention_init (v : values) (embed_dim heads : nat)
  : option Retention :=
  if heads =? 0 then None
  else
    let head_dim := embed_dim / heads in
    rot <- RotaryEmbedding_init head_dim ;;
    Some (mkRetention heads head_dim (sqrt (INR head_dim))
            (Linear_init (child v 0) embed_dim embed_dim)
            (Linear_init (child v 1) embed_dim embed_dim)
            (Linear_init (child v 2) embed_dim embed_dim)
            (Linear_init (child v 3) embed_dim embed_dim)
            (param v 4 [heads])
            rot).

(** The shapes the constructors give the parameters; training changes
    values, not shapes. *)
Definition RMSNorm_wf (dim : nat) (n : RMSNorm) : Prop :=
  shape (norm_weight n) = [dim].

Definition RotaryEmbedding_wf (dim : nat) (r : RotaryEmbedding) : Prop :=
  shape (inv_freq r) = [(dim + 1) / 2].

Definition Retention_wf (embed_dim : nat) (r : Retention) : Prop :=
  heads r <> 0
  /\ head_dim r = embed_dim / heads r
  /\ Linear_wf embed_dim embed_dim (w_q r)
  /\ Linear_wf embed_dim embed_dim (w_k r)
  /\ Linear_wf embed_dim embed_dim (w_v r)
  /\ Linear_wf embed_dim embed_dim (gate r)
  /\ shape (gamma_param r) = [heads r]
  /\ RotaryEmbedding_wf (head_dim r) (rotary r).

(** The names [Retention.forward] binds. *)
Record RetentionLocals : Type := mkRetentionLocals {
  r_Q : tensor R;
  r_K : tensor R;
  r_V : tensor R;
  r_gamma : tensor R;
  r_diff : tensor Z;
  r_t_w : tensor R;
  r_scores : tensor R;
  r_weighted_scores : tensor R;
  r_out : tensor R
}.

(** The decay matrix [t_w] of a sequence of length [T]. *)
Definition decay (self : Retention) (T : nat)
  : option (tensor R * tensor Z * tensor R) :=
  let gamma := tmap sigmoid (gamma_param self) in
  let idx := arange T in
  i1 <- unsqueeze idx 1 ;;
  i0 <- unsqueeze idx 0 ;;
  d <- bzip Z.sub i1 i0 ;;
  let diff := clamp_min 0 d in
  g <- view gamma [Z.of_nat (heads self); 1%Z; 1%Z] ;;
  e <- bzip (fun a n => (a * IZR n)%R) (t_neg g) diff ;;
  Some (gamma, diff, tmap exp e).

Definition Retention_locals (self : Retention) (x : tensor R)
  : option RetentionLocals :=
  match shape x with
  | [B; T; _] =>
      let hs := [Z.of_nat B; Z.of_nat T;
                 Z.of_nat (heads self); Z.of_nat (head_dim self)] in
      q0 <- linear (w_q self) x ;;
      q1 <- view q0 hs ;;
      Q <- transpose q1 1 2 ;;
      k0 <- linear (w_k self) x ;;
      k1 <- view k0 hs ;;
      K <- transpose k1 1 2 ;;
      v0 <- linear (w_v self) x ;;
      v1 <- view v0 hs ;;
      V <- transpose v1 1 2 ;;
      Q <- RotaryEmbedding_forward (rotary self) Q ;;
      K <- RotaryEmbedding_forward (rotary self) K ;;
      '(gamma, diff, t_w) <- decay self T ;;
      kt <- transpose K (-1) (-2) ;;
      qk <- matmul Q kt ;;
      let scores := tmap (fun s => (s / scale self)%R) qk in
      tw0 <- unsqueeze t_w 0 ;;
      weighted_scores <- t_mul scores tw0 ;;
      out <- matmul weighted_scores V ;;
      o1 <- transpose out 1 2 ;;
      out <- reshape o1 [Z.of_nat B; Z.of_nat T; (-1)%Z] ;;
      g <- linear (gate self) x ;;
      out <- t_mul (tmap silu g) out ;;
      Some (mkRetentionLocals Q K V gamma diff t_w scores weighted_scores
              (dropout out))
  | _ => None
  end.

Definition Retention_forward (self : Retention) (x : tensor R)
  : option (tensor R) :=
  l <- Retention_locals self x ;; Some (r_out l).

(** The condition under which [Retention.forward] returns. *)
Definition retention_runs (embed_dim heads B T : nat) : Prop :=
  embed_dim mod heads = 0
  /\ Nat.even (embed_dim / heads) = true
  /\ 1 <= B /\ 1 <= T.

(** *** MambaBlock *)

Record MambaBlock : Type := mkMambaBlock {
  embed_dim : nat;
  d_state : nat;
  d_conv : nat;
  dt_rank : nat;
  in_proj : Linear;
  conv : Conv1d;
  x_proj : Linear;
  dt_proj : Linear;
  A_log : tensor R;
  D : tensor R;
  out_proj : Linear
}.

(** [dt_rank = None] is ['auto'], [math.ceil(embed_dim / 16)]. *)
Definition MambaBlock_init (v : values) (embed_dim d_state d_conv : nat)
           (dt_rank : option nat) : option MambaBlock :=
  let dt_rank := match dt_rank with
                 | None => (embed_dim + 15) / 16
                 | Some r => r
                 end in
  cv <- Conv1d_init (child v 1) embed_dim embed_dim d_conv (d_conv - 1)
                    embed_dim ;;
  a <- arange_step 1 (d_state + 1) 1 ;;
  A <- unsqueeze (float a) 0 ;;
  Some (mkMambaBlock embed_dim d_state d_conv dt_rank
          (Linear_init (child v 0) embed_dim (embed_dim * 2))
          cv
          (Linear_init (child v 2) embed_dim (dt_rank + d_state * 2))
          (Linear_init (child v 3) dt_rank embed_dim)
          (tmap ln A)
          (ones [embed_dim])
          (Linear_init (child v 4) embed_dim embed_dim)).

Definition Conv1d_wf (cv : Conv1d) : Prop :=
  groups cv <> 0
  /\ in_channels cv mod groups cv = 0
  /\ out_channels cv mod groups cv = 0
  /\ shape (conv_weight cv)
     = [out_channels cv; in_channels cv / groups cv; kernel_size cv]
  /\ shape (conv_bias cv) = [out_channels cv].

Definition MambaBlock_wf (m : MambaBlock) : Prop :=
  Linear_wf (embed_dim m) (embed_dim m * 2) (in_proj m)
  /\ Conv1d_wf (conv m)
  /\ in_channels (conv m) = embed_dim m
  /\ out_channels (conv m) = embed_dim m
  /\ groups (conv m) = embed_dim m
  /\ kernel_size (conv m) = d_conv m
  /\ padding (conv m) = d_conv m - 1
  /\ Linear_wf (embed_dim m) (dt_rank m + d_state m * 2) (x_proj m)
  /\ Linear_wf (dt_rank m) (embed_dim m) (dt_proj m)
  /\ shape (A_log m) = [1; d_state m]
  /\ shape (D m) = [embed_dim m]
  /\ Linear_wf (embed_dim m) (embed_dim m) (out_proj m).

(** Parameter values with zero weights and unit biases, and a zero
    convolution. *)
Definition cex_values : values :=
  fun path _ =>
    match path with
    | [1; _] => 0%R
    | [_; 1] => 1%R
    | _ => 0%R
    end.


(** The names [selective_scan] binds. *)
Record ScanLocals : Type := mkScanLocals {
  s_A : tensor R;
  s_deltaA : tensor R;
  s_deltaB_u : tensor R;
  s_flat_A : tensor R;
  s_flat_B_u : tensor R;
  s_ys : tensor R;
  s_y : tensor R
}.

Definition selective_scan_locals (self : MambaBlock)
           (u delta B C : tensor R) : option ScanLocals :=
  match shape u with
  | [B_size; T_size; D_size] =>
      let N := d_state self in
      let A := t_neg (tmap exp (A_log self)) in
      du <- unsqueeze delta (-1) ;;
      dA <- t_mul du A ;;
      let deltaA := tmap exp dA in
      du' <- unsqueeze delta (-1) ;;
      B2 <- unsqueeze B 2 ;;
      dB <- t_mul du' B2 ;;
      uu <- unsqueeze u (-1) ;;
      deltaB_u <- t_mul dB uu ;;
      pA <- permute deltaA [1; 0; 2; 3]%Z ;;
      pB <- permute deltaB_u [1; 0; 2; 3]%Z ;;
      flat_A <- view (contiguous pA) [Z.of_nat T_size; (-1)%Z; Z.of_nat N] ;;
      flat_B_u <- view (contiguous pB) [Z.of_nat T_size; (-1)%Z; Z.of_nat N] ;;
      '(_, ys) <- Scan.associative_scan Rmult Rplus (flat_A, flat_B_u) ;;
      ys4 <- view ys [Z.of_nat T_size; Z.of_nat B_size;
                      Z.of_nat D_size; Z.of_nat N] ;;
      ysp <- permute ys4 [1; 0; 2; 3]%Z ;;
      C2 <- unsqueeze C 2 ;;
      yc <- t_mul (contiguous ysp) C2 ;;
      y <- sum_last yc ;;
      Some (mkScanLocals A deltaA deltaB_u flat_A flat_B_u ys y)
  | _ => None
  end.

Definition selective_scan (self : MambaBlock) (u delta B C : tensor R)
  : option (tensor R) :=
  l <- selective_scan_locals self u delta B C ;; Some (s_y l).

(** The names [_forward_logic] binds; [m_scan] holds those of its call
    of [selective_scan], [m_x_conv_pre] is [x_conv] before [F.silu],
    [m_y_scan], [m_y_skip] and [m_y_gated] are the three successive
    values of [y]. *)
Record MambaLocals : Type := mkMambaLocals {
  m_x_in : tensor R;
  m_res : tensor R;
  m_x_conv_pre : tensor R;
  m_x_conv : tensor R;
  m_delta : tensor R;
  m_B_param : tensor R;
  m_C_param : tensor R;
  m_scan : ScanLocals;
  m_y_scan : tensor R;
  m_y_skip : tensor R;
  m_y_gated : tensor R;
  m_out : tensor R
}.

(** What [conv_stage] below computes at position [t] of channel [c]:
    tap [k] of the kernel reads position [t + k - (d_conv - 1)] of the
    input, and the padding where that falls outside the sequence. *)
Definition conv_stage_entry (self : MambaBlock) (x_in : tensor R) (T : nat)
           (b t c : nat) : R :=
  let cg := in_channels (conv self) / groups (conv self) in
  let og := out_channels (conv self) / groups (conv self) in
  Rplus
    (rsum cg (fun ci =>
       rsum (d_conv self) (fun k =>
         Rmult (entry (conv_weight (conv self)) [c; ci; k])
               (if (d_conv self - 1 <=? t + k) && (t + k <? d_conv self - 1 + T)
                then entry x_in [b; t + k - (d_conv self - 1); c / og * cg + ci]
                else 0%R))))
    (entry (conv_bias (conv self)) [c]).

(** [self.conv1d(x_in.transpose(1, 2))[:, :, :T].transpose(1, 2)]. *)
Definition conv_stage (self : MambaBlock) (x_in : tensor R) (T : nat)
  : option (tensor R) :=
  xt <- transpose x_in 1 2 ;;
  c <- conv1d (conv self) xt ;;
  ct <- slice c 2 None (Some (Z.of_nat T)) 1 ;;
  transpose ct 1 2.

Definition MambaBlock_locals (self : MambaBlock) (x : tensor R)
  : option MambaLocals :=
  match shape x with
  | [B; T; D_] =>
      x_and_res <- linear (in_proj self) x ;;
      ch <- chunk_last x_and_res 2 ;;
      match ch with
      | [x_in; res] =>
          x_conv_pre <- conv_stage self x_in T ;;
          let x_conv := tmap silu x_conv_pre in
          x_ssm <- linear (x_proj self) x_conv ;;
          sp <- split_last x_ssm [dt_rank self; d_state self; d_state self] ;;
          match sp with
          | [delta; B_param; C_param] =>
              dt <- linear (dt_proj self) delta ;;
              let delta := tmap softplus dt in
              sl <- selective_scan_locals self x_conv delta B_param C_param ;;
              let y := s_y sl in
              xD <- t_mul x_conv (D self) ;;
              y_skip <- t_add y xD ;;
              y_gated <- t_mul y_skip (tmap silu res) ;;
              out <- linear (out_proj self) y_gated ;;
              Some (mkMambaLocals x_in res x_conv_pre x_conv delta B_param
                      C_param sl y y_skip y_gated out)
          | _ => None
          end
      | _ => None
      end
  | _ => None
  end.

Definition MambaBlock_forward_logic (self : MambaBlock) (x : tensor R)
  : option (tensor R) :=
  l <- MambaBlock_locals self x ;; Some (m_out l).

(** [checkpoint.checkpoint(f, x)] returns [f(x)]. *)
Definition MambaBlock_forward (self : MambaBlock) (x : tensor R)
  : option (tensor R) :=
  MambaBlock_forward_logic self x.

(** *** DillNetBlock *)

Inductive mixer : Type :=
| MixerMamba (m : MambaBlock)
| MixerRetention (r : Retention).

Definition mixer_forward (a : mixer) (x : tensor R) : option (tensor R) :=
  match a with
  | MixerMamba m => MambaBlock_forward m x
  | MixerRetention r => Retention_forward r x
  end.

Record DillNetBlock : Type := mkDillNetBlock {
  use_mamba : bool;
  norm1 : RMSNorm;
  attention_layer : mixer;
  norm2 : RMSNorm;
  w1 : Linear;
  w2 : Linear;
  w3 : Linear
}.

Definition mixer_wf (embed_dim : nat) (a : mixer) : Prop :=
  match a with
  | MixerMamba m => MambaBlock_wf m /\ Model.embed_dim m = embed_dim
                    /\ d_conv m = 4 /\ d_state m = 16
  | MixerRetention r => Retention_wf embed_dim r
  end.

(** The condition under which the mixer of a block returns. *)
Definition mixer_runs (a : mixer) (E B T : nat) : Prop :=
  match a with
  | MixerMamba _ => 1 <= T
  | MixerRetention r => retention_runs E (heads r) B T
  end.

Definition DillNetBlock_wf (embed_dim : nat) (b : DillNetBlock) : Prop :=
  RMSNorm_wf embed_dim (norm1 b)
  /\ mixer_wf embed_dim (attention_layer b)
  /\ RMSNorm_wf embed_dim (norm2 b)
  /\ exists ffn_dim,
       Linear_wf embed_dim ffn_dim (w1 b)
       /\ Linear_wf embed_dim ffn_dim (w2 b)
       /\ Linear_wf ffn_dim embed_dim (w3 b).

Definition is_retention (b : DillNetBlock) : bool :=
  match attention_layer b with
  | MixerRetention _ => true
  | MixerMamba _ => false
  end.

Definition DillNetBlock_init (v : values) (embed_dim heads : nat)
           (use_mamba : bool) (ffn_dim : option nat) : option DillNetBlock :=
  let ffn_dim := match ffn_dim with
                 | None => embed_dim * 4
                 | Some f => f
                 end in
  attention_layer <-
    (if use_mamba then
       m <- MambaBlock_init (child v 0) embed_dim 16 4 None ;;
       Some (MixerMamba m)
     else
       r <- Retention_init (child v 0) embed_dim heads ;;
       Some (MixerRetention r)) ;;
  Some (mkDillNetBlock use_mamba (RMSNorm_init embed_dim) attention_layer
          (RMSNorm_init embed_dim)
          (Linear_init (child v 1) embed_dim ffn_dim)
          (Linear_init (child v 2) embed_dim ffn_dim)
          (Linear_init (child v 3) ffn_dim embed_dim)).

Definition DillNetBlock_forward (self : DillNetBlock) (x : tensor R)
  : option (tensor R) :=
  n1 <- RMSNorm_forward (norm1 self) x ;;
  a <- mixer_forward (attention_layer self) n1 ;;
  x <- t_add x a ;;
  normed_x <- RMSNorm_forward (norm2 self) x ;;
  h1 <- linear (w1 self) normed_x ;;
  h2 <- linear (w2 self) normed_x ;;
  h <- t_mul (tmap silu h1) h2 ;;
  ffn_out <- linear (w3 self) h ;;
  t_add x (dropout ffn_out).

(** *** DillNet *)

Record DillNet : Type := mkDillNet {
  blocks : list DillNetBlock;
  final_norm : RMSNorm
}.

Definition DillNet_wf (embed_dim : nat) (net : DillNet) : Prop :=
  Forall (DillNetBlock_wf embed_dim) (blocks net)
  /\ RMSNorm_wf embed_dim (final_norm net).

Definition DillNet_init (v : values) (embed_dim depth heads : nat)
           (ffn_dim : option nat) : option DillNet :=
  blocks <- mapM (fun i => DillNetBlock_init (child v i) embed_dim heads
                             (negb (i mod 2 =? 0)) ffn_dim)
                 (seq 0 depth) ;;
  Some (mkDillNet blocks (RMSNorm_init embed_dim)).

Fixpoint run_blocks (bs : list DillNetBlock) (x : tensor R)
  : option (tensor R) :=
  match bs with
  | [] => Some x
  | block :: bs' => x <- DillNetBlock_forward block x ;; run_blocks bs' x
  end.

Definition DillNet_forward (self : DillNet) (x : tensor R)
  : option (tensor R) :=
  x <- run_blocks (blocks self) x ;;
  RMSNorm_forward (final_norm self) x.

(** *** Row statistics *)

(** The mean of the squares of the row of [x] at [pre]. *)
Definition mean_square (x : tensor R) (pre : list nat) (n : nat) : R :=
  Rdiv (rsum n (fun k => (entry x (pre ++ [k]) ^ 2)%R)) (INR n).

End Model.

(* ================================================================== *)
(** * Part II: theorems *)

(* ------------------------------------------------------------------ *)
(** ** Facts about the tensor engine *)

Module TorchFacts.
Import Torch.
Local Open Scope torch_scope.

(** *** The error monad *)

Lemma bind_some {X Y : Type} (c : option X) (k : X -> option Y) (y : Y) :
  bind c k = Some y -> exists x, c = Some x /\ k x = Some y.
Proof.
  destruct c as [x|]; simpl; intros H; [eauto | discriminate].
Qed.

Lemma bind_none {X Y : Type} (c : option X) (k : X -> option Y) :
  (forall x, c = Some x -> k x = None) -> bind c k = None.
Proof.
  destruct c as [x|]; simpl; intros H; [apply H; reflexivity | reflexivity].
Qed.

Lemma mapM_length {X Y : Type} (f : X -> option Y) (l : list X) (r : list Y) :
  mapM f l = Some r -> length r = length l.
Proof.
  revert r; induction l as [|x l IH]; simpl; intros r H.
  - inversion H; reflexivity.
  - apply bind_some in H. destruct H as (y & _ & H).
    apply bind_some in H. destruct H as (r' & Hr & H).
    inversion H; subst. simpl. f_equal. auto.
Qed.

Lemma mapM_nth {X Y : Type} (f : X -> option Y) (l : list X) (r : list Y) :
  mapM f l = Some r ->
  forall i x, nth_error l i = Some x ->
              exists y, nth_error r i = Some y /\ f x = Some y.
Proof.
  revert r; induction l as [|x0 l IH]; simpl; intros r H i x Hi.
  - destruct i; discriminate.
  - apply bind_some in H. destruct H as (y & Hy & H).
    apply bind_some in H. destruct H as (r' & Hr & H).
    inversion H; subst.
    destruct i as [|i]; simpl in *.
    + inversion Hi; subst. eauto.
    + eapply IH; eauto.
Qed.

(** Inversion of a successful chain of binds. *)
Ltac inv_bind H :=
  let x := fresh "t" in
  let E := fresh "E" in
  apply bind_some in H; destruct H as (x & E & H).

Ltac inv_binds H :=
  repeat first
    [ inv_bind H
    | match type of H with
      | (match ?p with pair _ _ => _ end) = Some _ => destruct p
      | (match ?l with nil => _ | cons _ _ => _ end) = Some _ =>
          destruct l; try discriminate H
      end ].

(** *** Broadcasting *)

Lemma bdim_same (a : nat) : bdim a a = Some a.
Proof. unfold bdim. rewrite Nat.eqb_refl. reflexivity. Qed.

Lemma bdim_1_r (a : nat) : bdim a 1 = Some a.
Proof.
  unfold bdim. destruct (Nat.eqb_spec a 1); [subst; reflexivity|].
  reflexivity.
Qed.

Lemma bdim_1_l (a : nat) : bdim 1 a = Some a.
Proof.
  unfold bdim. destruct (Nat.eqb_spec 1 a); [subst; reflexivity|].
  reflexivity.
Qed.

(** An index below the size of an axis is the one broadcasting reads. *)
Ltac bsel_all :=
  repeat match goal with
         | |- context [if ?n =? 1 then 0 else ?i] =>
             replace (if n =? 1 then 0 else i) with i
               by (destruct (Nat.eqb_spec n 1); first [reflexivity | lia])
         end.

(** *** Sizes of a view *)

Lemma existsb_lt_m1_of_nat (s : list nat) :
  existsb (fun d => (d <? -1)%Z) (map Z.of_nat s) = false.
Proof.
  induction s as [|n s IH]; simpl; [reflexivity|].
  rewrite IH. destruct (Z.ltb_spec (Z.of_nat n) (-1)); [lia | reflexivity].
Qed.

Lemma filter_known_of_nat (s : list nat) :
  filter (fun d => negb (d =? -1)%Z) (map Z.of_nat s) = map Z.of_nat s.
Proof.
  induction s as [|n s IH]; simpl; [reflexivity|].
  destruct (Z.eqb_spec (Z.of_nat n) (-1)); [lia|]. simpl. f_equal. exact IH.
Qed.

Lemma map_to_nat_of_nat (s : list nat) : map Z.to_nat (map Z.of_nat s) = s.
Proof.
  induction s as [|n s IH]; simpl; [reflexivity|].
  rewrite Nat2Z.id, IH. reflexivity.
Qed.

(** All sizes given. *)
Lemma infer_size_nat (s : list nat) (n : nat) :
  infer_size (map Z.of_nat s) n = if n =? numel s then Some s else None.
Proof.
  unfold infer_size.
  rewrite existsb_lt_m1_of_nat, filter_known_of_nat, Nat.sub_diag,
    !map_to_nat_of_nat.
  reflexivity.
Qed.

(** One size to infer. *)
Lemma infer_size_infer (pre post : list nat) (n : nat) :
  infer_size (map Z.of_nat pre ++ (-1)%Z :: map Z.of_nat post) n =
  if (0 <? numel (pre ++ post)) && (n mod numel (pre ++ post) =? 0)
  then Some (pre ++ n / numel (pre ++ post) :: post) else None.
Proof.
  unfold infer_size.
  assert (Hex : existsb (fun d => (d <? -1)%Z)
                  (map Z.of_nat pre ++ (-1)%Z :: map Z.of_nat post) = false).
  { rewrite existsb_app. cbn [existsb]. rewrite !existsb_lt_m1_of_nat.
    reflexivity. }
  assert (Hf : filter (fun d => negb (d =? -1)%Z)
                 (map Z.of_nat pre ++ (-1)%Z :: map Z.of_nat post)
               = map Z.of_nat (pre ++ post)).
  { rewrite filter_app. cbn [filter]. rewrite !filter_known_of_nat.
    change (negb (-1 =? -1)%Z) with false. cbv iota.
    rewrite map_app. reflexivity. }
  rewrite Hex, Hf, map_to_nat_of_nat.
  rewrite length_app. cbn [length]. rewrite !length_map, length_app.
  replace (length pre + S (length post) - (length pre + length post)) with 1
    by lia.
  destruct ((0 <? numel (pre ++ post)) && (n mod numel (pre ++ post) =? 0));
    [|reflexivity].
  f_equal. rewrite map_app. cbn [map]. rewrite !map_map.
  change (-1 =? -1)%Z with true. cbv iota.
  f_equal.
  - rewrite <- (map_id pre) at 2. apply map_ext. intros a.
    destruct (Z.eqb_spec (Z.of_nat a) (-1)); [lia|]. apply Nat2Z.id.
  - f_equal. rewrite <- (map_id post) at 2. apply map_ext. intros a.
    destruct (Z.eqb_spec (Z.of_nat a) (-1)); [lia|]. apply Nat2Z.id.
Qed.

(** *** Symbolic execution *)

Lemma some_shape {A : Type} (s : list nat) (f : list nat -> A) (t : tensor A) :
  Some (mkT s f) = Some t -> exists g, t = mkT s g.
Proof. intros H. inversion H. eauto. Qed.

(** A tensor of known shape, as that shape and its entries. *)
Ltac expose t H :=
  let s := fresh "s" in
  let f := fresh "f" in
  destruct t as [s f]; cbn [shape] in H; subst s.

Ltac tcbn_in H :=
  cbn [bind shape entry rank rev app bshape_rev tmap t_neg fst snd length
       firstn skipn nth drop_nth upd_nth swap map seq Nat.eqb shape_eqb
       andb float arange clamp_min contiguous clone dropout] in H.

Ltac tcbn :=
  cbn [bind shape entry rank rev app bshape_rev tmap t_neg fst snd length
       firstn skipn nth drop_nth upd_nth swap map seq Nat.eqb shape_eqb
       andb float arange clamp_min contiguous clone dropout].

Ltac bdims_in H :=
  rewrite ?bdim_same, ?bdim_1_r, ?bdim_1_l, ?Nat.eqb_refl in H.

Ltac bdims :=
  rewrite ?bdim_same, ?bdim_1_r, ?bdim_1_l, ?Nat.eqb_refl.

Ltac norm_dims_in H :=
  repeat match type of H with
         | context [norm_dim ?r ?d] =>
             let v := eval vm_compute in (norm_dim r d) in
             change (norm_dim r d) with v in H
         end.

Ltac norm_dims :=
  repeat match goal with
         | |- context [norm_dim ?r ?d] =>
             let v := eval vm_compute in (norm_dim r d) in
             change (norm_dim r d) with v
         end.

(** From [E : op ... = Some t], once [op] is unfolded on operands of
    known shapes: [t] is its shape and some entries ... *)
Ltac settle E t :=
  tcbn_in E; norm_dims_in E; tcbn_in E; bdims_in E; tcbn_in E;
  let g := fresh "g" in
  apply some_shape in E; destruct E as (g & E); subst t.

(** ... or its shape and the entries [op] computes. *)
Ltac keep E t :=
  tcbn_in E; norm_dims_in E; tcbn_in E; bdims_in E; tcbn_in E;
  injection E as E; subst t.

Lemma view_shape_nat {A : Type} (t r : tensor A) (s : list nat) :
  view t (map Z.of_nat s) = Some r -> exists g, r = mkT s g.
Proof.
  unfold view. rewrite infer_size_nat.
  destruct (numel (shape t) =? numel s); [|discriminate].
  cbn [bind]. apply some_shape.
Qed.

Lemma linear_shape3 L x y B T E :
  shape x = [B; T; E] -> linear L x = Some y ->
  exists o g, shape (weight L) = [o; E] /\ y = mkT [B; T; o] g.
Proof.
  intros Hx H. expose x Hx. unfold linear in H. cbn [shape rev app] in H.
  destruct (shape (weight L)) as [|o [|i [|? ?]]]; try discriminate H.
  destruct (shape (bias L)) as [|o' [|? ?]]; try discriminate H.
  destruct (Nat.eqb_spec o o'); [|discriminate H]. cbn [andb] in H.
  destruct (Nat.eqb_spec i E); [|discriminate H]. subst.
  apply some_shape in H. destruct H as (g & ->). eauto.
Qed.

Lemma norm_dim_0 (r : nat) : norm_dim (S r) 0 = Some 0.
Proof.
  unfold norm_dim.
  destruct (Z.leb_spec 0 0); [|lia].
  destruct (Z.ltb_spec 0 (Z.of_nat (S r))); [|lia]. reflexivity.
Qed.

Lemma shape_eqb_refl (s : list nat) : shape_eqb s s = true.
Proof.
  induction s as [|n s IH]; simpl; [reflexivity|].
  rewrite Nat.eqb_refl. exact IH.
Qed.

Lemma bshape_rev_same (l : list nat) : bshape_rev l l = Some l.
Proof.
  induction l as [|n l IH]; simpl; [reflexivity|].
  rewrite bdim_same, IH. reflexivity.
Qed.

Lemma broadcast_same (s : list nat) : broadcast_shapes s s = Some s.
Proof.
  unfold broadcast_shapes. rewrite bshape_rev_same. simpl.
  rewrite rev_involutive. reflexivity.
Qed.

Lemma slice0_run {A : Type} (t : tensor A) n rest start stop :
  shape t = n :: rest ->
  slice t 0 start stop 1
  = Some (mkT (slice_count n start stop :: rest)
              (fun idx =>
                 entry t (upd_nth 0 (fun i => slice_lo n start + 1 * i) idx))).
Proof.
  intros Hs. unfold slice, rank. rewrite Hs. cbn [length].
  rewrite norm_dim_0. cbn [bind Nat.eqb nth firstn skipn app].
  rewrite Nat.add_sub, Nat.div_1_r. reflexivity.
Qed.

Lemma bzip_same {A B C : Type} (f : A -> B -> C) a b s :
  shape a = s -> shape b = s ->
  bzip f a b
  = Some (mkT s (fun idx => f (entry a (bidx s idx)) (entry b (bidx s idx)))).
Proof.
  intros Ha Hb. unfold bzip. rewrite Ha, Hb, broadcast_same. reflexivity.
Qed.

Lemma cat0_run {A : Type} (a b : tensor A) na nb rest :
  shape a = na :: rest -> shape b = nb :: rest ->
  cat a b 0
  = Some (mkT ((na + nb) :: rest)
              (fun idx =>
                 if nth 0 idx 0 <? na then entry a idx
                 else entry b (upd_nth 0 (fun i => i - na) idx))).
Proof.
  intros Ha Hb. unfold cat, rank. rewrite Ha, Hb. cbn [length].
  rewrite norm_dim_0. cbn [bind drop_nth firstn skipn app nth].
  rewrite Nat.eqb_refl, shape_eqb_refl. reflexivity.
Qed.

Lemma some_inj {X : Type} (a b : X) : Some a = Some b -> a = b.
Proof. intros H. inversion H. reflexivity. Qed.

Ltac unfold_ops_in E :=
  unfold linear, unsqueeze, transpose, permute, slice, cat, stack_last,
    flatten, t_mul, t_add, bzip, broadcast_shapes, sum_last,
    mean_last_keepdim, einsum_outer, matmul, conv1d in E.

Ltac perm_dims_in E :=
  repeat match type of E with
         | context [mapM (norm_dim ?r) ?l] =>
             let v := eval vm_compute in (mapM (norm_dim r) l) in
             change (mapM (norm_dim r) l) with v in E
         end;
  cbn [bind] in E;
  repeat match type of E with
         | context [is_perm ?p ?r] =>
             let v := eval vm_compute in (is_perm p r) in
             change (is_perm p r) with v in E
         end;
  cbn [map nth index_of Nat.eqb] in E.

Ltac simp_in E :=
  tcbn_in E; norm_dims_in E; perm_dims_in E; tcbn_in E; bdims_in E; tcbn_in E;
  unfold broadcast_shapes in E; tcbn_in E; bdims_in E; tcbn_in E.

(* run the call [c]: it returns a tensor whose entries are forgotten ... *)
Ltac step c :=
  let t := fresh "t" in
  let E := fresh "E" in
  destruct c as [t|] eqn:E;
  [ unfold_ops_in E; simp_in E;
    let g := fresh "g" in
    apply some_shape in E; destruct E as (g & E); subst t
  | unfold_ops_in E; simp_in E; discriminate E ];
  cbn [bind].

(* ... or kept *)
Ltac step_keep c :=
  let t := fresh "t" in
  let E := fresh "E" in
  destruct c as [t|] eqn:E;
  [ unfold_ops_in E; simp_in E; apply some_inj in E; subst t
  | unfold_ops_in E; simp_in E; discriminate E ];
  cbn [bind].

Ltac head_call c :=
  lazymatch c with
  | bind ?c' _ => head_call c'
  | _ => constr:(c)
  end.

Ltac next :=
  lazymatch goal with
  | |- context [bind ?c _] => let c' := head_call c in step c'
  end.

Ltac next_keep :=
  lazymatch goal with
  | |- context [bind ?c _] => let c' := head_call c in step_keep c'
  end.

(** The last call of a function whose result is claimed to exist. *)
Ltac last_call :=
  lazymatch goal with
  | |- exists y, ?c = Some y /\ _ =>
      let t := fresh "t" in
      let E := fresh "E" in
      destruct c as [t|] eqn:E;
      [ unfold_ops_in E; simp_in E;
        let g := fresh "g" in
        apply some_shape in E; destruct E as (g & E); subst t
      | unfold_ops_in E; simp_in E; discriminate E ]
  end.

Lemma view_nat_run {A : Type} (t : tensor A) (s s' : list nat) :
  shape t = s -> numel s = numel s' ->
  view t (map Z.of_nat s')
  = Some (mkT s' (fun idx => entry t (unravel s (ravel s' idx)))).
Proof.
  intros Hs Hn. unfold view. rewrite infer_size_nat, Hs, Hn, Nat.eqb_refl.
  reflexivity.
Qed.

Lemma numel_flat (T Bn E N : nat) :
  numel [T; Bn; E; N] = Bn * E * numel [T; N].
Proof. cbn [numel fold_right]. lia. Qed.

Lemma view_flat_run {A : Type} (t : tensor A) (T Bn E N : nat) :
  shape t = [T; Bn; E; N] -> 1 <= T -> 1 <= N ->
  view t [Z.of_nat T; (-1)%Z; Z.of_nat N]
  = Some (mkT [T; Bn * E; N]
              (fun idx =>
                 entry t (unravel [T; Bn; E; N] (ravel [T; Bn * E; N] idx)))).
Proof.
  intros Hs HT HN. unfold view. rewrite Hs.
  change [Z.of_nat T; (-1)%Z; Z.of_nat N]
    with (map Z.of_nat [T] ++ (-1)%Z :: map Z.of_nat [N]).
  rewrite infer_size_infer. cbn [app].
  rewrite numel_flat.
  assert (Hpos : 0 < numel [T; N]) by (cbn [numel fold_right]; nia).
  rewrite Nat.Div0.mod_mul, Nat.div_mul by lia.
  destruct (Nat.ltb_spec 0 (numel [T; N])); [|lia].
  reflexivity.
Qed.

Lemma linear_run3 L x i o B T :
  Linear_wf i o L -> shape x = [B; T; i] ->
  linear L x
  = Some (mkT [B; T; o]
              (fun idx => linear_entry L i x (removelast idx) (last idx 0))).
Proof.
  intros [Hw Hb] Hx. unfold linear. rewrite Hw, Hb, Hx.
  cbn [rev app]. rewrite !Nat.eqb_refl. reflexivity.
Qed.

Lemma chunk2_run {A : Type} (t : tensor A) B T E :
  shape t = [B; T; E * 2] ->
  chunk_last t 2
  = Some [mkT [B; T; E]
              (fun idx => entry t (removelast idx ++ [last idx 0 + 0]));
          mkT [B; T; E]
              (fun idx => entry t (removelast idx ++ [last idx 0 + (0 + E)]))].
Proof.
  intros Hs. unfold chunk_last. rewrite Hs. cbn [rev app Nat.eqb].
  replace ((E * 2 + 2 - 1) / 2) with E
    by (apply Nat.div_unique with (r := 1); lia).
  destruct (Nat.eqb_spec E 0) as [->|HE].
  - reflexivity.
  - replace (E * 2 / E) with 2 by (apply Nat.div_unique_exact; lia).
    replace (E * 2 mod E) with 0
      by (symmetry; rewrite Nat.mul_comm; apply Nat.Div0.mod_mul).
    reflexivity.
Qed.

Lemma split3_run {A : Type} (t : tensor A) B T r N :
  shape t = [B; T; r + N * 2] ->
  split_last t [r; N; N]
  = Some [mkT [B; T; r]
              (fun idx => entry t (removelast idx ++ [last idx 0 + 0]));
          mkT [B; T; N]
              (fun idx => entry t (removelast idx ++ [last idx 0 + (0 + r)]));
          mkT [B; T; N]
              (fun idx =>
                 entry t (removelast idx ++ [last idx 0 + (0 + r + N)]))].
Proof.
  intros Hs. unfold split_last. rewrite Hs. cbn [rev app fold_right].
  replace (r + (N + (N + 0)) =? r + N * 2) with true
    by (symmetry; apply Nat.eqb_eq; lia).
  reflexivity.
Qed.

Ltac last_keep :=
  match goal with
  | |- exists y, ?c = Some y /\ _ =>
      let t := fresh "t" in
      let E := fresh "E" in
      destruct c as [t|] eqn:E;
      [ unfold_ops_in E; simp_in E; apply some_inj in E; subst t
      | unfold_ops_in E; simp_in E; discriminate E ]
  end.

Lemma rsum_ext (n : nat) (f g : nat -> R) :
  (forall k, k < n -> f k = g k) -> rsum n f = rsum n g.
Proof.
  induction n as [|n IH]; intros H; cbn [rsum]; [reflexivity|].
  rewrite IH by (intros k Hk; apply H; lia).
  rewrite H by lia. reflexivity.
Qed.

Ltac slice_consts :=
  repeat match goal with
         | |- context [slice_count ?a ?b ?c] =>
             let v := eval vm_compute in (slice_count a b c) in
             progress change (slice_count a b c) with v
         | |- context [slice_lo ?a ?b] =>
             let v := eval vm_compute in (slice_lo a b) in
             progress change (slice_lo a b) with v
         end.

Lemma ran_false {X : Type} (c : option X) : ran c = false -> c = None.
Proof. destruct c; [discriminate|reflexivity]. Qed.

Lemma mapM_Forall {X Y : Type} (f : X -> option Y) (l : list X) (r : list Y) :
  mapM f l = Some r ->
  Forall (fun y => exists x, In x l /\ f x = Some y) r.
Proof.
  revert r; induction l as [|x0 l IH]; simpl; intros r H.
  - apply some_inj in H. subst r. constructor.
  - apply bind_some in H. destruct H as (y & Hy & H).
    apply bind_some in H. destruct H as (r' & Hr & H).
    apply some_inj in H. subst r. constructor.
    + exists x0. auto.
    + eapply Forall_impl; [|eapply IH; exact Hr].
      intros a (x & Hin & Hx). exists x. auto.
Qed.

Ltac forget_head :=
  match goal with
  | |- context [bind (Some (mkT ?s ?F)) _] =>
      let g := fresh "g" in generalize F; intro g; cbn [bind]
  end.

Lemma view_last_run {A : Type} (t : tensor A) (B T n : nat) s :
  shape t = s -> numel s = B * T * n -> 1 <= B -> 1 <= T ->
  view t [Z.of_nat B; Z.of_nat T; (-1)%Z]
  = Some (mkT [B; T; n]
              (fun idx => entry t (unravel s (ravel [B; T; n] idx)))).
Proof.
  intros Hs Hn HB HT. unfold view. rewrite Hs.
  change [Z.of_nat B; Z.of_nat T; (-1)%Z]
    with (map Z.of_nat [B; T] ++ (-1)%Z :: map Z.of_nat []).
  rewrite infer_size_infer. cbn [app].
  assert (Hbt : numel [B; T] = B * T) by (cbn [numel fold_right]; lia).
  rewrite Hn, Hbt.
  replace (B * T * n) with (n * (B * T)) by lia.
  assert (Hpos : 0 < B * T) by nia.
  rewrite Nat.Div0.mod_mul, Nat.div_mul by lia.
  destruct (Nat.ltb_spec 0 (B * T)); [|lia].
  reflexivity.
Qed.

End TorchFacts.

(* ------------------------------------------------------------------ *)
(** ** The scan engine *)

Module ScanFacts.
Import Torch Scan TorchFacts.
Local Open Scope torch_scope.

Section ScanShape.

Variable A : Type.
Variables (mul add : A -> A -> A).

Lemma binary_operator_run (Ai Bi Aj Bj : tensor A) s :
  shape Ai = s -> shape Bi = s -> shape Aj = s -> shape Bj = s ->
  exists a b, binary_operator mul add (Ai, Bi) (Aj, Bj) = Some (a, b)
              /\ shape a = s /\ shape b = s.
Proof.
  intros H1 H2 H3 H4. unfold binary_operator, addcmul.
  rewrite (@bzip_same _ _ _ mul _ _ _ H3 H1). cbn [bind].
  rewrite (@bzip_same _ _ _ mul _ _ _ H3 H2). cbn [bind].
  erewrite bzip_same; [|exact H4|reflexivity]. cbn [bind].
  eexists. eexists. split; [reflexivity|]. split; reflexivity.
Qed.

Lemma up_round_run (stride : Z) (a b : tensor A) n rest :
  shape a = n :: rest -> shape b = n :: rest -> (1 <= stride)%Z ->
  exists a' b', up_round mul add stride (a, b) = Some (a', b')
                /\ shape a' = n :: rest /\ shape b' = n :: rest.
Proof.
  intros Ha Hb Hs. unfold up_round. cbn [fst snd].
  rewrite !(@slice0_run _ _ _ _ _ _ Ha), !(@slice0_run _ _ _ _ _ _ Hb).
  cbn [bind].
  assert (Hlen : slice_count n (Some stride) None
                 = slice_count n None (Some (- stride)%Z)).
  { unfold slice_count, slice_hi, slice_lo, norm_index.
    destruct (Z.ltb_spec stride 0); [lia|].
    destruct (Z.ltb_spec (- stride) 0); lia. }
  rewrite Hlen.
  edestruct (@binary_operator_run) as (ra & rb & -> & Hra & Hrb);
    [reflexivity | reflexivity | reflexivity | reflexivity |].
  cbn [bind].
  erewrite cat0_run; [|reflexivity|exact Hra]. cbn [bind].
  erewrite cat0_run; [|reflexivity|exact Hrb]. cbn [bind].
  eexists. eexists. split; [reflexivity|].
  assert (Hn : slice_count n None (Some stride)
               + slice_count n None (Some (- stride)%Z) = n).
  { unfold slice_count, slice_hi, slice_lo, norm_index.
    destruct (Z.ltb_spec stride 0); [lia|].
    destruct (Z.ltb_spec (- stride) 0); lia. }
  cbn [shape]. rewrite Hn. split; reflexivity.
Qed.

Lemma down_round_run (stride : Z) (a b : tensor A) n rest :
  shape a = n :: rest -> shape b = n :: rest -> (1 <= stride)%Z ->
  exists a' b', down_round mul add stride (a, b) = Some (a', b')
                /\ shape a' = n :: rest /\ shape b' = n :: rest.
Proof.
  intros Ha Hb Hs. unfold down_round. cbn [fst snd].
  rewrite !(@slice0_run _ _ _ _ _ _ Ha), !(@slice0_run _ _ _ _ _ _ Hb).
  cbn [bind].
  assert (Hlen : slice_count n (Some (2 * stride - 1)%Z) None
                 = slice_count n (Some (stride - 1)%Z) (Some (- stride)%Z)).
  { unfold slice_count, slice_hi, slice_lo, norm_index.
    destruct (Z.ltb_spec (2 * stride - 1) 0); [lia|].
    destruct (Z.ltb_spec (stride - 1) 0); [lia|].
    destruct (Z.ltb_spec (- stride) 0); lia. }
  rewrite Hlen.
  edestruct (@binary_operator_run) as (ra & rb & -> & Hra & Hrb);
    [reflexivity | reflexivity | reflexivity | reflexivity |].
  cbn [bind].
  erewrite cat0_run; [|reflexivity|exact Hra]. cbn [bind].
  erewrite cat0_run; [|reflexivity|exact Hrb]. cbn [bind].
  eexists. eexists. split; [reflexivity|].
  assert (Hn : slice_count n None (Some (2 * stride - 1)%Z)
               + slice_count n (Some (stride - 1)%Z) (Some (- stride)%Z) = n).
  { unfold slice_count, slice_hi, slice_lo, norm_index.
    destruct (Z.ltb_spec (2 * stride - 1) 0); [lia|].
    destruct (Z.ltb_spec (stride - 1) 0); [lia|].
    destruct (Z.ltb_spec (- stride) 0); lia. }
  cbn [shape]. rewrite Hn. split; reflexivity.
Qed.

(** The fuel of the first loop is enough. *)
Lemma up_loop_run (fuel : nat) (num stride : Z) (a b : tensor A) n rest :
  shape a = n :: rest -> shape b = n :: rest ->
  (1 <= stride)%Z -> (Z.to_nat (num - stride) <= fuel) ->
  (stride < 2 * num \/ stride = 1)%Z ->
  exists stride' a' b',
    up_loop mul add fuel num stride (a, b) = Some (stride', (a', b'))
    /\ shape a' = n :: rest /\ shape b' = n :: rest
    /\ (1 <= stride')%Z /\ (stride' < 2 * num \/ stride' = 1)%Z.
Proof.
  revert stride a b. induction fuel as [|fuel IH]; intros stride a b Ha Hb Hs Hf Hlt.
  - cbn [up_loop]. destruct (Z.ltb_spec stride num); [lia|].
    eauto 10.
  - cbn [up_loop]. destruct (Z.ltb_spec stride num).
    + destruct (@up_round_run stride a b n rest Ha Hb Hs) as (a' & b' & -> & Ha' & Hb').
      cbn [bind]. apply IH; try assumption; lia.
    + eauto 10.
Qed.

Lemma down_loop_run (fuel : nat) (stride : Z) (a b : tensor A) n rest :
  shape a = n :: rest -> shape b = n :: rest ->
  (Z.to_nat stride <= fuel) ->
  exists a' b',
    down_loop mul add fuel stride (a, b) = Some (a', b')
    /\ shape a' = n :: rest /\ shape b' = n :: rest.
Proof.
  revert stride a b. induction fuel as [|fuel IH]; intros stride a b Ha Hb Hf.
  - cbn [down_loop]. destruct (Z.gtb_spec stride 0); [lia|]. eauto.
  - cbn [down_loop]. destruct (Z.gtb_spec stride 0).
    + destruct (@down_round_run stride a b n rest Ha Hb) as (a' & b' & -> & Ha' & Hb'); [lia|].
      cbn [bind]. apply IH; try assumption.
      assert (stride / 2 < stride)%Z by (apply Z.div_lt; lia). 
      assert (0 <= stride / 2)%Z by (apply Z.div_pos; lia). lia.
    + eauto.
Qed.

(** On two tensors of one shape with at least one axis, the scan
    returns, and returns tensors of that shape. *)
Lemma associative_scan_run (a b : tensor A) n rest :
  shape a = n :: rest -> shape b = n :: rest ->
  exists a' b', associative_scan mul add (a, b) = Some (a', b')
                /\ shape a' = n :: rest /\ shape b' = n :: rest.
Proof.
  intros Ha Hb. unfold associative_scan, shape0, clone. cbn [fst snd].
  rewrite Ha. cbn [bind].
  destruct (Nat.leb_spec n 1); [eauto|].
  destruct (@up_loop_run n (Z.of_nat n) 1 a b n rest Ha Hb)
    as (s' & a' & b' & -> & Ha' & Hb' & Hs1 & Hs2); try lia.
  cbn [bind].
  apply down_loop_run; try assumption.
  assert (s' / 2 < Z.of_nat n)%Z.
  { destruct Hs2 as [Hs2|Hs2]; [apply Z.div_lt_upper_bound; lia|].
    subst s'. change (1 / 2)%Z with 0%Z. lia. }
  assert (0 <= s' / 2)%Z by (apply Z.div_pos; lia). lia.
Qed.
End ScanShape.

(** C7. On a pair of tensors whose scan axis has length 0 or 1,
    [associative_scan] returns the pair it was given. *)
Theorem associative_scan_degenerate
        (A : Type) (mul add : A -> A -> A)
        (elems : tensor A * tensor A) (L : nat) (rest : list nat) :
  shape (fst elems) = L :: rest ->
  L <= 1 ->
  associative_scan mul add elems = Some elems.
Proof.
  intros Hs HL. destruct elems as [a b]. simpl in Hs.
  unfold associative_scan, shape0, clone. simpl fst. simpl snd.
  rewrite Hs. simpl.
  destruct (Nat.leb_spec L 1); [reflexivity | lia].
Qed.

Lemma associative_scan_degenerate_witness :
  associative_scan Z.mul Z.add (of_list 0%Z [2%Z], of_list 0%Z [7%Z])
  = Some (of_list 0%Z [2%Z], of_list 0%Z [7%Z]).
Proof.
  apply (@associative_scan_degenerate Z Z.mul Z.add _ 1 []);
    [reflexivity | lia].
Defined.

(** On two elements, for any multiplication and addition, the second
    loop combines position 1, already final after the first loop, with
    position 0 once more. *)
Lemma associative_scan_two (A : Type) (mul add : A -> A -> A)
      (d a0 a1 b0 b1 : A) :
  scan_values mul add d [a0; a1] [b0; b1]
  = Some ([a0; mul (mul a1 a0) a0],
          [b0; add (add b1 (mul a1 b0)) (mul (mul a1 a0) b0)]).
Proof. vm_compute. reflexivity. Qed.

(** Over the reals, the scan of two elements gives at position 1 the
    value of the recurrence plus [A_1 * A_0 * Bu_0]. *)
Lemma associative_scan_two_excess (a0 a1 b0 b1 : R) :
  exists a y,
    scan_values Rmult Rplus 0%R [a0; a1] [b0; b1] = Some (a, y)
    /\ nth 1 y 0%R
       = Rplus (nth 1 (recurrence_from Rmult Rplus 0%R [a0; a1] [b0; b1]) 0%R)
               (Rmult (Rmult a1 a0) b0).
Proof.
  eexists. eexists. split; [apply associative_scan_two|].
  cbn [nth recurrence_from]. lra.
Qed.

(** C1, at the failing input. On A = [1, 1], Bu = [1, 0] the recurrence
    h_t = A_t * h_{t-1} + Bu_t from h = 0 gives [1, 1], and so do the
    sequential fold of the operator and the first loop on its own;
    [associative_scan] returns Bu_total = [1, 2]. *)
Theorem associative_scan_departs_from_recurrence :
  scan_lists [1; 1]%Z [1; 0]%Z = Some ([1; 1]%Z, [1; 2]%Z)
  /\ recurrence_from Z.mul Z.add 0%Z [1; 1]%Z [1; 0]%Z = [1; 1]%Z
  /\ map snd (sequential_fold Z.mul Z.add [(1, 1); (1, 0)]%Z) = [1; 1]%Z
  /\ up_lists [1; 1]%Z [1; 0]%Z = Some ([1; 1]%Z, [1; 1]%Z).
Proof.
  repeat split; vm_compute; reflexivity.
Qed.

End ScanFacts.

(* ------------------------------------------------------------------ *)
(** ** The constructors *)

Module InitFacts.
Import Torch Model TorchFacts.
Local Open Scope torch_scope.

Lemma DillNetBlock_init_mixer v embed_dim heads um ffn_dim b :
  DillNetBlock_init v embed_dim heads um ffn_dim = Some b ->
  use_mamba b = um /\ is_retention b = negb um.
Proof.
  unfold DillNetBlock_init. intros H.
  apply bind_some in H. destruct H as (a & Ha & H).
  inversion H; subst; clear H. unfold is_retention; simpl.
  destruct um.
  - apply bind_some in Ha. destruct Ha as (m & _ & Ha).
    inversion Ha; subst. auto.
  - apply bind_some in Ha. destruct Ha as (r & _ & Ha).
    inversion Ha; subst. auto.
Qed.

Lemma odd_as_mod (i : nat) : negb (i mod 2 =? 0) = Nat.odd i.
Proof.
  unfold Nat.odd. f_equal.
  destruct (Nat.even i) eqn:Hev.
  - apply Nat.even_spec in Hev. destruct Hev as [k ->].
    rewrite Nat.mul_comm, Nat.Div0.mod_mul. reflexivity.
  - apply Nat.eqb_neq. intros Hm.
    assert (Nat.even i = true); [|congruence].
    apply Nat.even_spec. exists (i / 2).
    pose proof (Nat.div_mod_eq i 2). lia.
Qed.

(** C6. Whatever the other arguments, a network built with [depth]
    blocks has the Retention mixer in every block at an even index and
    the MambaBlock mixer in every block at an odd index. *)
Theorem DillNet_init_alternates v embed_dim depth heads ffn_dim net :
  DillNet_init v embed_dim depth heads ffn_dim = Some net ->
  length (blocks net) = depth
  /\ forall i, i < depth ->
       exists b, nth_error (blocks net) i = Some b
                 /\ is_retention b = Nat.even i
                 /\ use_mamba b = Nat.odd i.
Proof.
  unfold DillNet_init. intros H.
  apply bind_some in H. destruct H as (bs & Hbs & H).
  inversion H; subst; clear H. simpl.
  split.
  - rewrite (mapM_length _ _ Hbs). apply length_seq.
  - intros i Hi.
    destruct (mapM_nth _ _ Hbs i (x := i)) as (b & Hb & Hinit).
    { rewrite nth_error_nth' with (d := 0) by (rewrite length_seq; lia).
      rewrite seq_nth by lia. reflexivity. }
    exists b. split; [exact Hb|].
    apply DillNetBlock_init_mixer in Hinit. destruct Hinit as [Hu Hr].
    rewrite Hr, Hu, odd_as_mod. split; [|reflexivity].
    unfold Nat.odd. apply negb_involutive.
Qed.

Lemma DillNet_init_alternates_witness :
  match DillNet_init (fun _ _ => 0%R) 8 6 2 None with
  | Some net =>
      length (blocks net) = 6
      /\ forall i, i < 6 ->
           exists b, nth_error (blocks net) i = Some b
                     /\ is_retention b = Nat.even i
                     /\ use_mamba b = Nat.odd i
  | None => False
  end.
Proof.
  destruct (DillNet_init (fun _ _ => 0%R) 8 6 2 None) as [net|] eqn:E;
    [|discriminate E].
  exact (DillNet_init_alternates _ _ _ _ _ E).
Defined.

End InitFacts.

(* ------------------------------------------------------------------ *)
(** ** What the constructors establish *)

Module WfFacts.
Import Torch Model TorchFacts.
Local Open Scope torch_scope.

Lemma Linear_init_wf v i o : Linear_wf i o (Linear_init v i o).
Proof. split; reflexivity. Qed.

Lemma RMSNorm_init_wf dim : RMSNorm_wf dim (RMSNorm_init dim).
Proof. reflexivity. Qed.

Lemma RotaryEmbedding_init_wf dim r :
  RotaryEmbedding_init dim = Some r -> RotaryEmbedding_wf dim r.
Proof.
  unfold RotaryEmbedding_init, arange_step. cbn [Nat.eqb bind].
  intros H. injection H as <-. unfold RotaryEmbedding_wf.
  cbn [inv_freq tmap float shape].
  replace (dim - 0 + 2 - 1) with (dim + 1) by lia. reflexivity.
Qed.

Lemma Retention_init_wf v embed_dim heads r :
  Retention_init v embed_dim heads = Some r -> Retention_wf embed_dim r.
Proof.
  unfold Retention_init. intros H.
  destruct (Nat.eqb_spec heads 0) as [|Hh]; [discriminate H|].
  inv_bind H. injection H as <-.
  apply RotaryEmbedding_init_wf in E.
  unfold Retention_wf. cbn.
  repeat split; try assumption.
Qed.

Lemma Retention_init_heads v embed_dim heads r :
  Retention_init v embed_dim heads = Some r -> Model.heads r = heads.
Proof.
  unfold Retention_init. intros H.
  destruct (heads =? 0); [discriminate H|].
  inv_bind H. injection H as <-. reflexivity.
Qed.

Lemma Conv1d_init_wf v i o k p g cv :
  Conv1d_init v i o k p g = Some cv ->
  Conv1d_wf cv /\ in_channels cv = i /\ out_channels cv = o
  /\ kernel_size cv = k /\ padding cv = p /\ groups cv = g.
Proof.
  unfold Conv1d_init. intros H.
  destruct (Nat.eqb_spec g 0); [discriminate H|].
  destruct (Nat.eqb_spec (i mod g) 0); [|discriminate H].
  destruct (Nat.eqb_spec (o mod g) 0); [|discriminate H].
  cbn [negb] in H. apply some_inj in H. subst cv.
  unfold Conv1d_wf. cbn. repeat split; assumption.
Qed.

Lemma MambaBlock_init_wf v E ds dc dr m :
  MambaBlock_init v E ds dc dr = Some m ->
  MambaBlock_wf m /\ embed_dim m = E /\ d_state m = ds /\ d_conv m = dc.
Proof.
  unfold MambaBlock_init. intros H.
  inv_bind H. apply Conv1d_init_wf in E0.
  destruct E0 as (Hcv & Hi & Ho & Hk & Hp & Hg).
  unfold arange_step in H. cbn [Nat.eqb bind] in H.
  unfold unsqueeze, rank in H. cbn [float tmap shape length] in H.
  norm_dims_in H. cbn [bind firstn skipn app] in H.
  apply some_inj in H. subst m.
  unfold MambaBlock_wf.
  cbn [embed_dim d_state d_conv dt_rank in_proj conv x_proj dt_proj A_log D
       out_proj tmap shape ones].
  replace ((ds + 1 - 1 + 1 - 1) / 1) with ds
    by (rewrite Nat.div_1_r; lia).
  destruct Hcv as (? & ? & ? & ? & ?).
  repeat split; try assumption.
Qed.

End WfFacts.

(* ------------------------------------------------------------------ *)
(** ** Rotary position encoding and the Retention mixer *)

Module RetentionFacts.
Import Torch Model TorchFacts WfFacts.
Local Open Scope torch_scope.

Lemma second_frequency : (0 < 1 / Rpower 10000 (2 / 4) < 1)%R.
Proof.
  assert (Hln : (0 < ln 10000)%R).
  { rewrite <- ln_1. apply ln_increasing; lra. }
  assert (Hp : (1 < Rpower 10000 (2 / 4))%R).
  { unfold Rpower. rewrite <- exp_0. apply exp_increasing. nra. }
  split.
  - apply Rdiv_lt_0_compat; lra.
  - apply Rmult_lt_reg_r with (r := Rpower 10000 (2 / 4)); [lra|].
    unfold Rdiv. rewrite Rmult_assoc, Rinv_l by lra. lra.
Qed.

(** The pair the code returns for [(1, 0)] at position 1 with the two
    frequencies of a head of size 4 is [(cos 1, sin (1/100))]. *)
Lemma rotary_pair_numbers :
  ((1 * cos (IZR (Z.of_nat 1) * (1 / Rpower 10000 (IZR (Z.of_nat 0) / INR 4)))
    + - 0 * sin (IZR (Z.of_nat 1)
                 * (1 / Rpower 10000 (IZR (Z.of_nat 0) / INR 4))))²
   + (0 * cos (IZR (Z.of_nat 1)
               * (1 / Rpower 10000 (IZR (Z.of_nat 2) / INR 4)))
      + 1 * sin (IZR (Z.of_nat 1)
                 * (1 / Rpower 10000 (IZR (Z.of_nat 2) / INR 4))))²)%R
  <> (1² + 0²)%R.
Proof.
  change (IZR (Z.of_nat 1)) with 1%R. change (IZR (Z.of_nat 0)) with 0%R.
  change (IZR (Z.of_nat 2)) with 2%R.
  replace (INR 4) with 4%R by (simpl; lra).
  replace (0 / 4)%R with 0%R by lra.
  rewrite Rpower_O by lra.
  replace (1 * (1 / 1))%R with 1%R by lra.
  pose proof second_frequency as [Hb0 Hb1].
  set (b := (1 / Rpower 10000 (2 / 4))%R) in *.
  replace (1 * b)%R with b by lra.
  pose proof PI2_1 as Hpi.
  assert (Hs1 : (sin b < sin 1)%R) by (apply sin_increasing_1; lra).
  assert (Hs0 : (0 < sin b)%R) by (apply sin_gt_0; lra).
  pose proof (sin2_cos2 1) as H1.
  unfold Rsqr in *. nra.
Qed.

(** C2, at the failing input. A head of size 4 has the frequencies 1 and
    1/100; the code gives the two elements of a pair different ones. For
    the row [(1, 0, 0, 0)] at position 1 the first pair becomes
    [(cos 1, sin (1/100))], of squared norm below 1. *)
Theorem rotary_changes_pair_norm :
  match RotaryEmbedding_init 4 with
  | Some r =>
      match RotaryEmbedding_forward r e0_rows with
      | Some y => pair_norm2 y [0; 0; 1] 0 <> pair_norm2 e0_rows [0; 0; 1] 0
      | None => False
      end
  | None => False
  end.
Proof.
  unfold RotaryEmbedding_init, arange_step. cbn [Nat.eqb bind].
  unfold RotaryEmbedding_forward, e0_rows.
  cbn [shape rev app inv_freq float tmap arange].
  change ((4 - 0 + 2 - 1) / 2) with 2.
  next_keep. next_keep. next_keep. next_keep. next_keep. next_keep.
  next_keep. next_keep.
  slice_consts. cbn [Nat.add Nat.sub Nat.div Nat.divmod fst Nat.mul].
  next_keep. next_keep. cbn [numel fold_right Nat.mul Nat.add].
  next_keep. next_keep. 
  match goal with
  | |- match ?c with Some _ => _ | None => _ end =>
      let t := fresh "t" in
      let E := fresh "E" in
      destruct c as [t|] eqn:E;
      [ unfold_ops_in E; simp_in E; apply some_inj in E; subst t
      | unfold_ops_in E; simp_in E; discriminate E ]
  end.
  unfold pair_norm2.
  cbn [entry app Nat.mul Nat.add bidx bidx_aligned length Nat.sub skipn nth
       Nat.eqb firstn upd_nth drop_nth removelast last Nat.ltb Nat.leb
       unravel numel fold_right Nat.div Nat.modulo Nat.divmod fst snd].
  apply rotary_pair_numbers.
Qed.

(** The shape a rotary encoding returns, when it returns. *)
Lemma rotary_shape_inv r x y B h T d :
  shape x = [B; h; T; d] ->
  RotaryEmbedding_forward r x = Some y ->
  exists d', shape y = [B; h; T; d'].
Proof.
  intros Hx H. expose x Hx.
  unfold RotaryEmbedding_forward in H. cbn [shape rev app] in H.
  inv_binds H.
  unfold einsum_outer in E. tcbn_in E.
  destruct (shape (inv_freq r)) as [|n [|? ?]]; try discriminate E.
  settle E t.
  unfold cat in E0. settle E0 t0.
  unfold unsqueeze in E1. settle E1 t1.
  unfold unsqueeze in E2. settle E2 t2.
  unfold unsqueeze in E3. settle E3 t3.
  unfold unsqueeze in E4. settle E4 t4.
  unfold slice in E5. settle E5 t5.
  unfold slice in E6. settle E6 t6.
  set (a1 := (slice_count d None None + 2 - 1) / 2) in *.
  set (a2 := (slice_count d (Some 1%Z) None + 2 - 1) / 2) in *.
  clearbody a1 a2.
  unfold stack_last in E7. tcbn_in E7. bdims_in E7. tcbn_in E7.
  destruct (a2 =? a1); [|discriminate E7]. settle E7 t7.
  unfold flatten in E8. settle E8 t8.
  unfold t_mul, bzip, broadcast_shapes in E9. tcbn_in E9. bdims_in E9.
  destruct (bdim d (n + n)) as [d0|]; [|discriminate E9]. settle E9 t9.
  unfold t_mul, bzip, broadcast_shapes in E10. tcbn_in E10. bdims_in E10.
  destruct (bdim (numel [a2; 2]) (n + n)) as [d1|]; [|discriminate E10].
  settle E10 t10.
  unfold broadcast_shapes in E11. tcbn_in E11. bdims_in E11.
  destruct (bdim d0 d1) as [d2|]; [|discriminate E11].
  tcbn_in E11. inversion E11; subst t11. inversion H; subst y.
  exists d2. reflexivity.
Qed.

(** The decay matrix: [t_w[h, i, j] = exp(-gamma_h * max(i - j, 0))]. *)
Lemma decay_run self T :
  shape (gamma_param self) = [heads self] ->
  exists diff t_w,
    decay self T = Some (tmap sigmoid (gamma_param self), diff, t_w)
    /\ shape t_w = [heads self; T; T]
    /\ forall h i j, h < heads self -> i < T -> j < T ->
         entry t_w [h; i; j]
         = exp (- sigmoid (entry (gamma_param self) [h])
                * IZR (Z.max 0 (Z.of_nat i - Z.of_nat j))).
Proof.
  intros Hg.
  destruct self as [hd hdim sc wq wk wv gt [sg fg] rot].
  cbn [gamma_param heads shape] in *. subst sg.
  unfold decay, unsqueeze, bzip, view, rank, arange, clamp_min, tmap, t_neg,
    broadcast_shapes.
  cbn [gamma_param heads shape entry length].
  norm_dims. cbn [bind firstn skipn app rev bshape_rev shape entry].
  bdims.
  cbn [bind firstn skipn app rev bshape_rev shape entry].
  change [Z.of_nat hd; 1%Z; 1%Z] with (map Z.of_nat [hd; 1; 1]).
  rewrite infer_size_nat.
  replace (numel [hd] =? numel [hd; 1; 1]) with true
    by (symmetry; apply Nat.eqb_eq; cbn [numel fold_right]; lia).
  cbn [bind shape entry rev app bshape_rev tmap].
  bdims.
  cbn [bind shape entry rev app bshape_rev tmap].
  eexists. eexists. split; [reflexivity|]. split; [reflexivity|].
  intros h i j Hh Hi Hj.
  cbn [entry bidx bidx_aligned length Nat.sub skipn drop_nth firstn app nth
       ravel unravel numel fold_right].
  change (1 =? 1) with true. cbv iota.
  cbn [nth]. bsel_all.
  repeat f_equal. rewrite !Nat.mul_1_r, !Nat.add_0_r, Nat.div_1_r.
  reflexivity.
Qed.

End RetentionFacts.

(* ------------------------------------------------------------------ *)
(** ** The selective state-space mixer *)

Module MambaFacts.
Import Torch Scan Model TorchFacts ScanFacts WfFacts.
Local Open Scope torch_scope.

Lemma softplus_pos (x : R) : (0 < softplus x)%R.
Proof.
  unfold softplus. destruct (Rlt_dec 20 x) as [H|H]; [lra|].
  rewrite <- ln_1. apply ln_increasing; [lra|].
  pose proof (exp_pos x). lra.
Qed.



Lemma selective_scan_run self u delta B C Bn T E :
  shape (A_log self) = [1; d_state self] ->
  shape u = [Bn; T; E] -> shape delta = [Bn; T; E] ->
  shape B = [Bn; T; d_state self] -> shape C = [Bn; T; d_state self] ->
  1 <= T -> 1 <= d_state self ->
  exists sl,
    selective_scan_locals self u delta B C = Some sl
    /\ shape (s_y sl) = [Bn; T; E]
    /\ forall b t d n, b < Bn -> t < T -> d < E -> n < d_state self ->
         entry (s_deltaB_u sl) [b; t; d; n]
         = (entry delta [b; t; d] * entry B [b; t; n] * entry u [b; t; d])%R.
Proof.
  intros HA Hu Hd HB HC HT HN.
  unfold selective_scan_locals. rewrite Hu.
  expose u Hu. expose delta Hd. expose B HB. expose C HC.
  destruct (A_log self) as [sA fA] eqn:EA. cbn [shape] in HA. subst sA.
  set (N := d_state self) in *.
  next_keep. next. next_keep. next_keep. next_keep. next_keep.
  next. next.
  unfold contiguous.
  rewrite !(@view_flat_run _ _ T Bn E N) by (reflexivity || assumption).
  cbn [bind].
  edestruct (@associative_scan_run R Rmult Rplus) as (a' & ys & -> & _ & Hys);
    [reflexivity | reflexivity |].
  cbn [bind]. expose ys Hys.
  change [Z.of_nat T; Z.of_nat Bn; Z.of_nat E; Z.of_nat N]
    with (map Z.of_nat [T; Bn; E; N]).
  erewrite view_nat_run; [|reflexivity|cbn [numel fold_right shape]; ring].
  cbn [bind].
  next. next. next. next.
  eexists. split; [reflexivity|]. split; [reflexivity|].
  intros b t d n Hb Ht Hd Hn.
  cbn [s_deltaB_u entry bidx bidx_aligned length Nat.sub skipn app].
  change (1 =? 1) with true. cbv iota. bsel_all. reflexivity.
Qed.

Lemma conv_stage_run self x_in B T :
  MambaBlock_wf self -> shape x_in = [B; T; embed_dim self] ->
  1 <= d_conv self -> 1 <= T ->
  exists y, conv_stage self x_in T = Some y
            /\ shape y = [B; T; embed_dim self]
            /\ forall b t c,
                 entry y [b; t; c] = conv_stage_entry self x_in T b t c.
Proof.
  intros Hwf Hx HK HT.
  destruct Hwf as (_ & Hcv & Hin & Hout & Hgr & Hks & Hpad & _).
  unfold conv_stage, conv_stage_entry. expose x_in Hx.
  next_keep.
  unfold conv1d. cbn [shape]. rewrite Hin, Hout, Hgr, Hks, Hpad, Nat.eqb_refl.
  replace (d_conv self <=? T + 2 * (d_conv self - 1)) with true
    by (symmetry; apply Nat.leb_le; lia).
  replace (1 <=? d_conv self) with true by (symmetry; apply Nat.leb_le; lia).
  cbn [andb bind].
  next_keep.
  replace ((slice_count (T + 2 * (d_conv self - 1) - d_conv self + 1) None
              (Some (Z.of_nat T)) + 1 - 1) / 1) with T.
  2:{ rewrite Nat.add_sub, Nat.div_1_r.
      unfold slice_count, slice_hi, slice_lo, norm_index.
      destruct (Z.ltb_spec (Z.of_nat T) 0); lia. }
  last_keep.
  eexists. split; [reflexivity|]. split; [reflexivity|].
  intros b t c.
  cbn [entry swap length seq map nth Nat.eqb upd_nth firstn skipn app
       slice_lo Nat.mul Nat.add padded shape].
  rewrite Nat.add_0_r. reflexivity.
Qed.

(** Two inputs that agree up to position [t] give the same value there. *)
Lemma conv_stage_entry_causal self x x' T b t c :
  (forall j ch, j <= t -> entry x [b; j; ch] = entry x' [b; j; ch]) ->
  conv_stage_entry self x T b t c = conv_stage_entry self x' T b t c.
Proof.
  intros Hag. unfold conv_stage_entry. f_equal.
  apply rsum_ext. intros ci _. apply rsum_ext. intros k Hk. f_equal.
  destruct ((d_conv self - 1 <=? t + k) && (t + k <? d_conv self - 1 + T));
    [|reflexivity].
  apply Hag. lia.
Qed.

(** A forward pass of a well-formed [MambaBlock] on a sequence of at
    least one time step returns, and these are its locals. *)
Lemma MambaBlock_run self x B T :
  MambaBlock_wf self -> shape x = [B; T; embed_dim self] ->
  1 <= T -> 1 <= d_conv self -> 1 <= d_state self ->
  exists l,
    MambaBlock_locals self x = Some l
    /\ shape (m_out l) = [B; T; embed_dim self]
    /\ (forall b t c,
          entry (m_x_in l) [b; t; c]
          = linear_entry (in_proj self) (embed_dim self) x [b; t] c)
    /\ (forall b t c,
          entry (m_x_conv_pre l) [b; t; c]
          = conv_stage_entry self (m_x_in l) T b t c)
    /\ m_x_conv l = tmap silu (m_x_conv_pre l)
    /\ (exists dt, m_delta l = tmap softplus dt)
    /\ (forall b t n,
          entry (m_B_param l) [b; t; n]
          = linear_entry (x_proj self) (embed_dim self) (m_x_conv l) [b; t]
                         (n + dt_rank self))
    /\ (forall b t d n, b < B -> t < T -> d < embed_dim self ->
                        n < d_state self ->
          entry (s_deltaB_u (m_scan l)) [b; t; d; n]
          = (entry (m_delta l) [b; t; d] * entry (m_B_param l) [b; t; n]
             * entry (m_x_conv l) [b; t; d])%R)
    /\ (forall b t d, b < B -> t < T -> d < embed_dim self ->
          entry (m_y_skip l) [b; t; d]
          = (entry (m_y_scan l) [b; t; d]
             + entry (m_x_conv l) [b; t; d] * entry (D self) [d])%R).
Proof.
  intros Hwf Hx HT HK HN.
  pose proof Hwf as (Hin & _ & _ & _ & _ & _ & _ & Hxp & Hdt & HA & HD & Hop).
  unfold MambaBlock_locals. rewrite Hx.
  erewrite linear_run3; [|exact Hin|exact Hx]. cbn [bind].
  erewrite chunk2_run; [|reflexivity]. cbn [bind].
  match goal with
  | |- context [conv_stage self ?xi T] =>
      remember xi as x_in eqn:Hxin;
      destruct (@conv_stage_run self x_in B T Hwf) as (xc & -> & Hxc & Hxce);
      [subst x_in; reflexivity | assumption | assumption |]
  end.
  cbn [bind]. expose xc Hxc. cbn [entry] in Hxce.
  erewrite linear_run3; [|exact Hxp|reflexivity]. cbn [bind].
  erewrite split3_run; [|reflexivity]. cbn [bind].
  erewrite linear_run3; [|exact Hdt|reflexivity]. cbn [bind].
  match goal with
  | |- context [selective_scan_locals self ?u ?dl ?Bp ?Cp] =>
      destruct (@selective_scan_run self u dl Bp Cp B T (embed_dim self) HA)
        as (sl & -> & Hsy & Hdb);
      [reflexivity | reflexivity | reflexivity | reflexivity
       | assumption | assumption |]
  end.
  cbn [bind].
  destruct (s_y sl) as [sy fy] eqn:Esy. cbn [shape] in Hsy. subst sy.
  destruct (D self) as [sD fD] eqn:ED. cbn [shape] in HD. subst sD.
  next_keep. next_keep. next.
  erewrite linear_run3; [|exact Hop|reflexivity]. cbn [bind].
  eexists. split; [reflexivity|].
  cbn [m_out m_x_in m_x_conv_pre m_x_conv m_delta m_B_param m_scan m_y_skip
       m_y_scan shape].
  split; [reflexivity|]. split.
  { intros b t c. subst x_in. cbn [entry removelast last app].
    rewrite Nat.add_0_r. reflexivity. }
  split.
  { intros b t c. rewrite Hxce. reflexivity. }
  split; [reflexivity|]. split; [eexists; reflexivity|]. split.
  { intros b t n. cbn [entry removelast last app]. reflexivity. }
  split.
  { intros b t d n Hb Ht Hd Hn. rewrite Hdb by assumption. reflexivity. }
  intros b t d Hb Ht Hd.
  cbn [entry tmap bidx bidx_aligned length Nat.sub skipn].
  bsel_all. reflexivity.
Qed.

(** C3, as the claim states it, fails. With zero weights, unit biases
    and a zero convolution, [x_in] is 1 and [x_conv] is 0 everywhere: the
    driven term is 0, not [delta * B_param * x_in > 0], and the skip term
    adds 0, not [x_in * D = 1]. *)
Lemma mamba_driven_term_not_x_in :
  match MambaBlock_init cex_values 1 16 4 None with
  | Some self =>
      match MambaBlock_locals self (ones [1; 1; 1]) with
      | Some l =>
          entry (s_deltaB_u (m_scan l)) [0; 0; 0; 0]
          <> Rmult (Rmult (entry (m_delta l) [0; 0; 0])
                          (entry (m_B_param l) [0; 0; 0]))
                   (entry (m_x_in l) [0; 0; 0])
          /\ entry (m_y_skip l) [0; 0; 0]
             <> Rplus (entry (m_y_scan l) [0; 0; 0])
                      (Rmult (entry (m_x_in l) [0; 0; 0]) (entry (D self) [0]))
      | None => False
      end
  | None => False
  end.
Proof.
  destruct (MambaBlock_init cex_values 1 16 4 None) as [self|] eqn:Ei;
    [|discriminate Ei].
  destruct (MambaBlock_init_wf _ _ _ _ _ Ei) as (Hwf & HE & HN & HK).
  destruct (@MambaBlock_run self (ones [1; 1; 1]) 1 1 Hwf)
    as (l & -> & _ & Hxin & Hpre & Hxc & (dt & Hdl) & HB & Hdb & Hsk);
    [rewrite HE; reflexivity | lia | lia | lia |].
  rewrite HE in *. rewrite HN in *.
  unfold MambaBlock_init, Conv1d_init in Ei.
  cbn [Nat.eqb Nat.modulo Nat.divmod snd fst Nat.sub negb bind] in Ei.
  unfold arange_step, unsqueeze, rank in Ei.
  cbn [Nat.eqb bind float tmap shape length] in Ei. norm_dims_in Ei.
  cbn [bind] in Ei. apply some_inj in Ei.
  change ((1 + 15) / 16) with 1 in Ei. change (1 / 1) with 1 in Ei.
  assert (Hx_in : entry (m_x_in l) [0; 0; 0] = 1%R).
  { rewrite Hxin. subst self.
    unfold linear_entry, Linear_init, param, child, cex_values, ones.
    cbn [in_proj weight bias entry rsum app]. lra. }
  assert (Hx_conv : entry (m_x_conv l) [0; 0; 0] = 0%R).
  { rewrite Hxc. cbn [entry tmap]. rewrite Hpre. subst self.
    unfold conv_stage_entry, param, child, cex_values.
    cbn [conv in_channels out_channels groups d_conv conv_weight conv_bias
         entry].
    change (1 / 1) with 1. cbn [rsum].
    unfold silu. rewrite !Rmult_0_l. rewrite !Rplus_0_l. apply Rmult_0_l. }
  assert (HBp : entry (m_B_param l) [0; 0; 0] = 1%R).
  { rewrite HB. subst self.
    unfold linear_entry, Linear_init, param, child, cex_values.
    cbn [x_proj dt_rank weight bias entry rsum app Nat.add].
    rewrite Hx_conv. lra. }
  assert (Hdelta : Rlt 0 (entry (m_delta l) [0; 0; 0])).
  { rewrite Hdl. cbn [entry tmap]. apply softplus_pos. }
  assert (HD : entry (D self) [0] = 1%R).
  { subst self. reflexivity. }
  split.
  - rewrite Hdb by lia. rewrite Hx_in, Hx_conv, HBp. lra.
  - rewrite Hsk by lia. rewrite Hx_in, Hx_conv, HD. lra.
Qed.

(** C5. The convolution stage of [MambaBlock] is causal: two inputs
    that agree at all time positions up to [t] give the same value of
    [x_conv] at position [t], before and after SiLU. *)
Theorem conv_stage_is_causal self x x' B T t :
  MambaBlock_wf self -> 1 <= d_conv self -> 1 <= d_state self ->
  shape x = [B; T; embed_dim self] -> shape x' = [B; T; embed_dim self] ->
  t < T ->
  (forall b j c, j <= t -> entry x [b; j; c] = entry x' [b; j; c]) ->
  exists l l',
    MambaBlock_locals self x = Some l
    /\ MambaBlock_locals self x' = Some l'
    /\ forall b c,
         entry (m_x_conv_pre l) [b; t; c] = entry (m_x_conv_pre l') [b; t; c]
         /\ entry (m_x_conv l) [b; t; c] = entry (m_x_conv l') [b; t; c].
Proof.
  intros Hwf HK HN Hx Hx' Ht Hag.
  destruct (@MambaBlock_run self x B T Hwf Hx)
    as (l & Hl & _ & Hxin & Hpre & Hxc & _); try lia.
  destruct (@MambaBlock_run self x' B T Hwf Hx')
    as (l' & Hl' & _ & Hxin' & Hpre' & Hxc' & _); try lia.
  exists l, l'. split; [exact Hl|]. split; [exact Hl'|].
  intros b c.
  assert (Heq : entry (m_x_conv_pre l) [b; t; c]
                = entry (m_x_conv_pre l') [b; t; c]).
  { rewrite Hpre, Hpre'. apply conv_stage_entry_causal.
    intros j ch Hj. rewrite Hxin, Hxin'. unfold linear_entry. f_equal.
    apply rsum_ext. intros k _. cbn [app]. rewrite Hag by exact Hj.
    reflexivity. }
  split; [exact Heq|].
  rewrite Hxc, Hxc'. cbn [entry tmap]. rewrite Heq. reflexivity.
Qed.

Lemma conv_stage_is_causal_witness :
  match MambaBlock_init (fun _ _ => 0%R) 2 16 4 None with
  | Some self =>
      exists l l',
        MambaBlock_locals self (ones [1; 3; 2]) = Some l
        /\ MambaBlock_locals self
             (mkT [1; 3; 2] (fun idx => if nth 1 idx 0 <=? 1 then 1%R else 5%R))
           = Some l'
        /\ forall b c,
             entry (m_x_conv_pre l) [b; 1; c] = entry (m_x_conv_pre l') [b; 1; c]
             /\ entry (m_x_conv l) [b; 1; c] = entry (m_x_conv l') [b; 1; c]
  | None => False
  end.
Proof.
  destruct (MambaBlock_init (fun _ _ => 0%R) 2 16 4 None) as [self|] eqn:Ei;
    [|discriminate Ei].
  destruct (MambaBlock_init_wf _ _ _ _ _ Ei) as (Hwf & HE & HN & HK).
  apply (@conv_stage_is_causal self (ones [1; 3; 2])
           (mkT [1; 3; 2] (fun idx => if nth 1 idx 0 <=? 1 then 1%R else 5%R))
           1 3 1 Hwf).
  - lia.
  - lia.
  - rewrite HE. reflexivity.
  - rewrite HE. reflexivity.
  - lia.
  - intros b j c Hj. cbn [entry ones nth].
    destruct (Nat.leb_spec j 1); [reflexivity | lia].
Defined.

End MambaFacts.

(* ------------------------------------------------------------------ *)
(** ** Shapes and shape errors of the forward passes *)

Module ShapeFacts.
Import Torch Scan Model TorchFacts ScanFacts WfFacts RetentionFacts MambaFacts.
Local Open Scope torch_scope.

Lemma RMSNorm_run n x B T E :
  RMSNorm_wf E n -> shape x = [B; T; E] ->
  exists y, RMSNorm_forward n x = Some y /\ shape y = [B; T; E].
Proof.
  intros Hw Hx. unfold RMSNorm_wf in Hw.
  destruct n as [e w]. cbn [norm_weight] in Hw. expose w Hw. expose x Hx.
  unfold RMSNorm_forward, RMSNorm_norm. cbn [eps norm_weight].
  next. next. last_call.
  eexists. split; reflexivity.
Qed.

Lemma even_half (d : nat) : Nat.even d = true -> d = d / 2 + d / 2.
Proof.
  intros H. apply Nat.even_spec in H. destruct H as [k ->].
  rewrite Nat.mul_comm, Nat.div_mul by lia. lia.
Qed.

Lemma rotary_run r x B h T d :
  RotaryEmbedding_wf d r -> shape x = [B; h; T; d] -> Nat.even d = true ->
  exists y, RotaryEmbedding_forward r x = Some y /\ shape y = [B; h; T; d].
Proof.
  intros Hr Hx Hev. unfold RotaryEmbedding_wf in Hr.
  destruct r as [fr]. cbn [inv_freq] in Hr. expose fr Hr. expose x Hx.
  pose proof (even_half d Hev) as Hd.
  set (k := d / 2) in *.
  assert (Hk1 : (d + 1) / 2 = k).
  { symmetry. apply Nat.div_unique with (r := 1); lia. }
  assert (Hc1 : (slice_count d None None + 2 - 1) / 2 = k).
  { unfold slice_count, slice_hi, slice_lo. rewrite <- Hk1. f_equal. lia. }
  assert (Hc2 : (slice_count d (Some 1%Z) None + 2 - 1) / 2 = k).
  { unfold slice_count, slice_hi, slice_lo, norm_index.
    destruct (Z.ltb_spec 1 0); [lia|].
    destruct (Nat.eq_dec k 0) as [Hk0|Hk0].
    - rewrite Hd, Hk0. reflexivity.
    - symmetry. apply Nat.div_unique with (r := 0); lia. }
  unfold RotaryEmbedding_forward. cbn [shape rev app inv_freq].
  rewrite Hk1.
  next. next. next. next. next. next. next. next.
  rewrite Hc1, Hc2. rewrite <- Hd.
  next. next.
  replace (numel [k; 2]) with d by (cbn [numel fold_right]; lia).
  next. next. last_call.
  eexists. split; reflexivity.
Qed.

Lemma Retention_run r x B T E :
  Retention_wf E r -> shape x = [B; T; E] ->
  retention_runs E (heads r) B T ->
  exists l, Retention_locals r x = Some l /\ shape (r_out l) = [B; T; E].
Proof.
  intros Hwf Hx (Hmod & Hev & HB & HT).
  destruct Hwf as (Hh & Hhd & Hq & Hk & Hv & Hg & Hgam & Hrot).
  assert (HE : heads r * head_dim r = E).
  { rewrite Hhd. pose proof (Nat.div_mod_eq E (heads r)). lia. }
  rewrite <- Hhd in Hev.
  unfold Retention_locals. rewrite Hx.
  change [Z.of_nat B; Z.of_nat T; Z.of_nat (heads r); Z.of_nat (head_dim r)]
    with (map Z.of_nat [B; T; heads r; head_dim r]).
  assert (Hnum : numel [B; T; E] = numel [B; T; heads r; head_dim r]).
  { cbn [numel fold_right]. rewrite <- HE. ring. }
  erewrite linear_run3; [|exact Hq|exact Hx]. forget_head.
  erewrite view_nat_run; [|reflexivity|exact Hnum]. forget_head.
  next.
  erewrite linear_run3; [|exact Hk|exact Hx]. forget_head.
  erewrite view_nat_run; [|reflexivity|exact Hnum]. forget_head.
  next.
  erewrite linear_run3; [|exact Hv|exact Hx]. forget_head.
  erewrite view_nat_run; [|reflexivity|exact Hnum]. forget_head.
  next.
  match goal with
  | |- context [RotaryEmbedding_forward (rotary r) ?q] =>
      destruct (@rotary_run (rotary r) q B (heads r) T (head_dim r) Hrot
                  eq_refl Hev) as (Q & -> & HQ)
  end.
  cbn [bind]. expose Q HQ.
  match goal with
  | |- context [RotaryEmbedding_forward (rotary r) ?q] =>
      destruct (@rotary_run (rotary r) q B (heads r) T (head_dim r) Hrot
                  eq_refl Hev) as (K & -> & HK)
  end.
  cbn [bind]. expose K HK.
  destruct (@decay_run r T Hgam) as (diff & t_w & -> & Htw & _).
  cbn [bind]. expose t_w Htw.
  next. next. next. next. next. next.
  unfold reshape.
  erewrite view_last_run with (n := E);
    [|reflexivity|cbn [numel fold_right shape]; rewrite <- HE; ring|exact HB|exact HT].
  forget_head.
  erewrite linear_run3; [|exact Hg|exact Hx]. forget_head.
  next.
  eexists. split; reflexivity.
Qed.

Ltac skip_to_reshape :=
  repeat match goal with
         | |- bind (reshape _ _) _ = None => fail 1
         | |- bind _ _ = None => apply bind_none; intros ? _
         | |- match ?x with pair _ _ => _ end = None => destruct x
         end.

(** When [heads] does not divide [embed_dim], [Retention.forward]
    raises on every input: at the first [view] when the input has
    elements, at the final [reshape] when it has none. *)
Lemma Retention_fails r x B T E :
  Retention_wf E r -> shape x = [B; T; E] -> E mod heads r <> 0 ->
  Retention_forward r x = None.
Proof.
  intros Hwf Hx Hmod.
  destruct Hwf as (Hh & Hhd & Hq & Hk & Hv & Hg & Hgam & Hrot).
  assert (HE : heads r * head_dim r <> E).
  { rewrite Hhd. pose proof (Nat.div_mod_eq E (heads r)). lia. }
  unfold Retention_forward. apply bind_none. intros l Hl. exfalso.
  assert (Hnone : Retention_locals r x = None); [|congruence].
  clear l Hl.
  unfold Retention_locals. rewrite Hx.
  change [Z.of_nat B; Z.of_nat T; Z.of_nat (heads r); Z.of_nat (head_dim r)]
    with (map Z.of_nat [B; T; heads r; head_dim r]).
  erewrite linear_run3; [|exact Hq|exact Hx]. cbn [bind].
  unfold view at 1. rewrite infer_size_nat. cbn [shape].
  destruct (Nat.eqb_spec (numel [B; T; E])
                         (numel [B; T; heads r; head_dim r])) as [Hn|Hn];
    [|reflexivity].
  assert (HBT : numel [B; T] = 0).
  { cbn [numel fold_right] in *. 
    destruct (Nat.eq_dec (B * (T * 1)) 0) as [H0|H0]; [exact H0|].
    exfalso. apply HE. 
    apply Nat.mul_cancel_l with (p := B * (T * 1)); [exact H0|]. lia. }
  cbn [bind].
  skip_to_reshape.
  unfold reshape, view.
  change [Z.of_nat B; Z.of_nat T; (-1)%Z]
    with (map Z.of_nat [B; T] ++ (-1)%Z :: map Z.of_nat []).
  rewrite infer_size_infer. cbn [app]. rewrite HBT. reflexivity.
Qed.

Lemma DillNetBlock_init_wf v E hd um ffn b :
  DillNetBlock_init v E hd um ffn = Some b ->
  DillNetBlock_wf E b
  /\ match attention_layer b with
     | MixerMamba _ => um = true
     | MixerRetention r => um = false /\ heads r = hd
     end.
Proof.
  unfold DillNetBlock_init. intros H.
  apply bind_some in H. destruct H as (a & Ha & H).
  apply some_inj in H. subst b.
  unfold DillNetBlock_wf.
  cbn [norm1 norm2 attention_layer w1 w2 w3].
  assert (Hmix : mixer_wf E a
                 /\ match a with
                    | MixerMamba _ => um = true
                    | MixerRetention r => um = false /\ heads r = hd
                    end).
  { destruct um.
    - apply bind_some in Ha. destruct Ha as (m & Hm & Ha).
      apply some_inj in Ha. subst a.
      apply MambaBlock_init_wf in Hm. destruct Hm as (? & ? & ? & ?).
      split; [|reflexivity]. cbn [mixer_wf]. auto.
    - apply bind_some in Ha. destruct Ha as (r & Hr & Ha).
      apply some_inj in Ha. subst a.
      split; [eapply Retention_init_wf; exact Hr|].
      split; [reflexivity|eapply Retention_init_heads; exact Hr]. }
  destruct Hmix as [Hm Hk].
  split; [|exact Hk].
  split; [apply RMSNorm_init_wf|].
  split; [exact Hm|].
  split; [apply RMSNorm_init_wf|].
  eexists. repeat split.
Qed.

Lemma Mamba_forward_run m x B T :
  MambaBlock_wf m -> shape x = [B; T; embed_dim m] ->
  1 <= T -> 1 <= d_conv m -> 1 <= d_state m ->
  exists y, MambaBlock_forward m x = Some y /\ shape y = [B; T; embed_dim m].
Proof.
  intros Hwf Hx HT HK HN.
  destruct (@MambaBlock_run m x B T Hwf Hx HT HK HN) as (l & Hl & Hs & _).
  exists (m_out l). unfold MambaBlock_forward, MambaBlock_forward_logic.
  rewrite Hl. split; [reflexivity|exact Hs].
Qed.

Lemma mixer_run a x B T E :
  mixer_wf E a -> shape x = [B; T; E] -> mixer_runs a E B T ->
  exists y, mixer_forward a x = Some y /\ shape y = [B; T; E].
Proof.
  intros Hwf Hx Hr. destruct a as [m|r]; cbn [mixer_forward mixer_wf mixer_runs] in *.
  - destruct Hwf as (Hm & HE & Hc & Hs). subst E.
    apply Mamba_forward_run; try assumption; lia.
  - destruct (@Retention_run r x B T E Hwf Hx Hr) as (l & Hl & Hs).
    exists (r_out l). unfold Retention_forward. rewrite Hl.
    split; [reflexivity|exact Hs].
Qed.

Lemma DillNetBlock_run b x B T E :
  DillNetBlock_wf E b -> shape x = [B; T; E] ->
  mixer_runs (attention_layer b) E B T ->
  exists y, DillNetBlock_forward b x = Some y /\ shape y = [B; T; E].
Proof.
  intros (Hn1 & Hmix & Hn2 & F & H1 & H2 & H3) Hx Hr.
  unfold DillNetBlock_forward.
  destruct (@RMSNorm_run (norm1 b) x B T E Hn1 Hx) as (n1 & -> & Hs1). cbn [bind].
  destruct (@mixer_run (attention_layer b) n1 B T E Hmix Hs1 Hr) as (a & -> & Hsa). cbn [bind].
  expose a Hsa. expose x Hx.
  next.
  match goal with
  | |- context [RMSNorm_forward (norm2 b) ?t] =>
      destruct (@RMSNorm_run (norm2 b) t B T E Hn2 eq_refl) as (nx & -> & Hnx)
  end.
  cbn [bind].
  erewrite linear_run3; [|exact H1|exact Hnx]. forget_head.
  erewrite linear_run3; [|exact H2|exact Hnx]. forget_head.
  next.
  erewrite linear_run3; [|exact H3|reflexivity]. forget_head.
  unfold dropout.
  last_call.
  eexists. split; reflexivity.
Qed.

Lemma run_blocks_run bs : forall x B T E,
  Forall (fun b => DillNetBlock_wf E b /\ mixer_runs (attention_layer b) E B T) bs ->
  shape x = [B; T; E] ->
  exists y, run_blocks bs x = Some y /\ shape y = [B; T; E].
Proof.
  induction bs as [|b bs IH]; intros x B T E Hall Hx.
  - exists x. split; [reflexivity|exact Hx].
  - inversion Hall as [|? ? [Hwf Hr] Hrest]; subst.
    cbn [run_blocks].
    destruct (@DillNetBlock_run b x B T E Hwf Hx Hr) as (y & -> & Hy). cbn [bind].
    exact (IH y B T E Hrest Hy).
Qed.

Lemma DillNet_run v E depth hd ffn net x B T :
  DillNet_init v E depth hd ffn = Some net ->
  shape x = [B; T; E] ->
  depth = 0 \/ retention_runs E hd B T ->
  exists y, DillNet_forward net x = Some y /\ shape y = [B; T; E].
Proof.
  unfold DillNet_init. intros H Hx Hc.
  apply bind_some in H. destruct H as (bs & Hbs & H).
  apply some_inj in H. subst net.
  unfold DillNet_forward. cbn [blocks final_norm].
  assert (Hall : Forall (fun b => DillNetBlock_wf E b
                                  /\ mixer_runs (attention_layer b) E B T) bs).
  { destruct Hc as [->|Hc].
    - cbn in Hbs. apply some_inj in Hbs. subst bs. constructor.
    - eapply Forall_impl; [|eapply mapM_Forall; exact Hbs].
      intros b (i & _ & Hb). apply DillNetBlock_init_wf in Hb.
      destruct Hb as [Hwf Hk]. split; [exact Hwf|].
      destruct (attention_layer b) as [m|r]; cbn [mixer_runs].
      + destruct Hc as (_ & _ & _ & HT). exact HT.
      + destruct Hk as [_ ->]. exact Hc. }
  destruct (@run_blocks_run bs x B T E Hall Hx) as (y & -> & Hy). cbn [bind].
  apply RMSNorm_run; [apply RMSNorm_init_wf|exact Hy].
Qed.

Lemma DillNetBlock_fails b r x B T E :
  DillNetBlock_wf E b -> attention_layer b = MixerRetention r ->
  shape x = [B; T; E] -> E mod heads r <> 0 ->
  DillNetBlock_forward b x = None.
Proof.
  intros (Hn1 & Hmix & _) Ha Hx Hmod.
  unfold DillNetBlock_forward.
  destruct (@RMSNorm_run (norm1 b) x B T E Hn1 Hx) as (n1 & -> & Hs1).
  cbn [bind]. rewrite Ha in *. cbn [mixer_forward mixer_wf] in *.
  rewrite (@Retention_fails r n1 B T E Hmix Hs1 Hmod). reflexivity.
Qed.

Lemma DillNet_fails v E depth hd ffn net x B T :
  DillNet_init v E depth hd ffn = Some net ->
  1 <= depth -> shape x = [B; T; E] -> E mod hd <> 0 ->
  DillNet_forward net x = None.
Proof.
  unfold DillNet_init. intros H Hd Hx Hmod.
  apply bind_some in H. destruct H as (bs & Hbs & H).
  apply some_inj in H. subst net.
  unfold DillNet_forward. cbn [blocks final_norm].
  destruct depth as [|d]; [lia|].
  cbn [seq mapM] in Hbs.
  apply bind_some in Hbs. destruct Hbs as (b & Hb & Hbs).
  apply bind_some in Hbs. destruct Hbs as (bs' & _ & Hbs).
  apply some_inj in Hbs. subst bs.
  change (negb (0 mod 2 =? 0)) with false in Hb.
  apply DillNetBlock_init_wf in Hb. destruct Hb as [Hwf Hk].
  cbn [run_blocks].
  destruct (attention_layer b) as [m|r] eqn:Ea.
  - discriminate Hk.
  - destruct Hk as [_ Hh]. rewrite <- Hh in Hmod.
    rewrite (@DillNetBlock_fails b r x B T E Hwf Ea Hx Hmod). reflexivity.
Qed.

(** C8. When [heads] does not divide [embed_dim], a [Retention] layer
    that was constructed raises on every input of shape
    (batch, time, embed_dim), and so does every network that has a
    [Retention] layer, that is every network of depth at least one:
    construction or the first forward call fails, and no result is
    returned. *)
Theorem indivisible_embed_dim_fails v E depth hd ffn x B T :
  shape x = [B; T; E] -> E mod hd <> 0 ->
  match Retention_init v E hd with
  | Some r => Retention_forward r x = None
  | None => True
  end
  /\ (1 <= depth ->
      match DillNet_init v E depth hd ffn with
      | Some net => DillNet_forward net x = None
      | None => True
      end).
Proof.
  intros Hx Hmod. split.
  - destruct (Retention_init v E hd) as [r|] eqn:Er; [|exact I].
    pose proof (Retention_init_wf _ _ _ Er) as Hwf.
    pose proof (Retention_init_heads _ _ _ Er) as Hh.
    rewrite <- Hh in Hmod.
    exact (@Retention_fails r x B T E Hwf Hx Hmod).
  - intros Hd.
    destruct (DillNet_init v E depth hd ffn) as [net|] eqn:En; [|exact I].
    exact (@DillNet_fails v E depth hd ffn net x B T En Hd Hx Hmod).
Qed.

Lemma indivisible_embed_dim_fails_witness :
  match DillNet_init (fun _ _ => 0%R) 3 1 2 None with
  | Some net => DillNet_forward net (ones [1; 1; 3]) = None
  | None => False
  end.
Proof.
  assert (Hmod : 3 mod 2 <> 0) by (simpl; lia).
  pose proof (proj2 (@indivisible_embed_dim_fails (fun _ _ => 0%R) 3 1 2 None
                       (ones [1; 1; 3]) 1 1 eq_refl Hmod) (le_n 1)) as H.
  destruct (DillNet_init (fun _ _ => 0%R) 3 1 2 None) as [net|] eqn:En;
    [exact H | discriminate En].
Defined.

(** C9, amended. On an input of shape (batch, time, embed_dim), with
    [retention_runs]: [heads] divides [embed_dim], [embed_dim / heads] is
    even, and batch and time are at least one,
    - [DillNet.forward] returns a tensor of the same shape (with no
      condition when the network has no blocks);
    - [DillNetBlock.forward] does, for a Retention block under the same
      condition and for a MambaBlock block when time is at least one;
    - [Retention.forward] does;
    - [MambaBlock.forward] does when time is at least one. *)
Theorem forward_preserves_shape v E hd ffn x B T :
  shape x = [B; T; E] ->
  (forall depth net,
      DillNet_init v E depth hd ffn = Some net ->
      depth = 0 \/ retention_runs E hd B T ->
      exists y, DillNet_forward net x = Some y /\ shape y = [B; T; E])
  /\ (forall um b,
         DillNetBlock_init v E hd um ffn = Some b ->
         (if um then 1 <= T else retention_runs E hd B T) ->
         exists y, DillNetBlock_forward b x = Some y /\ shape y = [B; T; E])
  /\ (forall r,
         Retention_init v E hd = Some r ->
         retention_runs E hd B T ->
         exists y, Retention_forward r x = Some y /\ shape y = [B; T; E])
  /\ (forall ds dc dr m,
         MambaBlock_init v E ds dc dr = Some m ->
         1 <= T -> 1 <= ds -> 1 <= dc ->
         exists y, MambaBlock_forward m x = Some y /\ shape y = [B; T; E]).
Proof.
  intros Hx. split; [|split; [|split]].
  - intros depth net Hn Hc.
    exact (@DillNet_run v E depth hd ffn net x B T Hn Hx Hc).
  - intros um b Hb Hc.
    apply DillNetBlock_init_wf in Hb. destruct Hb as [Hwf Hk].
    apply (@DillNetBlock_run b x B T E Hwf Hx).
    destruct (attention_layer b) as [m|r]; cbn [mixer_runs].
    + subst um. exact Hc.
    + destruct Hk as [-> ->]. exact Hc.
  - intros r Hr Hc.
    pose proof (Retention_init_wf _ _ _ Hr) as Hwf.
    pose proof (Retention_init_heads _ _ _ Hr) as Hh.
    rewrite <- Hh in Hc.
    destruct (@Retention_run r x B T E Hwf Hx Hc) as (l & Hl & Hs).
    exists (r_out l). unfold Retention_forward. rewrite Hl.
    split; [reflexivity|exact Hs].
  - intros ds dc dr m Hm HT Hds Hdc.
    apply MambaBlock_init_wf in Hm. destruct Hm as (Hwf & HE & Hs & Hc).
    subst E.
    apply Mamba_forward_run; try assumption; lia.
Qed.

Lemma forward_preserves_shape_witness :
  match DillNet_init (fun _ _ => 0%R) 32 4 4 None with
  | Some net =>
      exists y, DillNet_forward net (ones [2; 10; 32]) = Some y
                /\ shape y = [2; 10; 32]
  | None => False
  end.
Proof.
  assert (Hrun : ran (DillNet_init (fun _ _ => 0%R) 32 4 4 None) = true)
    by (vm_compute; reflexivity).
  assert (Hc : retention_runs 32 4 2 10).
  { unfold retention_runs. repeat split; try reflexivity; lia. }
  destruct (DillNet_init (fun _ _ => 0%R) 32 4 4 None) as [net|] eqn:En;
    [|discriminate Hrun].
  exact (proj1 (@forward_preserves_shape (fun _ _ => 0%R) 32 4 None
                  (ones [2; 10; 32]) 2 10 eq_refl)
               4 net En (or_intror Hc)).
Defined.

(** C9, as the claim states it, fails. [DillNet(embed_dim=8, depth=1,
    heads=8)] is constructed (8 divides 8), and its forward call on an
    input of shape (1, 1, 8) raises: the head dimension is 1, so in the
    rotary embedding [x[..., ::2]] has one element and [x[..., 1::2]]
    none, and [torch.stack] refuses them.  The same holds for the
    [Retention] layer alone, and [MambaBlock] raises on an input with no
    time step. *)
Lemma forward_raises_on_odd_head_dim :
  match DillNet_init (fun _ _ => 0%R) 8 1 8 None with
  | Some net => DillNet_forward net (ones [1; 1; 8]) = None
  | None => False
  end
  /\ match Retention_init (fun _ _ => 0%R) 8 8 with
     | Some r => Retention_forward r (ones [1; 1; 8]) = None
     | None => False
     end
  /\ match MambaBlock_init (fun _ _ => 0%R) 8 16 4 None with
     | Some m => MambaBlock_forward m (ones [2; 0; 8]) = None
     | None => False
     end.
Proof.
  split; [|split].
  - assert (H : match DillNet_init (fun _ _ => 0%R) 8 1 8 None with
                | Some net => ran (DillNet_forward net (ones [1; 1; 8]))
                | None => true
                end = false) by (vm_compute; reflexivity).
    destruct (DillNet_init (fun _ _ => 0%R) 8 1 8 None) as [net|];
      [exact (ran_false _ H) | discriminate H].
  - assert (H : match Retention_init (fun _ _ => 0%R) 8 8 with
                | Some r => ran (Retention_forward r (ones [1; 1; 8]))
                | None => true
                end = false) by (vm_compute; reflexivity).
    destruct (Retention_init (fun _ _ => 0%R) 8 8) as [r|];
      [exact (ran_false _ H) | discriminate H].
  - assert (H : match MambaBlock_init (fun _ _ => 0%R) 8 16 4 None with
                | Some m => ran (MambaBlock_forward m (ones [2; 0; 8]))
                | None => true
                end = false) by (vm_compute; reflexivity).
    destruct (MambaBlock_init (fun _ _ => 0%R) 8 16 4 None) as [m|];
      [exact (ran_false _ H) | discriminate H].
Qed.

End ShapeFacts.

(* ------------------------------------------------------------------ *)
(** ** The two loops of the scan *)

Module ScanLaws.
Import Torch Scan TorchFacts ScanFacts.
Local Open Scope torch_scope.

Lemma bidx_aligned_in_shape s : forall idx,
  in_shape s idx -> bidx_aligned s idx = idx.
Proof.
  induction s as [|n s IH]; intros [|i idx] H; cbn in H; try contradiction.
  - reflexivity.
  - destruct H as [Hi H]. cbn [bidx_aligned]. rewrite (IH _ H).
    destruct (Nat.eqb_spec n 1); [|reflexivity].
    f_equal. lia.
Qed.

Lemma in_shape_length s : forall idx, in_shape s idx -> length idx = length s.
Proof.
  induction s as [|n s IH]; intros [|i idx] H; cbn in H; try contradiction.
  - reflexivity.
  - cbn [length]. f_equal. apply IH. tauto.
Qed.

Lemma bidx_in_shape s idx : in_shape s idx -> bidx s idx = idx.
Proof.
  intros H. unfold bidx. rewrite (in_shape_length _ _ H), Nat.sub_diag.
  cbn [skipn]. apply bidx_aligned_in_shape. exact H.
Qed.

Section Rounds.
Variable A : Type.
Variables (mul add : A -> A -> A).

Lemma up_round_entries (S : nat) (a b : tensor A) n rest :
  shape a = n :: rest -> shape b = n :: rest -> 1 <= S -> S < n ->
  exists a' b',
    up_round mul add (Z.of_nat S) (a, b) = Some (a', b')
    /\ shape a' = n :: rest /\ shape b' = n :: rest
    /\ forall k r, k < n -> in_shape rest r ->
         elem_at (a', b') k r
         = if k <? S then elem_at (a, b) k r
           else combine mul add (elem_at (a, b) (k - S) r) (elem_at (a, b) k r).
Proof.
  intros Ha Hb HS Hn. unfold up_round. cbn [fst snd].
  rewrite !(@slice0_run _ _ _ _ _ _ Ha), !(@slice0_run _ _ _ _ _ _ Hb).
  cbn [bind].
  assert (H1 : slice_count n None (Some (- Z.of_nat S)%Z) = n - S).
  { unfold slice_count, slice_hi, slice_lo, norm_index.
    destruct (Z.ltb_spec (- Z.of_nat S) 0); lia. }
  assert (H2 : slice_count n (Some (Z.of_nat S)) None = n - S).
  { unfold slice_count, slice_hi, slice_lo, norm_index.
    destruct (Z.ltb_spec (Z.of_nat S) 0); lia. }
  assert (H3 : slice_count n None (Some (Z.of_nat S)) = S).
  { unfold slice_count, slice_hi, slice_lo, norm_index.
    destruct (Z.ltb_spec (Z.of_nat S) 0); lia. }
  assert (H4 : slice_lo n (Some (Z.of_nat S)) = S).
  { unfold slice_lo, norm_index.
    destruct (Z.ltb_spec (Z.of_nat S) 0); lia. }
  rewrite H1, H2, H3, H4.
  unfold binary_operator, addcmul.
  erewrite bzip_same; [|reflexivity|reflexivity]. cbn [bind].
  erewrite bzip_same; [|reflexivity|reflexivity]. cbn [bind].
  erewrite bzip_same; [|reflexivity|reflexivity]. cbn [bind].
  erewrite cat0_run; [|reflexivity|reflexivity]. cbn [bind].
  erewrite cat0_run; [|reflexivity|reflexivity]. cbn [bind].
  eexists. eexists. split; [reflexivity|].
  cbn [shape]. replace (S + (n - S)) with n by lia.
  split; [reflexivity|]. split; [reflexivity|].
  intros k r Hk Hr. unfold elem_at, combine.
  cbn [fst snd entry nth upd_nth firstn skipn app slice_lo].
  destruct (Nat.ltb_spec k S) as [HkS|HkS].
  - rewrite !Nat.mul_1_l, !Nat.add_0_l. reflexivity.
  - rewrite !bidx_in_shape by (cbn [in_shape]; split; [lia|exact Hr]).
    cbn [nth upd_nth firstn skipn app].
    rewrite !Nat.mul_1_l, !Nat.add_0_l.
    replace (S + (k - S)) with k by lia. reflexivity.
Qed.

Lemma down_round_entries (S : nat) (a b : tensor A) n rest :
  shape a = n :: rest -> shape b = n :: rest -> 1 <= S ->
  exists a' b',
    down_round mul add (Z.of_nat S) (a, b) = Some (a', b')
    /\ shape a' = n :: rest /\ shape b' = n :: rest
    /\ forall k r, k < n -> in_shape rest r ->
         elem_at (a', b') k r
         = if k <? 2 * S - 1 then elem_at (a, b) k r
           else combine mul add (elem_at (a, b) (k - S) r) (elem_at (a, b) k r).
Proof.
  intros Ha Hb HS. unfold down_round. cbn [fst snd].
  rewrite !(@slice0_run _ _ _ _ _ _ Ha), !(@slice0_run _ _ _ _ _ _ Hb).
  cbn [bind].
  assert (H1 : slice_count n (Some (Z.of_nat S - 1)%Z) (Some (- Z.of_nat S)%Z)
               = n - S - (S - 1)).
  { unfold slice_count, slice_hi, slice_lo, norm_index.
    destruct (Z.ltb_spec (- Z.of_nat S) 0); [|lia].
    destruct (Z.ltb_spec (Z.of_nat S - 1) 0); lia. }
  assert (H2 : slice_count n (Some (2 * Z.of_nat S - 1)%Z) None
               = n - S - (S - 1)).
  { unfold slice_count, slice_hi, slice_lo, norm_index.
    destruct (Z.ltb_spec (2 * Z.of_nat S - 1) 0); lia. }
  assert (H3 : slice_count n None (Some (2 * Z.of_nat S - 1)%Z)
               = Nat.min (2 * S - 1) n).
  { unfold slice_count, slice_hi, slice_lo, norm_index.
    destruct (Z.ltb_spec (2 * Z.of_nat S - 1) 0); lia. }
  assert (H4 : slice_lo n (Some (2 * Z.of_nat S - 1)%Z) = Nat.min (2 * S - 1) n).
  { unfold slice_lo, norm_index.
    destruct (Z.ltb_spec (2 * Z.of_nat S - 1) 0); lia. }
  assert (H5 : slice_lo n (Some (Z.of_nat S - 1)%Z) = Nat.min (S - 1) n).
  { unfold slice_lo, norm_index.
    destruct (Z.ltb_spec (Z.of_nat S - 1) 0); lia. }
  rewrite H1, H2, H3, H4, H5.
  unfold binary_operator, addcmul.
  erewrite bzip_same; [|reflexivity|reflexivity]. cbn [bind].
  erewrite bzip_same; [|reflexivity|reflexivity]. cbn [bind].
  erewrite bzip_same; [|reflexivity|reflexivity]. cbn [bind].
  erewrite cat0_run; [|reflexivity|reflexivity]. cbn [bind].
  erewrite cat0_run; [|reflexivity|reflexivity]. cbn [bind].
  eexists. eexists. split; [reflexivity|].
  cbn [shape]. replace (Nat.min (2 * S - 1) n + (n - S - (S - 1))) with n by lia.
  split; [reflexivity|]. split; [reflexivity|].
  intros k r Hk Hr. unfold elem_at, combine.
  cbn [fst snd entry nth upd_nth firstn skipn app slice_lo].
  destruct (Nat.ltb_spec k (2 * S - 1)) as [HkS|HkS].
  - replace (k <? Nat.min (2 * S - 1) n) with true
      by (symmetry; apply Nat.ltb_lt; lia).
    rewrite !Nat.mul_1_l, !Nat.add_0_l. reflexivity.
  - replace (k <? Nat.min (2 * S - 1) n) with false
      by (symmetry; apply Nat.ltb_ge; lia).
    rewrite !bidx_in_shape by (cbn [in_shape]; split; [lia|exact Hr]).
    cbn [nth upd_nth firstn skipn app].
    rewrite !Nat.mul_1_l.
    replace (Nat.min (2 * S - 1) n + (k - Nat.min (2 * S - 1) n)) with k by lia.
    replace (Nat.min (S - 1) n + (k - Nat.min (2 * S - 1) n)) with (k - S) by lia.
    reflexivity.
Qed.

End Rounds.

Section Low.
Variable A : Type.
Variables (mul add : A -> A -> A).

(** The fold of the operator over a sequence is its spans from 0. *)
Lemma fold_from_span (e : nat -> A * A) (m j : nat) :
  fold_from mul add (span mul add e 0 j) (map e (seq (S j) m))
  = map (span mul add e 0) (seq (S j) m).
Proof.
  revert j. induction m as [|m IH]; intros j; [reflexivity|].
  cbn [seq map fold_from]. f_equal. apply (IH (S j)).
Qed.

Lemma sequential_fold_span (e : nat -> A * A) (n : nat) :
  sequential_fold mul add (map e (seq 0 n)) = map (span mul add e 0) (seq 0 n).
Proof.
  destruct n as [|n]; [reflexivity|].
  cbn [seq map sequential_fold]. f_equal. apply (fold_from_span e n 0).
Qed.

(** Positions below the stride are final in the first loop. *)
Lemma up_loop_low (fuel : nat) : forall (S : nat) (a b : tensor A) n rest,
  shape a = n :: rest -> shape b = n :: rest ->
  1 <= S -> n - S <= fuel ->
  exists S' a' b',
    up_loop mul add fuel (Z.of_nat n) (Z.of_nat S) (a, b)
    = Some (Z.of_nat S', (a', b'))
    /\ shape a' = n :: rest /\ shape b' = n :: rest
    /\ S <= S' /\ n <= S' /\ (S' < 2 * n \/ S' = S)
    /\ forall k r, k < S -> k < n -> in_shape rest r ->
         elem_at (a', b') k r = elem_at (a, b) k r.
Proof.
  induction fuel as [|fuel IH]; intros S a b n rest Ha Hb HS Hf.
  - cbn [up_loop]. destruct (Z.ltb_spec (Z.of_nat S) (Z.of_nat n)); [lia|].
    exists S, a, b. repeat split; try assumption; try lia.
  - cbn [up_loop]. destruct (Z.ltb_spec (Z.of_nat S) (Z.of_nat n)) as [Hlt|Hge].
    + destruct (@up_round_entries A mul add S a b n rest Ha Hb HS)
        as (a1 & b1 & -> & Ha1 & Hb1 & He1); [lia|].
      cbn [bind].
      replace (Z.of_nat S * 2)%Z with (Z.of_nat (2 * S)) by lia.
      destruct (IH (2 * S) a1 b1 n rest Ha1 Hb1)
        as (S' & a' & b' & -> & Ha' & Hb' & HS1 & HS2 & HS3 & He'); try lia.
      exists S', a', b'. repeat split; try assumption; try lia.
      intros k r Hk Hkn Hr. rewrite He' by (assumption || lia).
      rewrite He1 by assumption.
      destruct (Nat.ltb_spec k S); [reflexivity|lia].
    + exists S, a, b. repeat split; try assumption; try lia.
Qed.

Lemma of_nat_half (S : nat) : (Z.of_nat S / 2)%Z = Z.of_nat (S / 2).
Proof. rewrite Nat2Z.inj_div. reflexivity. Qed.

(** The second loop keeps position 0, and combines position 1 with
    position 0 in its last round, of stride 1. *)
Lemma down_loop_low (fuel : nat) : forall (S : nat) (a b : tensor A) n rest,
  shape a = n :: rest -> shape b = n :: rest -> S <= fuel ->
  exists a' b',
    down_loop mul add fuel (Z.of_nat S) (a, b) = Some (a', b')
    /\ shape a' = n :: rest /\ shape b' = n :: rest
    /\ forall r, in_shape rest r ->
         (1 <= n -> elem_at (a', b') 0 r = elem_at (a, b) 0 r)
         /\ (2 <= n ->
             elem_at (a', b') 1 r
             = if 1 <=? S
               then combine mul add (elem_at (a, b) 0 r) (elem_at (a, b) 1 r)
               else elem_at (a, b) 1 r).
Proof.
  induction fuel as [|fuel IH]; intros S a b n rest Ha Hb Hf.
  - cbn [down_loop]. destruct (Z.gtb_spec (Z.of_nat S) 0); [lia|].
    exists a, b. repeat split; try assumption.
    destruct (Nat.leb_spec 1 S); [lia|reflexivity].
  - cbn [down_loop]. destruct (Z.gtb_spec (Z.of_nat S) 0) as [Hgt|Hle].
    + destruct (@down_round_entries A mul add S a b n rest Ha Hb)
        as (a1 & b1 & -> & Ha1 & Hb1 & He1); [lia|].
      cbn [bind]. rewrite of_nat_half.
      assert (Hhalf : S / 2 < S) by (apply Nat.div_lt; lia).
      destruct (IH (S / 2) a1 b1 n rest Ha1 Hb1)
        as (a' & b' & -> & Ha' & Hb' & He'); [lia|].
      exists a', b'. split; [reflexivity|]. split; [assumption|].
      split; [assumption|]. intros r Hr. split.
      * intros Hn. destruct (He' r Hr) as [He0 _].
        rewrite He0, He1 by (assumption || lia).
        destruct (Nat.ltb_spec 0 (2 * S - 1)); [reflexivity|lia].
      * intros Hn. destruct (He' r Hr) as [He0 He2].
        rewrite He2 by assumption.
        destruct (Nat.leb_spec 1 S) as [_|]; [|lia].
        destruct (Nat.eq_dec S 1) as [->|HS1].
        -- change (1 / 2) with 0. cbn [Nat.leb].
           rewrite He1 by (assumption || lia). reflexivity.
        -- assert (1 <= S / 2).
           { apply Nat.div_le_lower_bound; lia. }
           destruct (Nat.leb_spec 1 (S / 2)); [|lia].
           rewrite !He1 by (assumption || lia).
           destruct (Nat.ltb_spec 0 (2 * S - 1)); [|lia].
           destruct (Nat.ltb_spec 1 (2 * S - 1)); [|lia].
           reflexivity.
    + exists a, b. repeat split; try assumption.
      destruct (Nat.leb_spec 1 S); [lia|reflexivity].
Qed.

(** On every input of length at least 2, whatever the product and the
    sum, the scan returns position 0 unchanged and at position 1 the
    combination of position 0 with the combination of positions 0 and 1. *)
Lemma associative_scan_low (a b : tensor A) n rest :
  shape a = n :: rest -> shape b = n :: rest -> 2 <= n ->
  exists a' b',
    associative_scan mul add (a, b) = Some (a', b')
    /\ shape a' = n :: rest /\ shape b' = n :: rest
    /\ forall r, in_shape rest r ->
         elem_at (a', b') 0 r = elem_at (a, b) 0 r
         /\ elem_at (a', b') 1 r
            = combine mul add (elem_at (a, b) 0 r)
                (combine mul add (elem_at (a, b) 0 r) (elem_at (a, b) 1 r)).
Proof.
  intros Ha Hb Hn. unfold associative_scan, shape0, clone. cbn [fst snd].
  rewrite Ha. cbn [bind].
  destruct (Nat.leb_spec n 1); [lia|].
  (* the first round, of stride 1 *)
  destruct n as [|n']; [lia|].
  cbn [up_loop]. destruct (Z.ltb_spec 1 (Z.of_nat (S n'))); [|lia].
  destruct (@up_round_entries A mul add 1 a b (S n') rest Ha Hb)
    as (a1 & b1 & E1 & Ha1 & Hb1 & He1); try lia.
  change (Z.of_nat 1) with 1%Z in E1. rewrite E1. cbn [bind].
  change (1 * 2)%Z with (Z.of_nat 2).
  destruct (@up_loop_low n' 2 a1 b1 (S n') rest Ha1 Hb1)
    as (S' & a2 & b2 & -> & Ha2 & Hb2 & HS1 & HS2 & HS3 & He2); try lia.
  cbn [bind]. rewrite of_nat_half.
  destruct (@down_loop_low (S n') (S' / 2) a2 b2 (S n') rest Ha2 Hb2)
    as (a3 & b3 & -> & Ha3 & Hb3 & He3).
  { assert (S' / 2 < S n'); [|lia].
    apply Nat.Div0.div_lt_upper_bound. lia. }
  exists a3, b3. split; [reflexivity|]. split; [assumption|].
  split; [assumption|]. intros r Hr. split.
  - destruct (He3 r Hr) as [He30 _]. rewrite He30 by lia.
    rewrite He2 by (assumption || lia). rewrite He1 by (assumption || lia).
    reflexivity.
  - destruct (He3 r Hr) as [_ He31]. rewrite He31 by lia.
    assert (1 <= S' / 2) by (apply Nat.div_le_lower_bound; lia).
    destruct (Nat.leb_spec 1 (S' / 2)); [|lia].
    rewrite !He2 by (assumption || lia). rewrite !He1 by (assumption || lia).
    reflexivity.
Qed.

End Low.

Lemma combine_assoc (p q r : R * R) :
  combine Rmult Rplus (combine Rmult Rplus p q) r
  = combine Rmult Rplus p (combine Rmult Rplus q r).
Proof.
  destruct p as [a1 b1], q as [a2 b2], r as [a3 b3]. unfold combine.
  cbn [fst snd]. f_equal; ring.
Qed.

Lemma span_app (e : nat -> R * R) (lo m1 m2 : nat) :
  combine Rmult Rplus (span Rmult Rplus e lo m1)
          (span Rmult Rplus e (lo + m1 + 1) m2)
  = span Rmult Rplus e lo (m1 + m2 + 1).
Proof.
  induction m2 as [|m2 IH].
  - cbn [span]. replace (m1 + 0 + 1) with (S m1) by lia. cbn [span].
    replace (lo + S m1) with (lo + m1 + 1) by lia. reflexivity.
  - cbn [span]. rewrite <- combine_assoc, IH.
    replace (m1 + S m2 + 1) with (S (m1 + m2 + 1)) by lia. cbn [span].
    replace (lo + m1 + 1 + S m2) with (lo + S (m1 + m2 + 1)) by lia.
    reflexivity.
Qed.

(** A window of twice the width is the two windows of that width
    behind each other. *)
Lemma window_double (e : nat -> R * R) (k S : nat) :
  1 <= S -> S <= k ->
  combine Rmult Rplus (window Rmult Rplus e (k - S) S)
          (window Rmult Rplus e k S)
  = window Rmult Rplus e k (2 * S).
Proof.
  intros HS Hk. unfold window.
  replace (Nat.min S (k + 1)) with S by lia.
  set (m := Nat.min S (k - S + 1)).
  assert (Hm : 1 <= m) by (unfold m; lia).
  replace (k + 1 - S) with ((k - S + 1 - m) + (m - 1) + 1) by lia.
  rewrite span_app.
  replace (k - S + 1 - m + (m - 1) + 1 - (k - S + 1 - m + (m - 1) + 1)) with 0 by lia.
  f_equal; unfold m; lia.
Qed.

Lemma window_clipped (e : nat -> R * R) (k S S' : nat) :
  k < S -> k < S' ->
  window Rmult Rplus e k S = window Rmult Rplus e k S'.
Proof. intros H1 H2. unfold window. f_equal; lia. Qed.

(** After the rounds of strides 1, 2, ..., below [S], position [k] holds
    the window of width [S] that ends there. *)
Lemma up_loop_windows (e : list nat -> nat -> R * R) (fuel : nat) :
  forall (S : nat) (a b : tensor R) n rest,
  shape a = n :: rest -> shape b = n :: rest ->
  1 <= S -> n - S <= fuel ->
  (forall k r, k < n -> in_shape rest r ->
     elem_at (a, b) k r = window Rmult Rplus (e r) k S) ->
  exists S' a' b',
    up_loop Rmult Rplus fuel (Z.of_nat n) (Z.of_nat S) (a, b)
    = Some (Z.of_nat S', (a', b'))
    /\ shape a' = n :: rest /\ shape b' = n :: rest
    /\ forall k r, k < n -> in_shape rest r ->
         elem_at (a', b') k r = span Rmult Rplus (e r) 0 k.
Proof.
  induction fuel as [|fuel IH]; intros S a b n rest Ha Hb HS Hf Hinv.
  - cbn [up_loop]. destruct (Z.ltb_spec (Z.of_nat S) (Z.of_nat n)); [lia|].
    exists S, a, b. split; [reflexivity|]. split; [assumption|].
    split; [assumption|]. intros k r Hk Hr. rewrite Hinv by assumption.
    unfold window. f_equal; lia.
  - cbn [up_loop]. destruct (Z.ltb_spec (Z.of_nat S) (Z.of_nat n)) as [Hlt|Hge].
    + destruct (@up_round_entries R Rmult Rplus S a b n rest Ha Hb HS)
        as (a1 & b1 & -> & Ha1 & Hb1 & He1); [lia|].
      cbn [bind].
      replace (Z.of_nat S * 2)%Z with (Z.of_nat (2 * S)) by lia.
      apply IH; try assumption; try lia.
      intros k r Hk Hr. rewrite He1 by assumption.
      destruct (Nat.ltb_spec k S) as [HkS|HkS].
      * rewrite Hinv by assumption. apply window_clipped; lia.
      * rewrite !Hinv by (assumption || lia). apply window_double; lia.
    + exists S, a, b. split; [reflexivity|]. split; [assumption|].
      split; [assumption|]. intros k r Hk Hr. rewrite Hinv by assumption.
      unfold window. f_equal; lia.
Qed.

(** The recurrence from 0 gives the driven terms of the spans. *)
Lemma recurrence_from_span (e : nat -> R * R) (m j : nat) :
  recurrence_from Rmult Rplus (snd (span Rmult Rplus e 0 j))
                  (map (fun k => fst (e k)) (seq (S j) m))
                  (map (fun k => snd (e k)) (seq (S j) m))
  = map (fun k => snd (span Rmult Rplus e 0 k)) (seq (S j) m).
Proof.
  revert j. induction m as [|m IH]; intros j; [reflexivity|].
  cbn [seq map recurrence_from].
  assert (Hh : Rplus (Rmult (fst (e (S j))) (snd (span Rmult Rplus e 0 j)))
                     (snd (e (S j)))
               = snd (span Rmult Rplus e 0 (S j))).
  { cbn [span combine snd fst Nat.add]. ring. }
  rewrite Hh. f_equal. apply IH.
Qed.

Lemma recurrence_span (e : nat -> R * R) (n : nat) :
  recurrence_from Rmult Rplus 0%R
                  (map (fun k => fst (e k)) (seq 0 n))
                  (map (fun k => snd (e k)) (seq 0 n))
  = map (fun k => snd (span Rmult Rplus e 0 k)) (seq 0 n).
Proof.
  destruct n as [|n]; [reflexivity|].
  cbn [seq map recurrence_from].
  assert (Hh : Rplus (Rmult (fst (e 0)) 0) (snd (e 0))
               = snd (span Rmult Rplus e 0 0)).
  { cbn [span]. ring. }
  rewrite Hh. f_equal. apply recurrence_from_span.
Qed.

(** X3. The first loop of [associative_scan], on its own, computes the scan:
    on tensors of any length along the scan axis it returns, and at every
    position of the other axes the driven terms are the values of the
    recurrence [h_t = A_t * h_{t-1} + Bu_t] from [h = 0], and the pairs
    are the sequential left fold of [binary_operator]. *)
Theorem first_loop_is_the_scan (a b : tensor R) (n : nat) (rest : list nat) :
  shape a = n :: rest -> shape b = n :: rest ->
  exists stride a' b',
    up_loop Rmult Rplus n (Z.of_nat n) 1 (a, b) = Some (stride, (a', b'))
    /\ shape a' = n :: rest /\ shape b' = n :: rest
    /\ forall r, in_shape rest r ->
         column b' r n
         = recurrence_from Rmult Rplus 0%R (column a r n) (column b r n)
         /\ elems (a', b') r n
            = sequential_fold Rmult Rplus (elems (a, b) r n).
Proof.
  intros Ha Hb.
  destruct (@up_loop_windows (fun r k => elem_at (a, b) k r) n 1 a b n rest
              Ha Hb)
    as (S' & a' & b' & E & Ha' & Hb' & He); try lia.
  { intros k r Hk Hr. unfold window.
    replace (Nat.min 1 (k + 1)) with 1 by lia.
    replace (k + 1 - 1) with k by lia. reflexivity. }
  change (Z.of_nat 1) with 1%Z in E.
  exists (Z.of_nat S'), a', b'. split; [exact E|].
  split; [assumption|]. split; [assumption|].
  intros r Hr. split.
  - transitivity (map (fun k => snd (span Rmult Rplus
                                          (fun k => elem_at (a, b) k r) 0 k))
                       (seq 0 n));
      [|symmetry; exact (recurrence_span (fun k => elem_at (a, b) k r) n)].
    unfold column. apply map_ext_in. intros k Hk. apply in_seq in Hk.
    pose proof (He k r) as Hkr. unfold elem_at at 1 in Hkr.
    cbn [fst snd] in Hkr.
    rewrite <- Hkr by (assumption || lia). reflexivity.
  - unfold elems. rewrite sequential_fold_span.
    apply map_ext_in. intros k Hk. apply in_seq in Hk.
    apply He; [lia|assumption].
Qed.

Lemma first_loop_is_the_scan_witness :
  exists stride a' b',
    up_loop Rmult Rplus 3 (Z.of_nat 3) 1
            (of_list 0%R [1; 2; 3]%R, of_list 0%R [4; 5; 6]%R)
    = Some (stride, (a', b'))
    /\ shape a' = [3] /\ shape b' = [3]
    /\ forall r, in_shape [] r ->
         column b' r 3
         = recurrence_from Rmult Rplus 0%R
             (column (of_list 0%R [1; 2; 3]%R) r 3)
             (column (of_list 0%R [4; 5; 6]%R) r 3)
         /\ elems (a', b') r 3
            = sequential_fold Rmult Rplus
                (elems (of_list 0%R [1; 2; 3]%R, of_list 0%R [4; 5; 6]%R) r 3).
Proof.
  apply (@first_loop_is_the_scan (of_list 0%R [1; 2; 3]%R)
           (of_list 0%R [4; 5; 6]%R) 3 []); reflexivity.
Defined.

(** X1. [binary_operator] is associative: on three pairs of real tensors of
    one shape, combining the first two and then the third gives, at
    every position, the values of combining the first with the
    combination of the last two. *)
Theorem binary_operator_associative
        (p q r : tensor R * tensor R) (s : list nat) :
  shape (fst p) = s -> shape (snd p) = s ->
  shape (fst q) = s -> shape (snd q) = s ->
  shape (fst r) = s -> shape (snd r) = s ->
  exists pq qr left right,
    binary_operator Rmult Rplus p q = Some pq
    /\ binary_operator Rmult Rplus q r = Some qr
    /\ binary_operator Rmult Rplus pq r = Some left
    /\ binary_operator Rmult Rplus p qr = Some right
    /\ shape (fst left) = s /\ shape (snd left) = s
    /\ shape (fst right) = s /\ shape (snd right) = s
    /\ forall idx, in_shape s idx ->
         entry (fst left) idx = entry (fst right) idx
         /\ entry (snd left) idx = entry (snd right) idx.
Proof.
  destruct p as [pa pb], q as [qa qb], r as [ra rb]. cbn [fst snd].
  intros H1 H2 H3 H4 H5 H6.
  unfold binary_operator, addcmul.
  repeat (erewrite bzip_same; [|eassumption || reflexivity
                                |eassumption || reflexivity]; cbn [bind]).
  do 4 eexists.
  split; [reflexivity|]. split; [reflexivity|].
  repeat (erewrite bzip_same; [|eassumption || reflexivity
                                |eassumption || reflexivity]; cbn [bind]).
  split; [reflexivity|]. split; [reflexivity|].
  cbn [fst snd shape entry].
  repeat split; try reflexivity;
    rewrite ?(bidx_in_shape _ _ H); ring.
Qed.

Lemma binary_operator_associative_witness :
  exists pq qr left right,
    binary_operator Rmult Rplus (ones [2], ones [2]) (ones [2], ones [2])
    = Some pq
    /\ binary_operator Rmult Rplus (ones [2], ones [2]) (ones [2], ones [2])
       = Some qr
    /\ binary_operator Rmult Rplus pq (ones [2], ones [2]) = Some left
    /\ binary_operator Rmult Rplus (ones [2], ones [2]) qr = Some right
    /\ shape (fst left) = [2] /\ shape (snd left) = [2]
    /\ shape (fst right) = [2] /\ shape (snd right) = [2]
    /\ forall idx, in_shape [2] idx ->
         entry (fst left) idx = entry (fst right) idx
         /\ entry (snd left) idx = entry (snd right) idx.
Proof.
  apply (@binary_operator_associative (ones [2], ones [2]) (ones [2], ones [2])
           (ones [2], ones [2]) [2]); reflexivity.
Defined.

(** X2. On two tensors of one shape with a scan axis of any length the
    scan returns, whatever the product and the sum: neither loop runs
    out of rounds and every slice, product and concatenation inside
    fits; the results have the shape of the inputs. *)
Theorem associative_scan_returns (A : Type) (mul add : A -> A -> A)
        (a b : tensor A) (n : nat) (rest : list nat) :
  shape a = n :: rest -> shape b = n :: rest ->
  exists a' b', associative_scan mul add (a, b) = Some (a', b')
                /\ shape a' = n :: rest /\ shape b' = n :: rest.
Proof. apply associative_scan_run. Qed.

Lemma associative_scan_returns_witness :
  exists a' b',
    associative_scan Z.mul Z.add
      (of_list 0%Z [1; 2; 3; 4; 5]%Z, of_list 0%Z [1; 1; 1; 1; 1]%Z)
    = Some (a', b')
    /\ shape a' = [5] /\ shape b' = [5].
Proof.
  apply (@associative_scan_returns Z Z.mul Z.add
           (of_list 0%Z [1; 2; 3; 4; 5]%Z) (of_list 0%Z [1; 1; 1; 1; 1]%Z)
           5 []); reflexivity.
Defined.

(** X4. The scan leaves the first position of the scan axis as it is, for
    every length and whatever the product and the sum. *)
Theorem associative_scan_keeps_first (A : Type) (mul add : A -> A -> A)
        (a b : tensor A) (n : nat) (rest : list nat) :
  shape a = n :: rest -> shape b = n :: rest -> 1 <= n ->
  exists a' b',
    associative_scan mul add (a, b) = Some (a', b')
    /\ forall r, in_shape rest r ->
         entry a' (0 :: r) = entry a (0 :: r)
         /\ entry b' (0 :: r) = entry b (0 :: r).
Proof.
  intros Ha Hb Hn.
  destruct (Nat.eq_dec n 1) as [->|Hn1].
  - exists a, b. split; [|intros; split; reflexivity].
    unfold associative_scan, shape0, clone. cbn [fst snd].
    rewrite Ha. reflexivity.
  - destruct (@associative_scan_low A mul add a b n rest Ha Hb)
      as (a' & b' & E & _ & _ & He); [lia|].
    exists a', b'. split; [exact E|].
    intros r Hr. destruct (He r Hr) as [He0 _].
    unfold elem_at in He0. cbn [fst snd] in He0.
    apply pair_equal_spec in He0. exact He0.
Qed.

Lemma associative_scan_keeps_first_witness :
  exists a' b',
    associative_scan Z.mul Z.add
      (of_list 0%Z [2; 3; 5]%Z, of_list 0%Z [7; 1; 1]%Z) = Some (a', b')
    /\ forall r, in_shape [] r ->
         entry a' (0 :: r) = entry (of_list 0%Z [2; 3; 5]%Z) (0 :: r)
         /\ entry b' (0 :: r) = entry (of_list 0%Z [7; 1; 1]%Z) (0 :: r).
Proof.
  apply (@associative_scan_keeps_first Z Z.mul Z.add
           (of_list 0%Z [2; 3; 5]%Z) (of_list 0%Z [7; 1; 1]%Z) 3 []);
    [reflexivity | reflexivity | lia].
Defined.

(** X5. On real tensors of every length at least 2, the scan returns at
    position 1 the value [h_1 = A_1 * Bu_0 + Bu_1] of the recurrence plus
    [A_1 * A_0 * Bu_0], and the decay [A_1 * A_0 * A_0]: the second
    loop combines position 1, final after the first loop, with position
    0 again. *)
Theorem associative_scan_second_position
        (a b : tensor R) (n : nat) (rest : list nat) :
  shape a = n :: rest -> shape b = n :: rest -> 2 <= n ->
  exists a' b',
    associative_scan Rmult Rplus (a, b) = Some (a', b')
    /\ forall r, in_shape rest r ->
         entry b' (1%nat :: r)
         = (entry a (1%nat :: r) * entry b (0%nat :: r) + entry b (1%nat :: r)
            + entry a (1%nat :: r) * entry a (0%nat :: r) * entry b (0%nat :: r))%R
         /\ entry a' (1%nat :: r)
            = (entry a (1%nat :: r) * entry a (0%nat :: r) * entry a (0%nat :: r))%R.
Proof.
  intros Ha Hb Hn.
  destruct (@associative_scan_low R Rmult Rplus a b n rest Ha Hb Hn)
    as (a' & b' & E & _ & _ & He).
  exists a', b'. split; [exact E|].
  intros r Hr. destruct (He r Hr) as [_ He1].
  unfold elem_at, combine in He1. cbn [fst snd] in He1.
  apply pair_equal_spec in He1. destruct He1 as [H1 H2].
  rewrite H1, H2. split; ring.
Qed.

Lemma associative_scan_second_position_witness :
  exists a' b',
    associative_scan Rmult Rplus
      (of_list 0%R [2; 3; 5]%R, of_list 0%R [7; 1; 1]%R) = Some (a', b')
    /\ forall r, in_shape [] r ->
         entry b' (1%nat :: r)
         = (entry (of_list 0%R [2; 3; 5]%R) (1%nat :: r)
            * entry (of_list 0%R [7; 1; 1]%R) (0%nat :: r)
            + entry (of_list 0%R [7; 1; 1]%R) (1%nat :: r)
            + entry (of_list 0%R [2; 3; 5]%R) (1%nat :: r)
              * entry (of_list 0%R [2; 3; 5]%R) (0%nat :: r)
              * entry (of_list 0%R [7; 1; 1]%R) (0%nat :: r))%R
         /\ entry a' (1%nat :: r)
            = (entry (of_list 0%R [2; 3; 5]%R) (1%nat :: r)
               * entry (of_list 0%R [2; 3; 5]%R) (0%nat :: r)
               * entry (of_list 0%R [2; 3; 5]%R) (0%nat :: r))%R.
Proof.
  apply (@associative_scan_second_position
           (of_list 0%R [2; 3; 5]%R) (of_list 0%R [7; 1; 1]%R) 3 []);
    [reflexivity | reflexivity | lia].
Defined.

Section Agree.
Variable A : Type.
Variables (mul add : A -> A -> A).

Lemma up_loop_agree (fuel : nat) :
  forall (S : nat) (a b a0 b0 : tensor A) n rest k r,
  shape a = n :: rest -> shape b = n :: rest ->
  shape a0 = n :: rest -> shape b0 = n :: rest ->
  1 <= S -> n - S <= fuel -> k < n -> in_shape rest r ->
  agree_upto (a, b) (a0, b0) k r ->
  exists S' a' b' a0' b0',
    up_loop mul add fuel (Z.of_nat n) (Z.of_nat S) (a, b)
    = Some (Z.of_nat S', (a', b'))
    /\ up_loop mul add fuel (Z.of_nat n) (Z.of_nat S) (a0, b0)
       = Some (Z.of_nat S', (a0', b0'))
    /\ shape a' = n :: rest /\ shape b' = n :: rest
    /\ shape a0' = n :: rest /\ shape b0' = n :: rest
    /\ S <= S' /\ (S' < 2 * n \/ S' = S)
    /\ agree_upto (a', b') (a0', b0') k r.
Proof.
  induction fuel as [|fuel IH];
    intros S a b a0 b0 n rest k r Ha Hb Ha0 Hb0 HS Hf Hk Hr Hag.
  - cbn [up_loop]. destruct (Z.ltb_spec (Z.of_nat S) (Z.of_nat n)); [lia|].
    exists S, a, b, a0, b0. repeat split; try assumption; try lia.
  - cbn [up_loop]. destruct (Z.ltb_spec (Z.of_nat S) (Z.of_nat n)) as [Hlt|Hge].
    + destruct (@up_round_entries A mul add S a b n rest Ha Hb HS)
        as (a1 & b1 & -> & Ha1 & Hb1 & He1); [lia|].
      destruct (@up_round_entries A mul add S a0 b0 n rest Ha0 Hb0 HS)
        as (a2 & b2 & -> & Ha2 & Hb2 & He2); [lia|].
      cbn [bind].
      replace (Z.of_nat S * 2)%Z with (Z.of_nat (2 * S)) by lia.
      destruct (IH (2 * S) a1 b1 a2 b2 n rest k r Ha1 Hb1 Ha2 Hb2)
        as (S' & a' & b' & a0' & b0' & -> & -> & H1 & H2 & H3 & H4 & H5 & H6
            & H7); try assumption; try lia.
      * intros k' Hk'. rewrite He1, He2 by (assumption || lia).
        destruct (k' <? S); [apply Hag; exact Hk'|].
        rewrite (Hag (k' - S)), (Hag k') by lia. reflexivity.
      * exists S', a', b', a0', b0'. repeat split; try assumption; try lia.
    + exists S, a, b, a0, b0. repeat split; try assumption; try lia.
Qed.

Lemma down_loop_agree (fuel : nat) :
  forall (S : nat) (a b a0 b0 : tensor A) n rest k r,
  shape a = n :: rest -> shape b = n :: rest ->
  shape a0 = n :: rest -> shape b0 = n :: rest ->
  S <= fuel -> k < n -> in_shape rest r ->
  agree_upto (a, b) (a0, b0) k r ->
  exists a' b' a0' b0',
    down_loop mul add fuel (Z.of_nat S) (a, b) = Some (a', b')
    /\ down_loop mul add fuel (Z.of_nat S) (a0, b0) = Some (a0', b0')
    /\ agree_upto (a', b') (a0', b0') k r.
Proof.
  induction fuel as [|fuel IH];
    intros S a b a0 b0 n rest k r Ha Hb Ha0 Hb0 Hf Hk Hr Hag.
  - cbn [down_loop]. destruct (Z.gtb_spec (Z.of_nat S) 0); [lia|].
    exists a, b, a0, b0. split; [reflexivity|]. split; [reflexivity|].
    exact Hag.
  - cbn [down_loop]. destruct (Z.gtb_spec (Z.of_nat S) 0) as [Hgt|Hle].
    + destruct (@down_round_entries A mul add S a b n rest Ha Hb)
        as (a1 & b1 & -> & Ha1 & Hb1 & He1); [lia|].
      destruct (@down_round_entries A mul add S a0 b0 n rest Ha0 Hb0)
        as (a2 & b2 & -> & Ha2 & Hb2 & He2); [lia|].
      cbn [bind]. rewrite of_nat_half.
      assert (Hhalf : S / 2 < S) by (apply Nat.div_lt; lia).
      apply (IH (S / 2) a1 b1 a2 b2 n rest k r Ha1 Hb1 Ha2 Hb2);
        try assumption; try lia.
      intros k' Hk'. rewrite He1, He2 by (assumption || lia).
      destruct (k' <? 2 * S - 1); [apply Hag; exact Hk'|].
      rewrite (Hag (k' - S)), (Hag k') by lia. reflexivity.
    + exists a, b, a0, b0. split; [reflexivity|]. split; [reflexivity|].
      exact Hag.
Qed.

Lemma associative_scan_agree (a b a0 b0 : tensor A) n rest k r :
  shape a = n :: rest -> shape b = n :: rest ->
  shape a0 = n :: rest -> shape b0 = n :: rest ->
  k < n -> in_shape rest r ->
  agree_upto (a, b) (a0, b0) k r ->
  exists a' b' a0' b0',
    associative_scan mul add (a, b) = Some (a', b')
    /\ associative_scan mul add (a0, b0) = Some (a0', b0')
    /\ agree_upto (a', b') (a0', b0') k r.
Proof.
  intros Ha Hb Ha0 Hb0 Hk Hr Hag.
  unfold associative_scan, shape0, clone. cbn [fst snd].
  rewrite Ha, Ha0. cbn [bind].
  destruct (Nat.leb_spec n 1).
  - exists a, b, a0, b0. split; [reflexivity|]. split; [reflexivity|].
    exact Hag.
  - destruct (@up_loop_agree n 1 a b a0 b0 n rest k r Ha Hb Ha0 Hb0)
      as (S' & a1 & b1 & a2 & b2 & E1 & E2 & Ha1 & Hb1 & Ha2 & Hb2 & HS1 & HS2
          & Hag1); try assumption; try lia.
    change (Z.of_nat 1) with 1%Z in E1, E2. rewrite E1, E2. cbn [bind].
    rewrite of_nat_half.
    apply (@down_loop_agree n (S' / 2) a1 b1 a2 b2 n rest k r);
      try assumption.
    assert (S' / 2 < n); [|lia].
    destruct HS2 as [HS2| ->]; [apply Nat.Div0.div_lt_upper_bound; lia|].
    change (1 / 2) with 0. lia.
Qed.

End Agree.

(** X6. [associative_scan] is causal along the scan axis and keeps the
    other axes apart: the results at position [k] of the scan axis and
    [r] of the other axes depend only on the inputs at positions up to
    [k] and at [r]. Two inputs that agree there give results that agree
    there, for every length and any product and sum. *)
Theorem associative_scan_is_causal (A : Type) (mul add : A -> A -> A)
        (a b a0 b0 : tensor A) (n : nat) (rest : list nat)
        (k : nat) (r : list nat) :
  shape a = n :: rest -> shape b = n :: rest ->
  shape a0 = n :: rest -> shape b0 = n :: rest ->
  k < n -> in_shape rest r ->
  (forall k', k' <= k ->
     entry a (k' :: r) = entry a0 (k' :: r)
     /\ entry b (k' :: r) = entry b0 (k' :: r)) ->
  exists a' b' a0' b0',
    associative_scan mul add (a, b) = Some (a', b')
    /\ associative_scan mul add (a0, b0) = Some (a0', b0')
    /\ forall k', k' <= k ->
         entry a' (k' :: r) = entry a0' (k' :: r)
         /\ entry b' (k' :: r) = entry b0' (k' :: r).
Proof.
  intros Ha Hb Ha0 Hb0 Hk Hr Hag.
  destruct (@associative_scan_agree A mul add a b a0 b0 n rest k r
              Ha Hb Ha0 Hb0 Hk Hr)
    as (a' & b' & a0' & b0' & E1 & E2 & Hres).
  { intros k' Hk'. unfold elem_at. cbn [fst snd].
    destruct (Hag k' Hk') as [-> ->]. reflexivity. }
  exists a', b', a0', b0'. split; [exact E1|]. split; [exact E2|].
  intros k' Hk'. specialize (Hres k' Hk'). unfold elem_at in Hres.
  cbn [fst snd] in Hres. apply pair_equal_spec in Hres. exact Hres.
Qed.

Lemma associative_scan_is_causal_witness :
  exists a' b' a0' b0',
    associative_scan Z.mul Z.add
      (of_list 0%Z [2; 3; 5]%Z, of_list 0%Z [7; 1; 1]%Z) = Some (a', b')
    /\ associative_scan Z.mul Z.add
         (of_list 0%Z [2; 3; 9]%Z, of_list 0%Z [7; 1; 4]%Z) = Some (a0', b0')
    /\ forall k', k' <= 1 ->
         entry a' (k' :: []) = entry a0' (k' :: [])
         /\ entry b' (k' :: []) = entry b0' (k' :: []).
Proof.
  apply (@associative_scan_is_causal Z Z.mul Z.add
           (of_list 0%Z [2; 3; 5]%Z) (of_list 0%Z [7; 1; 1]%Z)
           (of_list 0%Z [2; 3; 9]%Z) (of_list 0%Z [7; 1; 4]%Z) 3 [] 1 []);
    try reflexivity; try lia.
  intros k' Hk'. destruct k' as [|[|k']]; [split; reflexivity..|lia].
Defined.

End ScanLaws.

(* ------------------------------------------------------------------ *)
(** ** When the constructors and the forward passes return *)

Module ReturnFacts.
Import Torch Scan Model TorchFacts ScanFacts WfFacts RetentionFacts MambaFacts ShapeFacts ScanLaws.
Local Open Scope torch_scope.

Lemma odd_halves (d : nat) : Nat.even d = false -> (d + 1) / 2 <> d / 2 /\ 1 <= d.
Proof.
  intros H. 
  assert (Ho : Nat.odd d = true) by (unfold Nat.odd; rewrite H; reflexivity).
  apply Nat.odd_spec in Ho. destruct Ho as [k ->].
  replace (2 * k + 1 + 1) with ((k + 1) * 2) by lia.
  rewrite Nat.div_mul by lia.
  replace ((2 * k + 1) / 2) with k
    by (apply Nat.div_unique with (r := 1); lia).
  lia.
Qed.

Lemma shape_eqb_last_neq (pre : list nat) (a b : nat) :
  a <> b -> shape_eqb (pre ++ [a]) (pre ++ [b]) = false.
Proof.
  intros H. induction pre as [|n pre IH]; cbn [app shape_eqb].
  - destruct (Nat.eqb_spec a b); [contradiction|reflexivity].
  - rewrite IH. apply andb_false_r.
Qed.

(** On a last axis of odd size the two strided halves differ in size and
    [torch.stack] raises. *)
Lemma rotary_fails_odd r x B h T d :
  shape x = [B; h; T; d] -> Nat.even d = false ->
  RotaryEmbedding_forward r x = None.
Proof.
  intros Hx Hodd. destruct (odd_halves d Hodd) as [Hne Hd1].
  expose x Hx. unfold RotaryEmbedding_forward. cbn [shape rev app].
  do 6 (apply bind_none; intros ? _).
  next. next.
  unfold stack_last. cbn [shape t_neg tmap].
  assert (Hc1 : (slice_count d None None + 2 - 1) / 2 = (d + 1) / 2).
  { unfold slice_count, slice_hi, slice_lo. f_equal. lia. }
  assert (Hc2 : (slice_count d (Some 1%Z) None + 2 - 1) / 2 = d / 2).
  { unfold slice_count, slice_hi, slice_lo, norm_index.
    destruct (Z.ltb_spec 1 0); [lia|]. f_equal. lia. }
  rewrite Hc1, Hc2.
  change [B; h; T; d / 2] with ([B; h; T] ++ [d / 2]).
  change [B; h; T; (d + 1) / 2] with ([B; h; T] ++ [(d + 1) / 2]).
  rewrite shape_eqb_last_neq by lia. reflexivity.
Qed.

Lemma Retention_fails_odd r x B T E :
  Retention_wf E r -> shape x = [B; T; E] -> E mod heads r = 0 ->
  Nat.even (E / heads r) = false ->
  Retention_forward r x = None.
Proof.
  intros Hwf Hx Hmod Hodd.
  destruct Hwf as (Hh & Hhd & Hq & Hk & Hv & Hg & Hgam & Hrot).
  assert (HE : heads r * head_dim r = E).
  { rewrite Hhd. pose proof (Nat.div_mod_eq E (heads r)). lia. }
  rewrite <- Hhd in Hodd.
  unfold Retention_forward. apply bind_none. intros l Hl. exfalso.
  assert (Hnone : Retention_locals r x = None); [|congruence].
  clear l Hl.
  unfold Retention_locals. rewrite Hx.
  change [Z.of_nat B; Z.of_nat T; Z.of_nat (heads r); Z.of_nat (head_dim r)]
    with (map Z.of_nat [B; T; heads r; head_dim r]).
  assert (Hnum : numel [B; T; E] = numel [B; T; heads r; head_dim r]).
  { cbn [numel fold_right]. rewrite <- HE. ring. }
  erewrite linear_run3; [|exact Hq|exact Hx]. forget_head.
  erewrite view_nat_run; [|reflexivity|exact Hnum]. forget_head.
  next.
  erewrite linear_run3; [|exact Hk|exact Hx]. forget_head.
  erewrite view_nat_run; [|reflexivity|exact Hnum]. forget_head.
  next.
  erewrite linear_run3; [|exact Hv|exact Hx]. forget_head.
  erewrite view_nat_run; [|reflexivity|exact Hnum]. forget_head.
  next.
  erewrite rotary_fails_odd; [reflexivity|reflexivity|exact Hodd].
Qed.

(** On an input without elements the size [-1] of the final [reshape]
    cannot be inferred. *)
Lemma Retention_fails_empty r x B T E :
  shape x = [B; T; E] -> B = 0 \/ T = 0 ->
  Retention_forward r x = None.
Proof.
  intros Hx H0.
  assert (HBT : numel [B; T] = 0).
  { cbn [numel fold_right]. destruct H0; subst; lia. }
  unfold Retention_forward. apply bind_none. intros l Hl. exfalso.
  assert (Hnone : Retention_locals r x = None); [|congruence].
  clear l Hl.
  unfold Retention_locals. rewrite Hx.
  skip_to_reshape.
  unfold reshape, view.
  change [Z.of_nat B; Z.of_nat T; (-1)%Z]
    with (map Z.of_nat [B; T] ++ (-1)%Z :: map Z.of_nat []).
  rewrite infer_size_infer. cbn [app]. rewrite HBT. reflexivity.
Qed.

Lemma retention_runs_dec (E h B T : nat) :
  {retention_runs E h B T} + {~ retention_runs E h B T}.
Proof.
  unfold retention_runs.
  destruct (Nat.eq_dec (E mod h) 0); [|right; tauto].
  destruct (Nat.even (E / h)); [|right; intros (_ & H & _); discriminate H].
  destruct (le_lt_dec 1 B); [|right; lia].
  destruct (le_lt_dec 1 T); [|right; lia].
  left. auto.
Qed.

Lemma Retention_fails_unless r x B T E :
  Retention_wf E r -> shape x = [B; T; E] ->
  ~ retention_runs E (heads r) B T ->
  Retention_forward r x = None.
Proof.
  intros Hwf Hx Hn. unfold retention_runs in Hn.
  destruct (Nat.eq_dec (E mod heads r) 0) as [Hm|Hm];
    [|exact (@Retention_fails r x B T E Hwf Hx Hm)].
  destruct (Nat.even (E / heads r)) eqn:Hev;
    [|exact (@Retention_fails_odd r x B T E Hwf Hx Hm Hev)].
  apply (@Retention_fails_empty r x B T E Hx).
  destruct B; [left; reflexivity|]. destruct T; [right; reflexivity|].
  exfalso. apply Hn. repeat split; try assumption; lia.
Qed.

Ltac skip_to_view :=
  repeat match goal with
         | |- bind (view _ _) _ = None => fail 1
         | |- bind _ _ = None => apply bind_none; intros ? _
         | |- match ?x with pair _ _ => _ end = None => destruct x
         end.

(** Without a time step, [view(T_size, -1, N)] cannot infer its size. *)
Lemma selective_scan_fails_empty self u delta B C Bn E :
  shape u = [Bn; 0; E] ->
  selective_scan_locals self u delta B C = None.
Proof.
  intros Hu. unfold selective_scan_locals. rewrite Hu.
  skip_to_view.
  unfold view.
  change [Z.of_nat 0; (-1)%Z; Z.of_nat (d_state self)]
    with (map Z.of_nat [0] ++ (-1)%Z :: map Z.of_nat [d_state self]).
  rewrite infer_size_infer. reflexivity.
Qed.

Lemma MambaBlock_fails_empty self x B :
  MambaBlock_wf self -> shape x = [B; 0; embed_dim self] ->
  MambaBlock_forward self x = None.
Proof.
  intros Hwf Hx.
  pose proof Hwf as (Hin & Hcv & Hci & Hco & Hgr & Hks & Hpad & Hxp & Hdt
                     & HA & HD & Hop).
  unfold MambaBlock_forward, MambaBlock_forward_logic.
  apply bind_none. intros l Hl. exfalso.
  assert (Hnone : MambaBlock_locals self x = None); [|congruence].
  clear l Hl.
  unfold MambaBlock_locals. rewrite Hx.
  erewrite linear_run3; [|exact Hin|exact Hx]. cbn [bind].
  erewrite chunk2_run; [|reflexivity]. cbn [bind].
  unfold conv_stage.
  next.
  unfold conv1d. cbn [shape]. rewrite Hci, Hco, Hks, Hpad, Nat.eqb_refl.
  cbn [andb].
  destruct ((d_conv self <=? 0 + 2 * (d_conv self - 1)) && (1 <=? d_conv self));
    [|reflexivity].
  cbn [bind].
  next. next.
  change (slice_count (0 + 2 * (d_conv self - 1) - d_conv self + 1) None
            (Some (Z.of_nat 0)))
    with (Z.to_nat (norm_index
                      (Z.of_nat (0 + 2 * (d_conv self - 1) - d_conv self + 1))
                      0) - 0).
  unfold norm_index. cbn [Z.ltb Z.compare].
  replace (Z.to_nat (Z.min 0 (Z.of_nat (0 + 2 * (d_conv self - 1)
                                         - d_conv self + 1))) - 0 + 1 - 1)
    with 0 by lia.
  change (0 / 1) with 0.
  erewrite linear_run3; [|exact Hxp|reflexivity]. cbn [bind].
  erewrite split3_run; [|reflexivity]. cbn [bind].
  erewrite linear_run3; [|exact Hdt|reflexivity]. cbn [bind].
  erewrite selective_scan_fails_empty; [reflexivity|reflexivity].
Qed.

(** X7. [RotaryEmbedding.forward] on a (batch, heads, time, dim) input
    returns exactly when [dim] is even, and then a tensor of the shape
    of the input; on an odd [dim] it raises. *)
Theorem rotary_returns_iff_even dim r x B h T :
  RotaryEmbedding_init dim = Some r -> shape x = [B; h; T; dim] ->
  (Nat.even dim = true ->
   exists y, RotaryEmbedding_forward r x = Some y /\ shape y = [B; h; T; dim])
  /\ (Nat.even dim = false -> RotaryEmbedding_forward r x = None).
Proof.
  intros Hr Hx. apply RotaryEmbedding_init_wf in Hr. split.
  - intros Hev. exact (@rotary_run r x B h T dim Hr Hx Hev).
  - intros Hodd. exact (@rotary_fails_odd r x B h T dim Hx Hodd).
Qed.

Lemma rotary_returns_iff_even_witness :
  match RotaryEmbedding_init 3 with
  | Some r => RotaryEmbedding_forward r (ones [1; 1; 2; 3]) = None
  | None => False
  end
  /\ match RotaryEmbedding_init 4 with
     | Some r =>
         exists y, RotaryEmbedding_forward r (ones [1; 1; 2; 4]) = Some y
                   /\ shape y = [1; 1; 2; 4]
     | None => False
     end.
Proof.
  split.
  - destruct (RotaryEmbedding_init 3) as [r|] eqn:Er; [|discriminate Er].
    exact (proj2 (@rotary_returns_iff_even 3 r (ones [1; 1; 2; 3]) 1 1 2
                    Er eq_refl) eq_refl).
  - destruct (RotaryEmbedding_init 4) as [r|] eqn:Er; [|discriminate Er].
    exact (proj1 (@rotary_returns_iff_even 4 r (ones [1; 1; 2; 4]) 1 1 2
                    Er eq_refl) eq_refl).
Defined.

(** X8. [Retention.forward] on a (batch, time, embed_dim) input returns
    exactly when [heads] divides [embed_dim], [embed_dim / heads] is even
    and batch and time are at least 1, and then a tensor of the shape of
    the input; in every other case it raises. *)
Theorem Retention_returns_iff v E hd r x B T :
  Retention_init v E hd = Some r -> shape x = [B; T; E] ->
  (retention_runs E hd B T ->
   exists y, Retention_forward r x = Some y /\ shape y = [B; T; E])
  /\ (~ retention_runs E hd B T -> Retention_forward r x = None).
Proof.
  intros Hr Hx.
  pose proof (Retention_init_wf _ _ _ Hr) as Hwf.
  pose proof (Retention_init_heads _ _ _ Hr) as Hh. subst hd.
  split.
  - intros Hc.
    destruct (@Retention_run r x B T E Hwf Hx Hc) as (l & Hl & Hs).
    exists (r_out l). unfold Retention_forward. rewrite Hl.
    split; [reflexivity|exact Hs].
  - intros Hc. exact (@Retention_fails_unless r x B T E Hwf Hx Hc).
Qed.

Lemma Retention_returns_iff_witness :
  match Retention_init (fun _ _ => 0%R) 8 2 with
  | Some r =>
      (exists y, Retention_forward r (ones [1; 3; 8]) = Some y
                 /\ shape y = [1; 3; 8])
      /\ Retention_forward r (ones [0; 3; 8]) = None
  | None => False
  end.
Proof.
  destruct (Retention_init (fun _ _ => 0%R) 8 2) as [r|] eqn:Er;
    [|discriminate Er].
  split.
  - apply (proj1 (@Retention_returns_iff (fun _ _ => 0%R) 8 2 r
                    (ones [1; 3; 8]) 1 3 Er eq_refl)).
    unfold retention_runs. repeat split; try reflexivity; lia.
  - apply (proj2 (@Retention_returns_iff (fun _ _ => 0%R) 8 2 r
                    (ones [0; 3; 8]) 0 3 Er eq_refl)).
    unfold retention_runs. lia.
Defined.

(** X9. [MambaBlock.forward] on a (batch, time, embed_dim) input returns
    exactly when there is at least one time step, and then a tensor of the
    shape of the input, also on an empty batch; on an empty sequence it
    raises. *)
Theorem MambaBlock_returns_iff v E ds dc dr m x B T :
  MambaBlock_init v E ds dc dr = Some m -> 1 <= ds -> 1 <= dc ->
  shape x = [B; T; E] ->
  (1 <= T ->
   exists y, MambaBlock_forward m x = Some y /\ shape y = [B; T; E])
  /\ (T = 0 -> MambaBlock_forward m x = None).
Proof.
  intros Hm Hds Hdc Hx.
  apply MambaBlock_init_wf in Hm. destruct Hm as (Hwf & HE & Hs & Hc).
  subst E. split.
  - intros HT. apply Mamba_forward_run; try assumption; lia.
  - intros ->. exact (@MambaBlock_fails_empty m x B Hwf Hx).
Qed.

Lemma MambaBlock_returns_iff_witness :
  match MambaBlock_init (fun _ _ => 0%R) 8 16 4 None with
  | Some m =>
      (exists y, MambaBlock_forward m (ones [0; 3; 8]) = Some y
                 /\ shape y = [0; 3; 8])
      /\ MambaBlock_forward m (ones [2; 0; 8]) = None
  | None => False
  end.
Proof.
  destruct (MambaBlock_init (fun _ _ => 0%R) 8 16 4 None) as [m|] eqn:Em;
    [|discriminate Em].
  split.
  - apply (proj1 (@MambaBlock_returns_iff (fun _ _ => 0%R) 8 16 4 None m
                    (ones [0; 3; 8]) 0 3 Em ltac:(lia) ltac:(lia) eq_refl)).
    lia.
  - apply (proj2 (@MambaBlock_returns_iff (fun _ _ => 0%R) 8 16 4 None m
                    (ones [2; 0; 8]) 2 0 Em ltac:(lia) ltac:(lia) eq_refl)).
    reflexivity.
Defined.

Lemma DillNetBlock_fails_unless b r x B T E :
  DillNetBlock_wf E b -> attention_layer b = MixerRetention r ->
  shape x = [B; T; E] -> ~ retention_runs E (heads r) B T ->
  DillNetBlock_forward b x = None.
Proof.
  intros (Hn1 & Hmix & _) Ha Hx Hc.
  unfold DillNetBlock_forward.
  destruct (@RMSNorm_run (norm1 b) x B T E Hn1 Hx) as (n1 & -> & Hs1).
  cbn [bind]. rewrite Ha in *. cbn [mixer_forward mixer_wf] in *.
  rewrite (@Retention_fails_unless r n1 B T E Hmix Hs1 Hc). reflexivity.
Qed.

(** X10. [DillNet.forward] on a (batch, time, embed_dim) input returns
    exactly when the network has no block, or [heads] divides
    [embed_dim], [embed_dim / heads] is even and batch and time are at
    least 1; it then returns a tensor of the shape of the input, and in
    every other case it raises, in the first block. *)
Theorem DillNet_returns_iff v E depth hd ffn net x B T :
  DillNet_init v E depth hd ffn = Some net -> shape x = [B; T; E] ->
  (depth = 0 \/ retention_runs E hd B T ->
   exists y, DillNet_forward net x = Some y /\ shape y = [B; T; E])
  /\ (~ (depth = 0 \/ retention_runs E hd B T) ->
      DillNet_forward net x = None).
Proof.
  intros Hn Hx. split.
  - intros Hc. exact (@DillNet_run v E depth hd ffn net x B T Hn Hx Hc).
  - intros Hc. unfold DillNet_init in Hn.
    apply bind_some in Hn. destruct Hn as (bs & Hbs & Hn).
    apply some_inj in Hn. subst net.
    unfold DillNet_forward. cbn [blocks final_norm].
    destruct depth as [|d]; [exfalso; apply Hc; left; reflexivity|].
    cbn [seq mapM] in Hbs.
    apply bind_some in Hbs. destruct Hbs as (b & Hb & Hbs).
    apply bind_some in Hbs. destruct Hbs as (bs' & _ & Hbs).
    apply some_inj in Hbs. subst bs.
    change (negb (0 mod 2 =? 0)) with false in Hb.
    apply DillNetBlock_init_wf in Hb. destruct Hb as [Hwf Hk].
    cbn [run_blocks].
    destruct (attention_layer b) as [m|r] eqn:Ea.
    + discriminate Hk.
    + destruct Hk as [_ Hh]. subst hd.
      rewrite (@DillNetBlock_fails_unless b r x B T E Hwf Ea Hx);
        [reflexivity|].
      intros Hr. apply Hc. right. exact Hr.
Qed.

Lemma DillNet_returns_iff_witness :
  match DillNet_init (fun _ _ => 0%R) 8 2 2 None with
  | Some net =>
      (exists y, DillNet_forward net (ones [1; 3; 8]) = Some y
                 /\ shape y = [1; 3; 8])
      /\ DillNet_forward net (ones [0; 3; 8]) = None
  | None => False
  end.
Proof.
  assert (Hrun : ran (DillNet_init (fun _ _ => 0%R) 8 2 2 None) = true)
    by (vm_compute; reflexivity).
  destruct (DillNet_init (fun _ _ => 0%R) 8 2 2 None) as [net|] eqn:En;
    [|discriminate Hrun].
  split.
  - apply (proj1 (@DillNet_returns_iff (fun _ _ => 0%R) 8 2 2 None net
                    (ones [1; 3; 8]) 1 3 En eq_refl)).
    right. unfold retention_runs. repeat split; try reflexivity; lia.
  - apply (proj2 (@DillNet_returns_iff (fun _ _ => 0%R) 8 2 2 None net
                    (ones [0; 3; 8]) 0 3 En eq_refl)).
    unfold retention_runs. lia.
Defined.

Lemma mapM_some {X Y : Type} (f : X -> option Y) (l : list X) :
  (forall x, In x l -> exists y, f x = Some y) -> exists r, mapM f l = Some r.
Proof.
  induction l as [|x l IH]; intros H; cbn [mapM]; [eauto|].
  destruct (H x (or_introl eq_refl)) as (y & ->). cbn [bind].
  destruct IH as (r & ->); [intros z Hz; apply H; right; exact Hz|].
  cbn [bind]. eauto.
Qed.

Lemma mapM_none {X Y : Type} (f : X -> option Y) (l : list X) (x : X) :
  In x l -> f x = None -> mapM f l = None.
Proof.
  induction l as [|x0 l IH]; intros Hin Hx; [contradiction|].
  cbn [mapM]. destruct Hin as [->|Hin].
  - rewrite Hx. reflexivity.
  - apply bind_none. intros y _. rewrite (IH Hin Hx). reflexivity.
Qed.

Lemma Retention_init_returns v E hd :
  hd <> 0 -> exists r, Retention_init v E hd = Some r.
Proof.
  intros Hh. unfold Retention_init.
  destruct (Nat.eqb_spec hd 0); [contradiction|].
  unfold RotaryEmbedding_init, arange_step. cbn [Nat.eqb bind]. eauto.
Qed.

Lemma MambaBlock_init_returns v E ds dc dr :
  E <> 0 -> exists m, MambaBlock_init v E ds dc dr = Some m.
Proof.
  intros HE. unfold MambaBlock_init, Conv1d_init.
  destruct (Nat.eqb_spec E 0); [contradiction|].
  rewrite Nat.Div0.mod_same, Nat.eqb_refl. cbn [negb bind].
  unfold arange_step. cbn [Nat.eqb bind].
  unfold unsqueeze, rank. cbn [float tmap shape length].
  norm_dims. cbn [bind]. eauto.
Qed.

Lemma MambaBlock_init_raises v ds dc dr : MambaBlock_init v 0 ds dc dr = None.
Proof. reflexivity. Qed.

Lemma DillNetBlock_init_returns v E hd (um : bool) ffn :
  (if um then E <> 0 else hd <> 0) ->
  exists b, DillNetBlock_init v E hd um ffn = Some b.
Proof.
  intros H. unfold DillNetBlock_init. destruct um.
  - destruct (@MambaBlock_init_returns (child v 0) E 16 4 None H) as (m & ->).
    cbn [bind]. eauto.
  - destruct (@Retention_init_returns (child v 0) E hd H) as (r & ->).
    cbn [bind]. eauto.
Qed.

Lemma DillNetBlock_init_raises v E hd (um : bool) ffn :
  (if um then E = 0 else hd = 0) ->
  DillNetBlock_init v E hd um ffn = None.
Proof.
  intros H. unfold DillNetBlock_init. destruct um; subst; reflexivity.
Qed.

(** X11. The constructor of [DillNet] returns exactly when the network has no
    block, or [heads] is not 0 and, if there is a second block, [embed_dim]
    is not 0: [Retention] divides by [heads], and the [Conv1d] of
    [MambaBlock] has [embed_dim] groups. Whether [heads] divides
    [embed_dim] is not checked. *)
Theorem DillNet_init_returns_iff v E depth hd ffn :
  (exists net, DillNet_init v E depth hd ffn = Some net)
  <-> depth = 0 \/ (hd <> 0 /\ (depth = 1 \/ E <> 0)).
Proof.
  unfold DillNet_init. split.
  - intros (net & H).
    apply bind_some in H. destruct H as (bs & Hbs & _).
    destruct depth as [|[|d]]; [left; reflexivity | |]; right.
    + destruct (@mapM_nth _ _ _ _ _ Hbs 0 0 eq_refl) as (b & _ & Hb).
      split; [|left; reflexivity].
      intros ->. change (negb (0 mod 2 =? 0)) with false in Hb.
      rewrite DillNetBlock_init_raises in Hb by reflexivity. discriminate Hb.
    + destruct (@mapM_nth _ _ _ _ _ Hbs 0 0 eq_refl) as (b & _ & Hb).
      destruct (@mapM_nth _ _ _ _ _ Hbs 1 1 eq_refl) as (b1 & _ & Hb1).
      change (negb (0 mod 2 =? 0)) with false in Hb.
      change (negb (1 mod 2 =? 0)) with true in Hb1.
      split.
      * intros ->.
        rewrite DillNetBlock_init_raises in Hb by reflexivity. discriminate Hb.
      * right. intros ->.
        rewrite DillNetBlock_init_raises in Hb1 by reflexivity.
        discriminate Hb1.
  - intros H.
    assert (Hall : exists bs,
               mapM (fun i => DillNetBlock_init (child v i) E hd
                                (negb (i mod 2 =? 0)) ffn) (seq 0 depth)
               = Some bs).
    { apply mapM_some. intros i Hi. apply in_seq in Hi.
      apply DillNetBlock_init_returns.
      destruct H as [->|(Hh & Hd)]; [lia|].
      destruct (negb (i mod 2 =? 0)) eqn:Hum; [|exact Hh].
      destruct Hd as [->|HE]; [|exact HE].
      assert (i = 0) by lia. subst i. discriminate Hum. }
    destruct Hall as (bs & ->). cbn [bind]. eauto.
Qed.

Lemma bdim_clash (a b : nat) : a <> b -> a <> 1 -> b <> 1 -> bdim a b = None.
Proof.
  intros H1 H2 H3. unfold bdim.
  destruct (Nat.eqb_spec a b); [contradiction|].
  destruct (Nat.eqb_spec a 1); [contradiction|].
  destruct (Nat.eqb_spec b 1); [contradiction|]. reflexivity.
Qed.

(** A last axis that is neither 1 nor the size of the weight does not
    broadcast against it. *)
Lemma RMSNorm_fails n x B T E E' :
  RMSNorm_wf E n -> shape x = [B; T; E'] ->
  E' <> E -> E' <> 1 -> E <> 1 ->
  RMSNorm_forward n x = None.
Proof.
  intros Hw Hx H1 H2 H3. unfold RMSNorm_wf in Hw.
  destruct n as [e w]. cbn [norm_weight] in Hw. expose w Hw. expose x Hx.
  unfold RMSNorm_forward, RMSNorm_norm. cbn [eps norm_weight].
  next. next.
  unfold t_mul, bzip, broadcast_shapes. cbn [shape rev app bshape_rev].
  rewrite bdim_clash by assumption. reflexivity.
Qed.

(** A last axis of size 1 broadcasts against the weight. *)
Lemma RMSNorm_run_single n x B T E :
  RMSNorm_wf E n -> shape x = [B; T; 1] ->
  exists y, RMSNorm_forward n x = Some y /\ shape y = [B; T; E].
Proof.
  intros Hw Hx. unfold RMSNorm_wf in Hw.
  destruct n as [e w]. cbn [norm_weight] in Hw. expose w Hw. expose x Hx.
  unfold RMSNorm_forward, RMSNorm_norm. cbn [eps norm_weight].
  next. next. last_call.
  eexists. split; reflexivity.
Qed.

Lemma DillNetBlock_run_single b x B T E :
  DillNetBlock_wf E b -> shape x = [B; T; 1] ->
  mixer_runs (attention_layer b) E B T ->
  exists y, DillNetBlock_forward b x = Some y /\ shape y = [B; T; E].
Proof.
  intros (Hn1 & Hmix & Hn2 & F & H1 & H2 & H3) Hx Hr.
  unfold DillNetBlock_forward.
  destruct (@RMSNorm_run_single (norm1 b) x B T E Hn1 Hx) as (n1 & -> & Hs1).
  cbn [bind].
  destruct (@mixer_run (attention_layer b) n1 B T E Hmix Hs1 Hr)
    as (a & -> & Hsa).
  cbn [bind]. expose a Hsa. expose x Hx.
  next.
  match goal with
  | |- context [RMSNorm_forward (norm2 b) ?t] =>
      destruct (@RMSNorm_run (norm2 b) t B T E Hn2 eq_refl) as (nx & -> & Hnx)
  end.
  cbn [bind].
  erewrite linear_run3; [|exact H1|exact Hnx]. forget_head.
  erewrite linear_run3; [|exact H2|exact Hnx]. forget_head.
  next.
  erewrite linear_run3; [|exact H3|reflexivity]. forget_head.
  unfold dropout.
  last_call.
  eexists. split; reflexivity.
Qed.

(** X12. An input with a single channel is not rejected: the weight of the
    first normalisation broadcasts it to [embed_dim] channels, and
    [DillNet.forward] returns a tensor of shape (batch, time, embed_dim),
    not of the shape of the input. *)
Theorem DillNet_broadcasts_single_channel v E depth hd ffn net x B T :
  DillNet_init v E depth hd ffn = Some net -> shape x = [B; T; 1] ->
  depth = 0 \/ retention_runs E hd B T ->
  exists y, DillNet_forward net x = Some y /\ shape y = [B; T; E].
Proof.
  unfold DillNet_init. intros H Hx Hc.
  apply bind_some in H. destruct H as (bs & Hbs & H).
  apply some_inj in H. subst net.
  unfold DillNet_forward. cbn [blocks final_norm].
  destruct Hc as [->|Hc].
  - cbn in Hbs. apply some_inj in Hbs. subst bs. cbn [run_blocks bind].
    apply RMSNorm_run_single; [apply RMSNorm_init_wf|exact Hx].
  - assert (Hall : Forall (fun b => DillNetBlock_wf E b
                                    /\ mixer_runs (attention_layer b) E B T)
                          bs).
    { eapply Forall_impl; [|eapply mapM_Forall; exact Hbs].
      intros b (i & _ & Hb). apply DillNetBlock_init_wf in Hb.
      destruct Hb as [Hwf Hk]. split; [exact Hwf|].
      destruct (attention_layer b) as [m|r]; cbn [mixer_runs].
      + destruct Hc as (_ & _ & _ & HT). exact HT.
      + destruct Hk as [_ ->]. exact Hc. }
    destruct bs as [|b bs].
    + cbn [run_blocks bind].
      apply RMSNorm_run_single; [apply RMSNorm_init_wf|exact Hx].
    + inversion Hall as [|? ? [Hwf Hr] Hrest]; subst.
      cbn [run_blocks].
      destruct (@DillNetBlock_run_single b x B T E Hwf Hx Hr)
        as (y & -> & Hy).
      cbn [bind].
      destruct (@run_blocks_run bs y B T E Hrest Hy) as (z & -> & Hz).
      cbn [bind].
      apply RMSNorm_run; [apply RMSNorm_init_wf|exact Hz].
Qed.

Lemma DillNet_broadcasts_single_channel_witness :
  match DillNet_init (fun _ _ => 0%R) 8 2 2 None with
  | Some net =>
      exists y, DillNet_forward net (ones [1; 3; 1]) = Some y
                /\ shape y = [1; 3; 8]
  | None => False
  end.
Proof.
  assert (Hrun : ran (DillNet_init (fun _ _ => 0%R) 8 2 2 None) = true)
    by (vm_compute; reflexivity).
  destruct (DillNet_init (fun _ _ => 0%R) 8 2 2 None) as [net|] eqn:En;
    [|discriminate Hrun].
  apply (@DillNet_broadcasts_single_channel (fun _ _ => 0%R) 8 2 2 None net
           (ones [1; 3; 1]) 1 3 En eq_refl).
  right. unfold retention_runs. repeat split; try reflexivity; lia.
Defined.

(** X13. An input whose number of channels is neither [embed_dim] nor 1 is
    rejected by the first normalisation, for a network of any depth with
    [embed_dim] other than 1. *)
Theorem DillNet_rejects_channel_mismatch v E depth hd ffn net x B T E' :
  DillNet_init v E depth hd ffn = Some net -> shape x = [B; T; E'] ->
  E' <> E -> E' <> 1 -> E <> 1 ->
  DillNet_forward net x = None.
Proof.
  unfold DillNet_init. intros H Hx H1 H2 H3.
  apply bind_some in H. destruct H as (bs & Hbs & H).
  apply some_inj in H. subst net.
  unfold DillNet_forward. cbn [blocks final_norm].
  destruct depth as [|d].
  - cbn in Hbs. apply some_inj in Hbs. subst bs. cbn [run_blocks bind].
    apply (@RMSNorm_fails (RMSNorm_init E) x B T E E');
      [apply RMSNorm_init_wf | assumption..].
  - cbn [seq mapM] in Hbs.
    apply bind_some in Hbs. destruct Hbs as (b & Hb & Hbs).
    apply bind_some in Hbs. destruct Hbs as (bs' & _ & Hbs).
    apply some_inj in Hbs. subst bs.
    apply DillNetBlock_init_wf in Hb. destruct Hb as [(Hn1 & _) _].
    cbn [run_blocks]. unfold DillNetBlock_forward.
    rewrite (@RMSNorm_fails (norm1 b) x B T E E') by assumption.
    reflexivity.
Qed.

Lemma DillNet_rejects_channel_mismatch_witness :
  match DillNet_init (fun _ _ => 0%R) 8 2 2 None with
  | Some net => DillNet_forward net (ones [1; 3; 4]) = None
  | None => False
  end.
Proof.
  assert (Hrun : ran (DillNet_init (fun _ _ => 0%R) 8 2 2 None) = true)
    by (vm_compute; reflexivity).
  destruct (DillNet_init (fun _ _ => 0%R) 8 2 2 None) as [net|] eqn:En;
    [|discriminate Hrun].
  apply (@DillNet_rejects_channel_mismatch (fun _ _ => 0%R) 8 2 2 None net
           (ones [1; 3; 4]) 1 3 4 En eq_refl); lia.
Defined.

End ReturnFacts.

(* ------------------------------------------------------------------ *)
(** ** What the rotary encoding computes *)

Module RotaryFacts.
Import Torch Scan Model TorchFacts ScanFacts WfFacts RetentionFacts MambaFacts ShapeFacts ReturnFacts.
Local Open Scope torch_scope.

Lemma even_as_mod (j : nat) : (j mod 2 =? 0) = Nat.even j.
Proof.
  pose proof (InitFacts.odd_as_mod j) as H. unfold Nat.odd in H.
  destruct (j mod 2 =? 0), (Nat.even j); cbn in H; congruence.
Qed.

Lemma even_succ_pair (j : nat) :
  Nat.even j = true -> 1 + 2 * (j / 2) = j + 1.
Proof.
  intros H. apply Nat.even_spec in H. destruct H as [m ->].
  replace (2 * m / 2) with m
    by (apply Nat.div_unique with (r := 0); lia).
  lia.
Qed.

Lemma odd_pred_pair (j : nat) :
  Nat.even j = false -> 0 + 2 * (j / 2) = j - 1.
Proof.
  intros H.
  assert (Ho : Nat.odd j = true) by (unfold Nat.odd; rewrite H; reflexivity).
  apply Nat.odd_spec in Ho. destruct Ho as [m ->].
  replace ((2 * m + 1) / 2) with m
    by (apply Nat.div_unique with (r := 1); lia).
  lia.
Qed.

Lemma half_index (j k : nat) :
  j < k + k -> (if j <? k then j else j - k) = j mod k.
Proof.
  intros H. destruct (Nat.ltb_spec j k) as [Hlt|Hge].
  - symmetry. apply Nat.mod_small. exact Hlt.
  - apply Nat.mod_unique with (q := 1); lia.
Qed.

(** What [RotaryEmbedding.forward] computes on an even last axis:
    element [j] at time [t] is turned by the angle [t * inv_freq[j mod
    (dim/2)]], together with its neighbour in the stride-2 pair. *)
Lemma rotary_entries r x B h T d :
  RotaryEmbedding_wf d r -> shape x = [B; h; T; d] -> Nat.even d = true ->
  exists y, RotaryEmbedding_forward r x = Some y /\ shape y = [B; h; T; d]
   /\ forall b hh t j, b < B -> hh < h -> t < T -> j < d ->
      entry y [b; hh; t; j]
      = Rplus
          (Rmult (entry x [b; hh; t; j])
                 (cos (Rmult (INR t) (entry (inv_freq r) [j mod (d / 2)]))))
          (Rmult (if Nat.even j then Ropp (entry x [b; hh; t; j + 1])
                  else entry x [b; hh; t; j - 1])
                 (sin (Rmult (INR t) (entry (inv_freq r) [j mod (d / 2)])))).
Proof.
  intros Hr Hx Hev. unfold RotaryEmbedding_wf in Hr.
  destruct r as [fr]. cbn [inv_freq] in Hr. expose fr Hr. expose x Hx.
  pose proof (even_half d Hev) as Hd.
  set (k := d / 2) in *.
  assert (Hk1 : (d + 1) / 2 = k).
  { symmetry. apply Nat.div_unique with (r := 1); lia. }
  assert (Hc1 : (slice_count d None None + 2 - 1) / 2 = k).
  { unfold slice_count, slice_hi, slice_lo. rewrite <- Hk1. f_equal. lia. }
  assert (Hc2 : (slice_count d (Some 1%Z) None + 2 - 1) / 2 = k).
  { unfold slice_count, slice_hi, slice_lo, norm_index.
    destruct (Z.ltb_spec 1 0); [lia|].
    destruct (Nat.eq_dec k 0) as [Hk0|Hk0].
    - rewrite Hd, Hk0. reflexivity.
    - symmetry. apply Nat.div_unique with (r := 0); lia. }
  unfold RotaryEmbedding_forward. cbn [shape rev app inv_freq].
  rewrite Hk1.
  next_keep. next_keep. next_keep. next_keep. next_keep. next_keep.
  next_keep. next_keep.
  rewrite Hc1, Hc2. rewrite <- Hd.
  next_keep. next_keep.
  replace (numel [k; 2]) with d by (cbn [numel fold_right]; lia).
  next_keep. next_keep. last_keep.
  eexists. split; [reflexivity|]. split; [reflexivity|].
  intros b hh t j Hb Hh Ht Hj.
  cbn [entry bidx bidx_aligned length Nat.sub skipn app nth firstn upd_nth
       drop_nth].
  bsel_all.
  cbn [unravel numel fold_right last removelast app nth].
  rewrite !Nat.mul_1_r, Nat.div_1_r.
  assert (Hlo1 : slice_lo d (Some 1%Z) = 1).
  { unfold slice_lo, norm_index. destruct (Z.ltb_spec 1 0); lia. }
  rewrite Hlo1. change (slice_lo d None) with 0.
  rewrite <- INR_IZR_INZ.
  assert (Hang : (if j <? k then Rmult (INR t) (f [j])
                  else Rmult (INR t) (f [j - k]))
                 = Rmult (INR t) (f [j mod k])).
  { rewrite <- (@half_index j k) by lia. destruct (j <? k); reflexivity. }
  rewrite Hang. rewrite even_as_mod.
  destruct (Nat.even j) eqn:Hj2.
  - rewrite (@even_succ_pair j Hj2). reflexivity.
  - rewrite (@odd_pred_pair j Hj2). reflexivity.
Qed.

(** X14. [RotaryEmbedding.forward] on an even last axis: element [j] at time
    [t] becomes [x_j * cos a + n_j * sin a] with the angle
    [a = t * inv_freq[j mod (dim/2)]], where [n_j] is [-x_{j+1}] for even
    [j] and [x_{j-1}] for odd [j]. The angle follows the two concatenated
    copies of the frequencies, the neighbour the stride-2 pairs. *)
Theorem rotary_entry_formula dim r x B h T :
  RotaryEmbedding_init dim = Some r -> shape x = [B; h; T; dim] ->
  Nat.even dim = true ->
  exists y,
    RotaryEmbedding_forward r x = Some y
    /\ forall b hh t j, b < B -> hh < h -> t < T -> j < dim ->
         entry y [b; hh; t; j]
         = Rplus
             (Rmult (entry x [b; hh; t; j])
                    (cos (Rmult (INR t)
                                (entry (inv_freq r) [j mod (dim / 2)]))))
             (Rmult (if Nat.even j then Ropp (entry x [b; hh; t; j + 1])
                     else entry x [b; hh; t; j - 1])
                    (sin (Rmult (INR t)
                                (entry (inv_freq r) [j mod (dim / 2)])))).
Proof.
  intros Hr Hx Hev. apply RotaryEmbedding_init_wf in Hr.
  destruct (@rotary_entries r x B h T dim Hr Hx Hev) as (y & Hy & _ & He).
  exists y. split; [exact Hy|exact He].
Qed.

Lemma rotary_entry_formula_witness :
  match RotaryEmbedding_init 4 with
  | Some r =>
      exists y,
        RotaryEmbedding_forward r e0_rows = Some y
        /\ entry y [0; 0; 1; 1]
           = Rplus
               (Rmult (entry e0_rows [0; 0; 1; 1])
                      (cos (Rmult (INR 1) (entry (inv_freq r) [1 mod (4 / 2)]))))
               (Rmult (entry e0_rows [0; 0; 1; 0])
                      (sin (Rmult (INR 1) (entry (inv_freq r) [1 mod (4 / 2)]))))
  | None => False
  end.
Proof.
  destruct (RotaryEmbedding_init 4) as [r|] eqn:Er; [|discriminate Er].
  destruct (@rotary_entry_formula 4 r e0_rows 1 1 2 Er eq_refl eq_refl)
    as (y & Hy & He).
  exists y. split; [exact Hy|].
  apply (He 0 0 1 1); lia.
Defined.

(** X15. At time 0 the angle is 0: [RotaryEmbedding.forward] returns the
    first time step of every batch and head unchanged. *)
Theorem rotary_keeps_first_position dim r x B h T :
  RotaryEmbedding_init dim = Some r -> shape x = [B; h; T; dim] ->
  Nat.even dim = true ->
  exists y,
    RotaryEmbedding_forward r x = Some y
    /\ forall b hh j, b < B -> hh < h -> 0 < T -> j < dim ->
         entry y [b; hh; 0; j] = entry x [b; hh; 0; j].
Proof.
  intros Hr Hx Hev. apply RotaryEmbedding_init_wf in Hr.
  destruct (@rotary_entries r x B h T dim Hr Hx Hev) as (y & Hy & _ & He).
  exists y. split; [exact Hy|].
  intros b hh j Hb Hh HT Hj. rewrite He by assumption.
  cbn [INR]. rewrite Rmult_0_l, cos_0, sin_0. ring.
Qed.

Lemma rotary_keeps_first_position_witness :
  match RotaryEmbedding_init 4 with
  | Some r =>
      exists y,
        RotaryEmbedding_forward r e0_rows = Some y
        /\ entry y [0; 0; 0; 0] = entry e0_rows [0; 0; 0; 0]
  | None => False
  end.
Proof.
  destruct (RotaryEmbedding_init 4) as [r|] eqn:Er; [|discriminate Er].
  destruct (@rotary_keeps_first_position 4 r e0_rows 1 1 2 Er eq_refl eq_refl)
    as (y & Hy & He).
  exists y. split; [exact Hy|].
  apply (He 0 0 0); lia.
Defined.

(** X16. With a head of size 2 there is one frequency and both elements of
    the only pair get the same angle: [RotaryEmbedding.forward] is then a
    rotation of the pair and keeps its squared norm. *)
Theorem rotary_dim2_preserves_norm r x B h T :
  RotaryEmbedding_init 2 = Some r -> shape x = [B; h; T; 2] ->
  exists y,
    RotaryEmbedding_forward r x = Some y
    /\ forall b hh t, b < B -> hh < h -> t < T ->
         pair_norm2 y [b; hh; t] 0 = pair_norm2 x [b; hh; t] 0.
Proof.
  intros Hr Hx. apply RotaryEmbedding_init_wf in Hr.
  destruct (@rotary_entries r x B h T 2 Hr Hx eq_refl) as (y & Hy & _ & He).
  exists y. split; [exact Hy|].
  intros b hh t Hb Hh Ht. unfold pair_norm2.
  cbn [app Nat.mul Nat.add].
  rewrite (He b hh t 0), (He b hh t 1) by (assumption || lia).
  change (2 / 2) with 1. change (0 mod 1) with 0. change (1 mod 1) with 0.
  cbn [Nat.even Nat.add Nat.sub].
  set (a := Rmult (INR t) (entry (inv_freq r) [0])).
  pose proof (sin2_cos2 a) as Hsc. unfold Rsqr in *.
  set (x0 := entry x [b; hh; t; 0]) in *.
  set (x1 := entry x [b; hh; t; 1]) in *.
  nra.
Qed.

Lemma rotary_dim2_preserves_norm_witness :
  match RotaryEmbedding_init 2 with
  | Some r =>
      exists y,
        RotaryEmbedding_forward r (ones [1; 1; 3; 2]) = Some y
        /\ pair_norm2 y [0; 0; 2] 0 = pair_norm2 (ones [1; 1; 3; 2]) [0; 0; 2] 0
  | None => False
  end.
Proof.
  destruct (RotaryEmbedding_init 2) as [r|] eqn:Er; [|discriminate Er].
  destruct (@rotary_dim2_preserves_norm r (ones [1; 1; 3; 2]) 1 1 3 Er eq_refl)
    as (y & Hy & He).
  exists y. split; [exact Hy|].
  apply (He 0 0 2); lia.
Defined.

(** X17. The frequencies [RotaryEmbedding.__init__] stores: the first is 1,
    all are positive and at most 1, and they decrease strictly. *)
Theorem inv_freq_range dim r :
  RotaryEmbedding_init dim = Some r -> 1 <= dim ->
  shape (inv_freq r) = [(dim + 1) / 2]
  /\ entry (inv_freq r) [0] = 1%R
  /\ forall i, i < (dim + 1) / 2 ->
       (0 < entry (inv_freq r) [i] <= 1)%R
       /\ (S i < (dim + 1) / 2 ->
           (entry (inv_freq r) [S i] < entry (inv_freq r) [i])%R).
Proof.
  unfold RotaryEmbedding_init, arange_step. cbn [Nat.eqb bind].
  intros H Hd. apply some_inj in H. subst r.
  cbn [inv_freq tmap float shape entry nth].
  assert (Hdim : (0 < INR dim)%R) by (apply lt_0_INR; lia).
  assert (Hln : (0 < ln 10000)%R).
  { rewrite <- ln_1. apply ln_increasing; lra. }
  assert (Hpow : forall i,
             (1 <= Rpower 10000 (IZR (Z.of_nat (0 + 2 * i)) / INR dim))%R).
  { intros i. unfold Rpower.
    assert (Hi : (0 <= IZR (Z.of_nat (0 + 2 * i)) / INR dim)%R).
    { apply Rmult_le_pos; [apply IZR_le; lia|].
      apply Rlt_le. apply Rinv_0_lt_compat. exact Hdim. }
    rewrite <- exp_0 at 1.
    destruct (Rle_lt_or_eq_dec _ _ Hi) as [Hlt|Heq].
    - apply Rlt_le. apply exp_increasing. nra.
    - rewrite <- Heq. rewrite Rmult_0_l. lra. }
  split; [|split].
  - f_equal. f_equal. lia.
  - cbn [Nat.mul Nat.add Z.of_nat]. unfold Rdiv at 2. rewrite Rmult_0_l.
    rewrite Rpower_O by lra. lra.
  - intros i _. pose proof (Hpow i) as Hi. split.
    + split.
      * apply Rdiv_lt_0_compat; lra.
      * apply Rmult_le_reg_r with (r := Rpower 10000 (IZR (Z.of_nat (0 + 2 * i)) / INR dim));
          [lra|].
        unfold Rdiv. rewrite Rmult_assoc, Rinv_l by lra. lra.
    + intros _. pose proof (Hpow (S i)) as HSi.
      assert (Hlt : (Rpower 10000 (IZR (Z.of_nat (0 + 2 * i)) / INR dim)
                     < Rpower 10000 (IZR (Z.of_nat (0 + 2 * S i)) / INR dim))%R).
      { apply Rpower_lt; [lra|].
        apply Rmult_lt_compat_r; [apply Rinv_0_lt_compat; exact Hdim|].
        apply IZR_lt. lia. }
      unfold Rdiv at 1 3. rewrite !Rmult_1_l.
      apply Rinv_lt_contravar; [|exact Hlt].
      apply Rmult_lt_0_compat; lra.
Qed.

Lemma inv_freq_range_witness :
  match RotaryEmbedding_init 4 with
  | Some r =>
      shape (inv_freq r) = [2]
      /\ entry (inv_freq r) [0] = 1%R
      /\ Rlt (entry (inv_freq r) [1]) (entry (inv_freq r) [0])
  | None => False
  end.
Proof.
  destruct (RotaryEmbedding_init 4) as [r|] eqn:Er; [|discriminate Er].
  destruct (@inv_freq_range 4 r Er ltac:(lia)) as (Hs & H0 & Hi).
  split; [exact Hs|]. split; [exact H0|].
  apply (proj2 (Hi 0 ltac:(cbn; lia))). cbn. lia.
Defined.

End RotaryFacts.

(* ------------------------------------------------------------------ *)
(** ** What the normalisation computes *)

Module NormFacts.
Import Torch Scan Model TorchFacts ScanFacts WfFacts RetentionFacts MambaFacts ShapeFacts.
Local Open Scope torch_scope.

Lemma rsum_nonneg (n : nat) (f : nat -> R) :
  (forall k, k < n -> (0 <= f k)%R) -> (0 <= rsum n f)%R.
Proof.
  induction n as [|n IH]; intros H; cbn [rsum]; [lra|].
  assert (0 <= rsum n f)%R by (apply IH; intros; apply H; lia).
  assert (0 <= f n)%R by (apply H; lia). lra.
Qed.

Lemma rsum_ge_term (n : nat) (f : nat -> R) (j : nat) :
  (forall k, k < n -> (0 <= f k)%R) -> j < n -> (f j <= rsum n f)%R.
Proof.
  induction n as [|n IH]; intros H Hj; [lia|]. cbn [rsum].
  assert (0 <= rsum n f)%R by (apply rsum_nonneg; intros; apply H; lia).
  assert (0 <= f n)%R by (apply H; lia).
  destruct (Nat.eq_dec j n) as [->|Hne]; [lra|].
  assert (f j <= rsum n f)%R by (apply IH; [intros; apply H; lia|lia]).
  lra.
Qed.


Lemma rsqrt_sqr (v : R) : (0 < v)%R -> (rsqrt v * rsqrt v = 1 / v)%R.
Proof.
  intros Hv. unfold rsqrt.
  assert (Hs : (0 < sqrt v)%R) by (apply sqrt_lt_R0; exact Hv).
  pose proof (sqrt_sqrt v (Rlt_le _ _ Hv)) as Hss.
  field_simplify_eq; [|split; lra]. lra.
Qed.

Lemma RMSNorm_entries n x B T E :
  RMSNorm_wf E n -> shape x = [B; T; E] ->
  exists y, RMSNorm_forward n x = Some y /\ shape y = [B; T; E]
    /\ forall b t j, b < B -> t < T -> j < E ->
       entry y [b; t; j]
       = (entry x [b; t; j] * rsqrt (mean_square x [b; t] E + eps n)
          * entry (norm_weight n) [j])%R.
Proof.
  intros Hw Hx. unfold RMSNorm_wf in Hw.
  destruct n as [e w]. cbn [norm_weight] in Hw. expose w Hw. expose x Hx.
  unfold RMSNorm_forward, RMSNorm_norm. cbn [eps norm_weight].
  next_keep. next_keep. last_keep.
  eexists. split; [reflexivity|]. split; [reflexivity|].
  intros b t j Hb Ht Hj.
  cbn [entry bidx bidx_aligned length Nat.sub skipn app nth firstn upd_nth
       drop_nth removelast].
  change (1 =? 1) with true. cbv iota.
  bsel_all. reflexivity.
Qed.

Lemma mean_square_nonneg x pre n : 1 <= n -> (0 <= mean_square x pre n)%R.
Proof.
  intros Hn. unfold mean_square.
  assert (0 < INR n)%R by (apply lt_0_INR; lia).
  apply Rmult_le_pos; [|apply Rlt_le, Rinv_0_lt_compat; assumption].
  apply rsum_nonneg. intros k _. apply pow2_ge_0.
Qed.

(** X18. [RMSNorm.forward] bounds its output whatever the scale of the
    input: with a positive [eps], every output entry is in absolute
    value at most [sqrt(dim)] times its weight, that is, its square is at
    most [dim] times the square of the weight. *)
Theorem RMSNorm_output_bounded n x B T E :
  RMSNorm_wf E n -> (0 < eps n)%R -> shape x = [B; T; E] ->
  exists y, RMSNorm_forward n x = Some y /\ shape y = [B; T; E]
    /\ forall b t j, b < B -> t < T -> j < E ->
       (entry y [b; t; j] ^ 2 <= INR E * entry (norm_weight n) [j] ^ 2)%R.
Proof.
  intros Hw He Hx.
  destruct (@RMSNorm_entries n x B T E Hw Hx) as (y & Hy & Hs & Hen).
  exists y. split; [exact Hy|]. split; [exact Hs|].
  intros b t j Hb Ht Hj. rewrite Hen by assumption.
  assert (HE : (0 < INR E)%R) by (apply lt_0_INR; lia).
  pose proof (@mean_square_nonneg x [b; t] E ltac:(lia)) as Hms.
  set (ms := mean_square x [b; t] E) in *.
  assert (Hv : (0 < ms + eps n)%R) by lra.
  pose proof (rsqrt_sqr Hv) as Hr.
  set (c := rsqrt (ms + eps n)) in *.
  set (w := entry (norm_weight n) [j]).
  set (xj := entry x [b; t; j]).
  assert (Hx2 : (xj ^ 2 <= INR E * ms)%R).
  { unfold ms, mean_square. unfold Rdiv.
    rewrite <- Rmult_assoc, (Rmult_comm (INR E)), Rmult_assoc.
    rewrite Rinv_r by lra. rewrite Rmult_1_r.
    apply (@rsum_ge_term E (fun k => (entry x ([b; t] ++ [k]) ^ 2)%R) j);
      [intros k _; apply pow2_ge_0 | exact Hj]. }
  replace ((xj * c * w) ^ 2)%R with (xj ^ 2 * (c * c) * w ^ 2)%R by ring.
  rewrite Hr.
  assert (Hq : (xj ^ 2 * (1 / (ms + eps n)) <= INR E)%R).
  { unfold Rdiv. rewrite Rmult_1_l.
    apply Rmult_le_reg_r with (r := (ms + eps n)%R); [exact Hv|].
    rewrite Rmult_assoc, Rinv_l by lra. nra. }
  assert (Hw2 : (0 <= w ^ 2)%R) by apply pow2_ge_0.
  nra.
Qed.

Lemma RMSNorm_output_bounded_witness :
  exists y, RMSNorm_forward (RMSNorm_init 4) (ones [1; 2; 4]) = Some y
    /\ shape y = [1; 2; 4]
    /\ forall b t j, b < 1 -> t < 2 -> j < 4 ->
       Rle (entry y [b; t; j] ^ 2)
           (Rmult (INR 4) (entry (norm_weight (RMSNorm_init 4)) [j] ^ 2)).
Proof.
  apply (@RMSNorm_output_bounded (RMSNorm_init 4) (ones [1; 2; 4]) 1 2 4);
    [reflexivity | cbn [eps RMSNorm_init]; lra | reflexivity].
Defined.



End NormFacts.

(* ------------------------------------------------------------------ *)
(** ** Decay weights, the depthwise convolution and the state matrix *)

Module MixerFacts.
Import Torch Scan Model TorchFacts ScanFacts WfFacts RetentionFacts MambaFacts ShapeFacts.
Local Open Scope torch_scope.

Lemma sigmoid_pos (x : R) : (0 < sigmoid x)%R.
Proof.
  unfold sigmoid. pose proof (exp_pos (- x)).
  apply Rdiv_lt_0_compat; lra.
Qed.

(** X20. The decay weights of [Retention.forward] never amplify a score:
    every weight lies in [0, 1], it is 1 wherever the key is not before the
    query, and it does not increase as the query moves one step further
    from the key. *)
Theorem retention_decay_range self T :
  shape (gamma_param self) = [heads self] ->
  exists gamma diff t_w,
    decay self T = Some (gamma, diff, t_w)
    /\ shape t_w = [heads self; T; T]
    /\ forall h i j, h < heads self -> i < T -> j < T ->
         (0 <= entry t_w [h; i; j] <= 1)%R
         /\ (i <= j -> entry t_w [h; i; j] = 1%R)
         /\ (S i < T ->
             (entry t_w [h; S i; j] <= entry t_w [h; i; j])%R).
Proof.
  intros Hg.
  destruct (@decay_run self T Hg) as (diff & t_w & Hd & Hs & He).
  exists (tmap sigmoid (gamma_param self)), diff, t_w.
  split; [exact Hd|]. split; [exact Hs|].
  intros h i j Hh Hi Hj.
  pose proof (sigmoid_pos (entry (gamma_param self) [h])) as Hsg.
  assert (Hmono : forall a b : R, (a <= b)%R -> (exp a <= exp b)%R).
  { intros a b [Hab| ->]; [apply Rlt_le, exp_increasing; exact Hab|lra]. }
  split; [|split].
  - rewrite He by assumption. split; [apply Rlt_le, exp_pos|].
    rewrite <- exp_0. apply Hmono.
    assert (Hz : (0 <= IZR (Z.max 0 (Z.of_nat i - Z.of_nat j)))%R)
      by (apply IZR_le; lia).
    nra.
  - intros Hij. rewrite He by assumption.
    replace (Z.max 0 (Z.of_nat i - Z.of_nat j)) with 0%Z by lia.
    rewrite Rmult_0_r. apply exp_0.
  - intros HSi. rewrite !He by assumption.
    apply Hmono.
    assert (Hz : (IZR (Z.max 0 (Z.of_nat i - Z.of_nat j))
                  <= IZR (Z.max 0 (Z.of_nat (S i) - Z.of_nat j)))%R)
      by (apply IZR_le; lia).
    nra.
Qed.

Lemma retention_decay_range_witness :
  match Retention_init (fun _ _ => 0%R) 4 2 with
  | Some self =>
      exists gamma diff t_w,
        decay self 3 = Some (gamma, diff, t_w)
        /\ shape t_w = [heads self; 3; 3]
        /\ Rle 0 (entry t_w [1; 2; 0])
        /\ Rle (entry t_w [1; 2; 0]) (entry t_w [1; 1; 0])
        /\ Rle (entry t_w [1; 1; 0]) 1
        /\ entry t_w [1; 1; 2] = 1%R
  | None => False
  end.
Proof.
  destruct (Retention_init (fun _ _ => 0%R) 4 2) as [self|] eqn:Ei;
    [|discriminate Ei].
  pose proof (Retention_init_wf _ _ _ Ei) as (_ & _ & _ & _ & _ & _ & Hg & _).
  pose proof (Retention_init_heads _ _ _ Ei) as Hh.
  destruct (@retention_decay_range self 3 Hg) as (gamma & diff & t_w & Hd & Hs & He).
  exists gamma, diff, t_w. split; [exact Hd|]. split; [exact Hs|].
  split; [apply (He 1 2 0); rewrite ?Hh; lia|].
  split; [apply (He 1 1 0); rewrite ?Hh; lia|].
  split; [apply (He 1 1 0); rewrite ?Hh; lia|].
  apply (He 1 1 2); rewrite ?Hh; lia.
Defined.

(** With [groups = embed_dim] each channel has its own filter. *)
Lemma conv_stage_entry_depthwise self x x' T b t c :
  MambaBlock_wf self ->
  (forall j, j < T -> entry x [b; j; c] = entry x' [b; j; c]) ->
  conv_stage_entry self x T b t c = conv_stage_entry self x' T b t c.
Proof.
  intros Hwf Hag.
  destruct Hwf as (_ & (Hg0 & _) & Hin & Hout & Hgr & _).
  unfold conv_stage_entry. rewrite Hin, Hout, Hgr.
  rewrite Hgr in Hg0. rewrite Nat.div_same by exact Hg0.
  f_equal. cbn [rsum]. f_equal.
  apply rsum_ext. intros k Hk. f_equal.
  destruct (Nat.leb_spec (d_conv self - 1) (t + k)) as [H1|H1];
    [|reflexivity].
  destruct (Nat.ltb_spec (t + k) (d_conv self - 1 + T)) as [H2|H2];
    [|reflexivity].
  cbn [andb]. rewrite Nat.div_1_r, Nat.mul_1_r, Nat.add_0_r.
  apply Hag. lia.
Qed.

(** X21. The convolution stage of [MambaBlock],
    [conv1d(x_in.transpose(1, 2))[:, :, :T].transpose(1, 2)], is
    depthwise and per sample: its value in channel [c] of sample [b]
    depends only on channel [c] of sample [b] of [x_in]. *)
Theorem conv_stage_is_depthwise self x_in x_in' B T b c :
  MambaBlock_wf self -> 1 <= d_conv self -> 1 <= T ->
  shape x_in = [B; T; embed_dim self] ->
  shape x_in' = [B; T; embed_dim self] ->
  (forall j, j < T -> entry x_in [b; j; c] = entry x_in' [b; j; c]) ->
  exists y y',
    conv_stage self x_in T = Some y
    /\ conv_stage self x_in' T = Some y'
    /\ forall t, entry y [b; t; c] = entry y' [b; t; c].
Proof.
  intros Hwf HK HT Hx Hx' Hag.
  destruct (@conv_stage_run self x_in B T Hwf Hx HK HT) as (y & Hy & _ & He).
  destruct (@conv_stage_run self x_in' B T Hwf Hx' HK HT)
    as (y' & Hy' & _ & He').
  exists y, y'. split; [exact Hy|]. split; [exact Hy'|].
  intros t. rewrite He, He'. apply conv_stage_entry_depthwise; assumption.
Qed.

Lemma conv_stage_is_depthwise_witness :
  match MambaBlock_init (fun _ _ => 0%R) 2 16 4 None with
  | Some self =>
      exists y y',
        conv_stage self (ones [1; 3; 2]) 3 = Some y
        /\ conv_stage self
             (mkT [1; 3; 2] (fun idx => if nth 2 idx 0 =? 0 then 5%R else 1%R))
             3 = Some y'
        /\ forall t, entry y [0; t; 1] = entry y' [0; t; 1]
  | None => False
  end.
Proof.
  destruct (MambaBlock_init (fun _ _ => 0%R) 2 16 4 None) as [self|] eqn:Ei;
    [|discriminate Ei].
  destruct (MambaBlock_init_wf _ _ _ _ _ Ei) as (Hwf & HE & HN & HK).
  apply (@conv_stage_is_depthwise self (ones [1; 3; 2])
           (mkT [1; 3; 2] (fun idx => if nth 2 idx 0 =? 0 then 5%R else 1%R))
           1 3 0 1 Hwf).
  - lia.
  - lia.
  - rewrite HE. reflexivity.
  - rewrite HE. reflexivity.
  - intros j Hj. reflexivity.
Defined.

(** X22. [MambaBlock.__init__] starts the state matrix at
    [A = -exp(A_log) = -(1, 2, ..., d_state)], the same for every
    channel. *)
Theorem MambaBlock_init_A v E ds dc dr m :
  MambaBlock_init v E ds dc dr = Some m ->
  shape (A_log m) = [1; ds]
  /\ forall n, n < ds ->
       entry (t_neg (tmap exp (A_log m))) [0; n] = Ropp (INR (n + 1)).
Proof.
  unfold MambaBlock_init. intros H.
  inv_bind H.
  unfold arange_step in H. cbn [Nat.eqb bind] in H.
  unfold unsqueeze, rank in H. cbn [float tmap shape length] in H.
  norm_dims_in H. cbn [bind firstn skipn app] in H.
  apply some_inj in H. subst m.
  cbn [A_log tmap t_neg shape entry drop_nth firstn skipn app nth].
  split.
  - f_equal. f_equal. rewrite Nat.div_1_r. lia.
  - intros n Hn. f_equal. cbn [float tmap entry nth].
    rewrite <- INR_IZR_INZ.
    rewrite exp_ln by (apply lt_0_INR; lia).
    f_equal. lia.
Qed.

Lemma MambaBlock_init_A_witness :
  match MambaBlock_init (fun _ _ => 0%R) 8 16 4 None with
  | Some m =>
      shape (A_log m) = [1; 16]
      /\ entry (t_neg (tmap exp (A_log m))) [0; 15] = Ropp (INR (15 + 1))
  | None => False
  end.
Proof.
  destruct (MambaBlock_init (fun _ _ => 0%R) 8 16 4 None) as [m|] eqn:Em;
    [|discriminate Em].
  destruct (@MambaBlock_init_A _ _ _ _ _ _ Em) as [Hs He].
  split; [exact Hs|]. apply He. lia.
Defined.

End MixerFacts.

(* ------------------------------------------------------------------ *)
(** ** Time steps and causality of the state-space mixer *)

Module CausalFacts.
Import Torch Scan Model TorchFacts ScanFacts WfFacts RetentionFacts MambaFacts ShapeFacts ScanLaws NormFacts.
Local Open Scope torch_scope.

Lemma div_mod_step (M t q : nat) :
  q < M -> (t * M + q) / M = t /\ (t * M + q) mod M = q.
Proof.
  intros H. split.
  - symmetry. apply Nat.div_unique with (r := q); lia.
  - symmetry. apply Nat.mod_unique with (q := t); lia.
Qed.

Lemma flat_bound (Bn E N b d n : nat) :
  b < Bn -> d < E -> n < N -> (b * E + d) * N + n < Bn * E * N.
Proof.
  intros Hb Hd Hn.
  assert (H1 : b * E + d + 1 <= Bn * E) by nia.
  assert (H2 : (b * E + d + 1) * N <= Bn * E * N)
    by (apply Nat.mul_le_mono_r; exact H1).
  lia.
Qed.

(** [view(T, -1, N)] of a (T, B, D, N) tensor puts (b, d) at [b * D + d],
    and [view(T, B, D, N)] takes it back. *)
Lemma unravel_ravel_flat (T Bn E N t b d n : nat) :
  b < Bn -> d < E -> n < N ->
  unravel [T; Bn; E; N] (ravel [T; Bn * E; N] [t; b * E + d; n]) = [t; b; d; n].
Proof.
  intros Hb Hd Hn. cbn [ravel unravel numel fold_right].
  rewrite !Nat.mul_1_r, !Nat.add_0_r.
  assert (Hq : (b * E + d) * N + n < Bn * E * N) by (apply flat_bound; assumption).
  replace (Bn * (E * N)) with (Bn * E * N) by lia.
  destruct (@div_mod_step (Bn * E * N) t ((b * E + d) * N + n) Hq) as [-> ->].
  replace ((b * E + d) * N + n) with (b * (E * N) + (d * N + n)) by lia.
  assert (Hq2 : d * N + n < E * N) by nia.
  destruct (@div_mod_step (E * N) b (d * N + n) Hq2) as [-> ->].
  destruct (@div_mod_step N d n Hn) as [-> ->].
  rewrite Nat.div_1_r. reflexivity.
Qed.

Lemma unravel_ravel_unflat (T Bn E N t b d n : nat) :
  b < Bn -> d < E -> n < N ->
  unravel [T; Bn * E; N] (ravel [T; Bn; E; N] [t; b; d; n])
  = [t; b * E + d; n].
Proof.
  intros Hb Hd Hn. cbn [ravel unravel numel fold_right].
  rewrite !Nat.mul_1_r, !Nat.add_0_r.
  replace (t * (Bn * (E * N)) + (b * (E * N) + (d * N + n)))
    with (t * (Bn * E * N) + ((b * E + d) * N + n)) by lia.
  assert (Hq : (b * E + d) * N + n < Bn * E * N) by (apply flat_bound; assumption).
  destruct (@div_mod_step (Bn * E * N) t ((b * E + d) * N + n) Hq) as [-> ->].
  destruct (@div_mod_step N (b * E + d) n Hn) as [-> ->].
  rewrite Nat.div_1_r. reflexivity.
Qed.

(** The scan on a pair of one shape: shapes and the two lowest positions. *)
Lemma associative_scan_low_any (A : Type) (mul add : A -> A -> A)
      (a b : tensor A) n rest :
  shape a = n :: rest -> shape b = n :: rest -> 1 <= n ->
  exists a' b',
    associative_scan mul add (a, b) = Some (a', b')
    /\ shape a' = n :: rest /\ shape b' = n :: rest
    /\ forall r, in_shape rest r ->
         elem_at (a', b') 0 r = elem_at (a, b) 0 r
         /\ (2 <= n ->
             elem_at (a', b') 1 r
             = combine mul add (elem_at (a, b) 0 r)
                 (combine mul add (elem_at (a, b) 0 r) (elem_at (a, b) 1 r))).
Proof.
  intros Ha Hb Hn.
  destruct (Nat.eq_dec n 1) as [->|Hn1].
  - exists a, b. split.
    + unfold associative_scan, shape0, clone. cbn [fst snd].
      rewrite Ha. reflexivity.
    + split; [assumption|]. split; [assumption|].
      intros r _. split; [reflexivity|lia].
  - destruct (@associative_scan_low A mul add a b n rest Ha Hb)
      as (a' & b' & E & Ha' & Hb' & He); [lia|].
    exists a', b'. split; [exact E|]. split; [assumption|].
    split; [assumption|].
    intros r Hr. destruct (He r Hr) as [H0 H1]. split; [exact H0|].
    intros _. exact H1.
Qed.

Lemma flat_row_bound (Bn E b d : nat) : b < Bn -> d < E -> b * E + d < Bn * E.
Proof. intros Hb Hd. nia. Qed.

(** What [selective_scan] returns at the first two time steps, in terms of
    its [deltaA] and [deltaB_u]. *)
Lemma selective_scan_entries self u delta B C Bn T E :
  shape (A_log self) = [1; d_state self] ->
  shape u = [Bn; T; E] -> shape delta = [Bn; T; E] ->
  shape B = [Bn; T; d_state self] -> shape C = [Bn; T; d_state self] ->
  1 <= T -> 1 <= d_state self ->
  exists sl,
    selective_scan_locals self u delta B C = Some sl
    /\ shape (s_y sl) = [Bn; T; E]
    /\ forall b d, b < Bn -> d < E ->
         entry (s_y sl) [b; 0; d]
         = rsum (d_state self)
             (fun n => Rmult (entry (s_deltaB_u sl) [b; 0; d; n])
                             (entry C [b; 0; n]))
         /\ (2 <= T ->
             entry (s_y sl) [b; 1; d]
             = rsum (d_state self)
                 (fun n =>
                    Rmult
                      (Rplus
                         (Rplus (Rmult (entry (s_deltaA sl) [b; 1; d; n])
                                       (entry (s_deltaB_u sl) [b; 0; d; n]))
                                (entry (s_deltaB_u sl) [b; 1; d; n]))
                         (Rmult (Rmult (entry (s_deltaA sl) [b; 1; d; n])
                                       (entry (s_deltaA sl) [b; 0; d; n]))
                                (entry (s_deltaB_u sl) [b; 0; d; n])))
                      (entry C [b; 1; n]))).
Proof.
  intros HA Hu Hd HB HC HT HN.
  unfold selective_scan_locals. rewrite Hu.
  expose u Hu. expose delta Hd. expose B HB. expose C HC.
  destruct (A_log self) as [sA fA] eqn:EA. cbn [shape] in HA. subst sA.
  set (N := d_state self) in *.
  next_keep. next_keep. next_keep. next_keep. next_keep. next_keep.
  next_keep. next_keep.
  unfold contiguous.
  rewrite !(@view_flat_run _ _ T Bn E N) by (reflexivity || assumption).
  cbn [bind].
  edestruct (@associative_scan_low_any R Rmult Rplus)
    as (a' & ys & Hscan & _ & Hys & Hlow);
    [| | | rewrite Hscan]; [reflexivity | reflexivity | exact HT |].
  cbn [bind].
  change [Z.of_nat T; Z.of_nat Bn; Z.of_nat E; Z.of_nat N]
    with (map Z.of_nat [T; Bn; E; N]).
  erewrite view_nat_run; [|exact Hys|cbn [numel fold_right shape]; ring].
  cbn [bind].
  next_keep. next_keep. next_keep. next_keep.
  eexists. split; [reflexivity|]. split; [reflexivity|].
  intros b d Hb Hd.
  cbn [s_y s_deltaA s_deltaB_u entry tmap].
  split.
  - apply rsum_ext. intros n Hn.
    assert (Hr : in_shape [Bn * E; N] [b * E + d; n]).
    { cbn [in_shape]. split; [apply flat_row_bound; assumption|].
      split; [exact Hn|exact I]. }
    destruct (Hlow _ Hr) as [H0 _].
    unfold elem_at in H0. apply pair_equal_spec in H0.
    destruct H0 as [_ H0]. cbn [fst snd entry] in H0.
    cbn [app bidx bidx_aligned length Nat.sub skipn nth].
    change (1 =? 1) with true. cbv iota. bsel_all.
    rewrite unravel_ravel_unflat by assumption.
    rewrite H0. rewrite unravel_ravel_flat by assumption.
    cbn [nth bidx bidx_aligned length Nat.sub skipn app].
    change (1 =? 1) with true. cbv iota. bsel_all.
    reflexivity.
  - intros HT2. apply rsum_ext. intros n Hn.
    assert (Hr : in_shape [Bn * E; N] [b * E + d; n]).
    { cbn [in_shape]. split; [apply flat_row_bound; assumption|].
      split; [exact Hn|exact I]. }
    destruct (Hlow _ Hr) as [_ H1]. specialize (H1 HT2).
    unfold elem_at, combine in H1. apply pair_equal_spec in H1.
    destruct H1 as [_ H1]. cbn [fst snd entry] in H1.
    cbn [app bidx bidx_aligned length Nat.sub skipn nth].
    change (1 =? 1) with true. cbv iota. bsel_all.
    rewrite unravel_ravel_unflat by assumption.
    rewrite H1. rewrite !unravel_ravel_flat by assumption.
    cbn [nth bidx bidx_aligned length Nat.sub skipn app].
    change (1 =? 1) with true. cbv iota. bsel_all.
    ring.
Qed.

(** How [selective_scan] lays its tensors out for the scan: time is the
    scan axis, and sample [b] and channel [d] share the axis behind it at
    [b * D + d]. *)
Lemma selective_scan_layout self u delta B C Bn T E :
  shape (A_log self) = [1; d_state self] ->
  shape u = [Bn; T; E] -> shape delta = [Bn; T; E] ->
  shape B = [Bn; T; d_state self] -> shape C = [Bn; T; d_state self] ->
  1 <= T -> 1 <= d_state self ->
  exists sl a',
    selective_scan_locals self u delta B C = Some sl
    /\ shape (s_y sl) = [Bn; T; E]
    /\ shape (s_flat_A sl) = [T; Bn * E; d_state self]
    /\ shape (s_flat_B_u sl) = [T; Bn * E; d_state self]
    /\ associative_scan Rmult Rplus (s_flat_A sl, s_flat_B_u sl)
       = Some (a', s_ys sl)
    /\ (forall b t d n, b < Bn -> t < T -> d < E -> n < d_state self ->
          entry (s_flat_A sl) [t; b * E + d; n]
          = exp (Rmult (entry delta [b; t; d])
                       (Ropp (exp (entry (A_log self) [0; n]))))
          /\ entry (s_flat_B_u sl) [t; b * E + d; n]
             = Rmult (Rmult (entry delta [b; t; d]) (entry B [b; t; n]))
                     (entry u [b; t; d]))
    /\ (forall b t d, b < Bn -> t < T -> d < E ->
          entry (s_y sl) [b; t; d]
          = rsum (d_state self)
              (fun n => Rmult (entry (s_ys sl) [t; b * E + d; n])
                              (entry C [b; t; n]))).
Proof.
  intros HA Hu Hd HB HC HT HN.
  unfold selective_scan_locals. rewrite Hu.
  expose u Hu. expose delta Hd. expose B HB. expose C HC.
  destruct (A_log self) as [sA fA] eqn:EA. cbn [shape] in HA. subst sA.
  set (N := d_state self) in *.
  next_keep. next_keep. next_keep. next_keep. next_keep. next_keep.
  next_keep. next_keep.
  unfold contiguous.
  rewrite !(@view_flat_run _ _ T Bn E N) by (reflexivity || assumption).
  cbn [bind].
  edestruct (@associative_scan_run R Rmult Rplus)
    as (a' & ys & Hscan & _ & Hys);
    [| | rewrite Hscan]; [reflexivity | reflexivity |].
  cbn [bind].
  change [Z.of_nat T; Z.of_nat Bn; Z.of_nat E; Z.of_nat N]
    with (map Z.of_nat [T; Bn; E; N]).
  erewrite view_nat_run; [|exact Hys|cbn [numel fold_right shape]; ring].
  cbn [bind].
  next_keep. next_keep. next_keep. next_keep.
  eexists. exists a'. split; [reflexivity|]. split; [reflexivity|].
  cbn [s_y s_ys s_flat_A s_flat_B_u shape].
  split; [reflexivity|]. split; [reflexivity|].
  split; [exact Hscan|].
  split.
  - intros b t d n Hb Ht Hd Hn. cbn [entry].
    rewrite !unravel_ravel_flat by assumption.
    cbn [nth bidx bidx_aligned length Nat.sub skipn app].
    change (1 =? 1) with true. cbv iota. bsel_all.
    split; reflexivity.
  - intros b t d Hb Ht Hd. cbn [entry].
    apply rsum_ext. intros n Hn.
    cbn [app bidx bidx_aligned length Nat.sub skipn nth].
    change (1 =? 1) with true. cbv iota. bsel_all.
    rewrite unravel_ravel_unflat by assumption.
    reflexivity.
Qed.

(** [selective_scan] is causal and per sample: its output at time [t] of
    sample [b] depends only on the inputs at times up to [t] of sample
    [b]. *)
Lemma selective_scan_causal self u delta B C u' delta' B' C' Bn T E b t :
  shape (A_log self) = [1; d_state self] ->
  shape u = [Bn; T; E] -> shape delta = [Bn; T; E] ->
  shape B = [Bn; T; d_state self] -> shape C = [Bn; T; d_state self] ->
  shape u' = [Bn; T; E] -> shape delta' = [Bn; T; E] ->
  shape B' = [Bn; T; d_state self] -> shape C' = [Bn; T; d_state self] ->
  1 <= d_state self -> b < Bn -> t < T ->
  (forall j d, j <= t -> d < E ->
     entry u [b; j; d] = entry u' [b; j; d]
     /\ entry delta [b; j; d] = entry delta' [b; j; d]) ->
  (forall j n, j <= t -> n < d_state self ->
     entry B [b; j; n] = entry B' [b; j; n]
     /\ entry C [b; j; n] = entry C' [b; j; n]) ->
  exists sl sl',
    selective_scan_locals self u delta B C = Some sl
    /\ selective_scan_locals self u' delta' B' C' = Some sl'
    /\ forall d, d < E -> entry (s_y sl) [b; t; d] = entry (s_y sl') [b; t; d].
Proof.
  intros HA Hu Hd HB HC Hu' Hd' HB' HC' HN Hb Ht Hud HBC.
  destruct (@selective_scan_layout self u delta B C Bn T E
              HA Hu Hd HB HC ltac:(lia) HN)
    as (sl & a1 & Hsl & _ & HfA & HfB & Hscan & Hflat & Hy).
  destruct (@selective_scan_layout self u' delta' B' C' Bn T E
              HA Hu' Hd' HB' HC' ltac:(lia) HN)
    as (sl' & a1' & Hsl' & _ & HfA' & HfB' & Hscan' & Hflat' & Hy').
  exists sl, sl'. split; [exact Hsl|]. split; [exact Hsl'|].
  intros d Hdd. rewrite Hy, Hy' by assumption.
  apply rsum_ext. intros n Hn.
  destruct (HBC t n (le_n t) Hn) as [_ ->]. f_equal.
  assert (Hr : in_shape [Bn * E; d_state self] [b * E + d; n]).
  { cbn [in_shape]. split; [apply flat_row_bound; assumption|].
    split; [exact Hn|exact I]. }
  destruct (@associative_scan_agree R Rmult Rplus
              (s_flat_A sl) (s_flat_B_u sl) (s_flat_A sl') (s_flat_B_u sl')
              T [Bn * E; d_state self] t [b * E + d; n]
              HfA HfB HfA' HfB' Ht Hr)
    as (a2 & b2 & a2' & b2' & E2 & E2' & Hag).
  { intros j Hj. unfold elem_at. cbn [fst snd].
    destruct (Hflat b j d n Hb ltac:(lia) Hdd Hn) as [-> ->].
    destruct (Hflat' b j d n Hb ltac:(lia) Hdd Hn) as [-> ->].
    destruct (Hud j d Hj Hdd) as [-> ->].
    destruct (HBC j n Hj Hn) as [-> _]. reflexivity. }
  rewrite Hscan in E2. rewrite Hscan' in E2'.
  apply some_inj in E2. apply some_inj in E2'.
  apply pair_equal_spec in E2. apply pair_equal_spec in E2'.
  destruct E2 as [_ <-]. destruct E2' as [_ <-].
  specialize (Hag t (le_n t)). unfold elem_at in Hag. cbn [fst snd] in Hag.
  apply pair_equal_spec in Hag. exact (proj2 Hag).
Qed.

(** X23. At the first time step [selective_scan] returns the output of the
    state-space model started from a zero state:
    [y[b, 0, d] = sum_n (delta * B * u)[b, 0, d, n] * C[b, 0, n]]. *)
Theorem selective_scan_first_step self u delta B C Bn T E :
  shape (A_log self) = [1; d_state self] ->
  shape u = [Bn; T; E] -> shape delta = [Bn; T; E] ->
  shape B = [Bn; T; d_state self] -> shape C = [Bn; T; d_state self] ->
  1 <= T -> 1 <= d_state self ->
  exists y,
    selective_scan self u delta B C = Some y
    /\ forall b d, b < Bn -> d < E ->
         entry y [b; 0; d]
         = rsum (d_state self)
             (fun n =>
                Rmult (Rmult (Rmult (entry delta [b; 0; d]) (entry B [b; 0; n]))
                             (entry u [b; 0; d]))
                      (entry C [b; 0; n])).
Proof.
  intros HA Hu Hd HB HC HT HN.
  destruct (@selective_scan_entries self u delta B C Bn T E
              HA Hu Hd HB HC HT HN) as (sl & Hsl & _ & Hy).
  destruct (@selective_scan_run self u delta B C Bn T E
              HA Hu Hd HB HC HT HN) as (sl0 & Hsl0 & _ & Hdb).
  rewrite Hsl in Hsl0. apply some_inj in Hsl0. subst sl0.
  exists (s_y sl). unfold selective_scan. rewrite Hsl.
  split; [reflexivity|].
  intros b d Hb Hdd. destruct (Hy b d Hb Hdd) as [H0 _]. rewrite H0.
  apply rsum_ext. intros n Hn. rewrite Hdb by (assumption || lia).
  reflexivity.
Qed.

Lemma selective_scan_first_step_witness :
  match MambaBlock_init (fun _ _ => 0%R) 2 16 4 None with
  | Some self =>
      exists y,
        selective_scan self (ones [1; 3; 2]) (ones [1; 3; 2])
                       (ones [1; 3; 16]) (ones [1; 3; 16]) = Some y
        /\ entry y [0; 0; 1]
           = rsum (d_state self)
               (fun n =>
                  Rmult (Rmult (Rmult (entry (ones [1; 3; 2]) [0; 0; 1])
                                      (entry (ones [1; 3; 16]) [0; 0; n]))
                               (entry (ones [1; 3; 2]) [0; 0; 1]))
                        (entry (ones [1; 3; 16]) [0; 0; n]))
  | None => False
  end.
Proof.
  destruct (MambaBlock_init (fun _ _ => 0%R) 2 16 4 None) as [self|] eqn:Ei;
    [|discriminate Ei].
  destruct (MambaBlock_init_wf _ _ _ _ _ Ei) as (Hwf & HE & HN & HK).
  pose proof Hwf as (_ & _ & _ & _ & _ & _ & _ & _ & _ & HA & _).
  destruct (@selective_scan_first_step self (ones [1; 3; 2]) (ones [1; 3; 2])
              (ones [1; 3; 16]) (ones [1; 3; 16]) 1 3 2 HA)
    as (y & Hy & He);
    [reflexivity | reflexivity | rewrite HN; reflexivity
     | rewrite HN; reflexivity | lia | lia |].
  exists y. split; [exact Hy|]. apply He; lia.
Defined.

(** X24. From the second time step on [selective_scan] does not return the
    output of the recurrence: for every sequence of at least two steps,
    the state behind [y[b, 1, d]] is
    [h_1 = deltaA_1 * deltaB_u_0 + deltaB_u_1] plus
    [deltaA_1 * deltaA_0 * deltaB_u_0]. *)
Theorem selective_scan_second_step self u delta B C Bn T E :
  shape (A_log self) = [1; d_state self] ->
  shape u = [Bn; T; E] -> shape delta = [Bn; T; E] ->
  shape B = [Bn; T; d_state self] -> shape C = [Bn; T; d_state self] ->
  2 <= T -> 1 <= d_state self ->
  exists sl,
    selective_scan_locals self u delta B C = Some sl
    /\ forall b d, b < Bn -> d < E ->
         entry (s_y sl) [b; 1; d]
         = rsum (d_state self)
             (fun n =>
                Rmult
                  (Rplus
                     (Rplus (Rmult (entry (s_deltaA sl) [b; 1; d; n])
                                   (entry (s_deltaB_u sl) [b; 0; d; n]))
                            (entry (s_deltaB_u sl) [b; 1; d; n]))
                     (Rmult (Rmult (entry (s_deltaA sl) [b; 1; d; n])
                                   (entry (s_deltaA sl) [b; 0; d; n]))
                            (entry (s_deltaB_u sl) [b; 0; d; n])))
                  (entry C [b; 1; n])).
Proof.
  intros HA Hu Hd HB HC HT HN.
  destruct (@selective_scan_entries self u delta B C Bn T E
              HA Hu Hd HB HC ltac:(lia) HN) as (sl & Hsl & _ & Hy).
  exists sl. split; [exact Hsl|].
  intros b d Hb Hdd. destruct (Hy b d Hb Hdd) as [_ H1]. exact (H1 HT).
Qed.

Lemma selective_scan_second_step_witness :
  match MambaBlock_init (fun _ _ => 0%R) 2 16 4 None with
  | Some self =>
      exists sl,
        selective_scan_locals self (ones [1; 3; 2]) (ones [1; 3; 2])
                              (ones [1; 3; 16]) (ones [1; 3; 16]) = Some sl
        /\ entry (s_y sl) [0; 1; 1]
           = rsum (d_state self)
               (fun n =>
                  Rmult
                    (Rplus
                       (Rplus (Rmult (entry (s_deltaA sl) [0; 1; 1; n])
                                     (entry (s_deltaB_u sl) [0; 0; 1; n]))
                              (entry (s_deltaB_u sl) [0; 1; 1; n]))
                       (Rmult (Rmult (entry (s_deltaA sl) [0; 1; 1; n])
                                     (entry (s_deltaA sl) [0; 0; 1; n]))
                              (entry (s_deltaB_u sl) [0; 0; 1; n])))
                    (entry (ones [1; 3; 16]) [0; 1; n]))
  | None => False
  end.
Proof.
  destruct (MambaBlock_init (fun _ _ => 0%R) 2 16 4 None) as [self|] eqn:Ei;
    [|discriminate Ei].
  destruct (MambaBlock_init_wf _ _ _ _ _ Ei) as (Hwf & HE & HN & HK).
  pose proof Hwf as (_ & _ & _ & _ & _ & _ & _ & _ & _ & HA & _).
  destruct (@selective_scan_second_step self (ones [1; 3; 2]) (ones [1; 3; 2])
              (ones [1; 3; 16]) (ones [1; 3; 16]) 1 3 2 HA)
    as (sl & Hsl & He);
    [reflexivity | reflexivity | rewrite HN; reflexivity
     | rewrite HN; reflexivity | lia | lia |].
  exists sl. split; [exact Hsl|]. apply He; lia.
Defined.

(** Every local of a forward pass of [MambaBlock] in terms of the ones
    it is computed from. *)
Lemma MambaBlock_entries self x B T :
  MambaBlock_wf self -> shape x = [B; T; embed_dim self] ->
  1 <= T -> 1 <= d_conv self -> 1 <= d_state self ->
  exists l,
    MambaBlock_locals self x = Some l
    /\ shape (m_x_conv l) = [B; T; embed_dim self]
    /\ shape (m_delta l) = [B; T; embed_dim self]
    /\ shape (m_B_param l) = [B; T; d_state self]
    /\ shape (m_C_param l) = [B; T; d_state self]
    /\ (forall b t c,
          entry (m_x_in l) [b; t; c]
          = linear_entry (in_proj self) (embed_dim self) x [b; t] c)
    /\ (forall b t c,
          entry (m_res l) [b; t; c]
          = linear_entry (in_proj self) (embed_dim self) x [b; t]
                         (c + embed_dim self))
    /\ (forall b t c,
          entry (m_x_conv l) [b; t; c]
          = silu (conv_stage_entry self (m_x_in l) T b t c))
    /\ (exists raw,
          (forall b t i,
             entry raw [b; t; i]
             = linear_entry (x_proj self) (embed_dim self) (m_x_conv l)
                            [b; t] i)
          /\ forall b t d,
               entry (m_delta l) [b; t; d]
               = softplus (linear_entry (dt_proj self) (dt_rank self) raw
                                        [b; t] d))
    /\ (forall b t n,
          entry (m_B_param l) [b; t; n]
          = linear_entry (x_proj self) (embed_dim self) (m_x_conv l) [b; t]
                         (n + dt_rank self))
    /\ (forall b t n,
          entry (m_C_param l) [b; t; n]
          = linear_entry (x_proj self) (embed_dim self) (m_x_conv l) [b; t]
                         (n + (dt_rank self + d_state self)))
    /\ selective_scan_locals self (m_x_conv l) (m_delta l) (m_B_param l)
                             (m_C_param l) = Some (m_scan l)
    /\ m_y_scan l = s_y (m_scan l)
    /\ (forall b t d, b < B -> t < T -> d < embed_dim self ->
          entry (m_y_skip l) [b; t; d]
          = Rplus (entry (m_y_scan l) [b; t; d])
                  (Rmult (entry (m_x_conv l) [b; t; d]) (entry (D self) [d])))
    /\ (forall b t d, b < B -> t < T -> d < embed_dim self ->
          entry (m_y_gated l) [b; t; d]
          = Rmult (entry (m_y_skip l) [b; t; d])
                  (silu (entry (m_res l) [b; t; d])))
    /\ (forall b t c,
          entry (m_out l) [b; t; c]
          = linear_entry (out_proj self) (embed_dim self) (m_y_gated l)
                         [b; t] c).
Proof.
  intros Hwf Hx HT HK HN.
  pose proof Hwf as (Hin & _ & _ & _ & _ & _ & _ & Hxp & Hdt & HA & HD & Hop).
  unfold MambaBlock_locals. rewrite Hx.
  erewrite linear_run3; [|exact Hin|exact Hx]. cbn [bind].
  erewrite chunk2_run; [|reflexivity]. cbn [bind].
  match goal with
  | |- context [conv_stage self ?xi T] =>
      remember xi as x_in eqn:Hxin;
      destruct (@conv_stage_run self x_in B T Hwf) as (xc & -> & Hxc & Hxce);
      [subst x_in; reflexivity | assumption | assumption |]
  end.
  cbn [bind]. expose xc Hxc. cbn [entry] in Hxce.
  erewrite linear_run3; [|exact Hxp|reflexivity]. cbn [bind].
  erewrite split3_run; [|reflexivity]. cbn [bind].
  erewrite linear_run3; [|exact Hdt|reflexivity]. cbn [bind].
  match goal with
  | |- context [selective_scan_locals self ?u ?dl ?Bp ?Cp] =>
      destruct (@selective_scan_run self u dl Bp Cp B T (embed_dim self) HA)
        as (sl & Hsl & Hsy & _);
      [reflexivity | reflexivity | reflexivity | reflexivity
       | assumption | assumption | rewrite Hsl]
  end.
  cbn [bind].
  destruct (s_y sl) as [sy fy] eqn:Esy. cbn [shape] in Hsy. subst sy.
  destruct (D self) as [sD fD] eqn:ED. cbn [shape] in HD. subst sD.
  next_keep. next_keep. next_keep.
  erewrite linear_run3; [|exact Hop|reflexivity]. cbn [bind].
  eexists. split; [reflexivity|].
  cbn [m_out m_x_in m_res m_x_conv_pre m_x_conv m_delta m_B_param m_C_param
       m_scan m_y_skip m_y_scan m_y_gated shape tmap].
  split; [reflexivity|]. split; [reflexivity|]. split; [reflexivity|].
  split; [reflexivity|].
  split.
  { intros b t c. subst x_in. cbn [entry removelast last app].
    rewrite Nat.add_0_r. reflexivity. }
  split.
  { intros b t c. subst x_in. cbn [entry removelast last app].
    rewrite Nat.add_0_l. reflexivity. }
  split.
  { intros b t c. cbn [entry tmap]. rewrite Hxce. reflexivity. }
  split.
  { eexists. split; cycle 1.
    - intros b t d. cbn [entry tmap removelast last app]. reflexivity.
    - intros b t i. cbn [entry removelast last app].
      rewrite Nat.add_0_r. reflexivity. }
  split.
  { intros b t n. cbn [entry removelast last app]. reflexivity. }
  split.
  { intros b t n. cbn [entry removelast last app]. reflexivity. }
  split; [exact Hsl|].
  split; [symmetry; exact Esy|].
  split.
  { intros b t d Hb Ht Hd.
    cbn [entry tmap bidx bidx_aligned length Nat.sub skipn].
    bsel_all. reflexivity. }
  split.
  { intros b t d Hb Ht Hd.
    cbn [entry tmap bidx bidx_aligned length Nat.sub skipn].
    bsel_all. reflexivity. }
  intros b t c. cbn [entry removelast last app]. reflexivity.
Qed.

Lemma linear_entry_ext L i x x' pre o :
  (forall k, k < i -> entry x (pre ++ [k]) = entry x' (pre ++ [k])) ->
  linear_entry L i x pre o = linear_entry L i x' pre o.
Proof.
  intros H. unfold linear_entry. f_equal.
  apply rsum_ext. intros k Hk. rewrite (H k Hk). reflexivity.
Qed.

(** A forward pass of [MambaBlock] is causal and per sample. *)
Lemma MambaBlock_locals_causal self x x' B T b t :
  MambaBlock_wf self -> 1 <= d_conv self -> 1 <= d_state self ->
  shape x = [B; T; embed_dim self] -> shape x' = [B; T; embed_dim self] ->
  b < B -> t < T ->
  (forall j c, j <= t -> c < embed_dim self ->
     entry x [b; j; c] = entry x' [b; j; c]) ->
  exists l l',
    MambaBlock_locals self x = Some l
    /\ MambaBlock_locals self x' = Some l'
    /\ forall c, entry (m_out l) [b; t; c] = entry (m_out l') [b; t; c].
Proof.
  intros Hwf HK HN Hx Hx' Hb Ht Hag.
  pose proof Hwf as (_ & _ & _ & _ & _ & _ & _ & _ & _ & HA & _).
  destruct (@MambaBlock_entries self x B T Hwf Hx)
    as (l & Hl & Sxc & Sd & SB & SC & Hin & Hres & Hxc & (raw & Hraw & Hdl)
        & HB & HC & Hscan & Hys & Hskip & Hgate & Hout); try lia.
  destruct (@MambaBlock_entries self x' B T Hwf Hx')
    as (l' & Hl' & Sxc' & Sd' & SB' & SC' & Hin' & Hres' & Hxc'
        & (raw' & Hraw' & Hdl') & HB' & HC' & Hscan' & Hys' & Hskip' & Hgate'
        & Hout'); try lia.
  exists l, l'. split; [exact Hl|]. split; [exact Hl'|].
  (* the input projection *)
  assert (Ain : forall j c, j <= t ->
            entry (m_x_in l) [b; j; c] = entry (m_x_in l') [b; j; c]).
  { intros j c Hj. rewrite Hin, Hin'. apply linear_entry_ext.
    intros k Hk. cbn [app]. apply Hag; assumption. }
  assert (Ares : forall j c, j <= t ->
            entry (m_res l) [b; j; c] = entry (m_res l') [b; j; c]).
  { intros j c Hj. rewrite Hres, Hres'. apply linear_entry_ext.
    intros k Hk. cbn [app]. apply Hag; assumption. }
  (* the convolution *)
  assert (Axc : forall j c, j <= t ->
            entry (m_x_conv l) [b; j; c] = entry (m_x_conv l') [b; j; c]).
  { intros j c Hj. rewrite Hxc, Hxc'. f_equal.
    apply conv_stage_entry_causal. intros j' ch Hj'. apply Ain. lia. }
  (* the parameters of the state-space model *)
  assert (Araw : forall j i, j <= t ->
            entry raw [b; j; i] = entry raw' [b; j; i]).
  { intros j i Hj. rewrite Hraw, Hraw'. apply linear_entry_ext.
    intros k _. cbn [app]. apply Axc. exact Hj. }
  assert (Adl : forall j d, j <= t ->
            entry (m_delta l) [b; j; d] = entry (m_delta l') [b; j; d]).
  { intros j d Hj. rewrite Hdl, Hdl'. f_equal. apply linear_entry_ext.
    intros k _. cbn [app]. apply Araw. exact Hj. }
  assert (AB : forall j n, j <= t ->
            entry (m_B_param l) [b; j; n] = entry (m_B_param l') [b; j; n]).
  { intros j n Hj. rewrite HB, HB'. apply linear_entry_ext.
    intros k _. cbn [app]. apply Axc. exact Hj. }
  assert (AC : forall j n, j <= t ->
            entry (m_C_param l) [b; j; n] = entry (m_C_param l') [b; j; n]).
  { intros j n Hj. rewrite HC, HC'. apply linear_entry_ext.
    intros k _. cbn [app]. apply Axc. exact Hj. }
  (* the scan *)
  assert (Ay : forall d, d < embed_dim self ->
            entry (m_y_scan l) [b; t; d] = entry (m_y_scan l') [b; t; d]).
  { destruct (@selective_scan_causal self
                (m_x_conv l) (m_delta l) (m_B_param l) (m_C_param l)
                (m_x_conv l') (m_delta l') (m_B_param l') (m_C_param l')
                B T (embed_dim self) b t HA Sxc Sd SB SC Sxc' Sd' SB' SC'
                HN Hb Ht)
      as (sl & sl' & E1 & E2 & Hsy).
    - intros j d Hj Hd. split; [apply Axc | apply Adl]; exact Hj.
    - intros j n Hj Hn. split; [apply AB | apply AC]; exact Hj.
    - rewrite Hscan in E1. rewrite Hscan' in E2.
      apply some_inj in E1. apply some_inj in E2.
      rewrite Hys, Hys', E1, E2. exact Hsy. }
  (* the skip, the gate and the output projection *)
  intros c. rewrite Hout, Hout'. apply linear_entry_ext.
  intros d Hd. cbn [app].
  rewrite Hgate, Hgate' by assumption.
  rewrite Hskip, Hskip' by assumption.
  rewrite (Ay d Hd), (Axc t d (le_n t)), (Ares t d (le_n t)). reflexivity.
Qed.

(** X25. [MambaBlock.forward] is causal and per sample: the output at time
    [t] of sample [b] depends only on the input at times up to [t] of
    sample [b]. Two inputs that agree there give outputs that agree
    there. *)
Theorem MambaBlock_is_causal self x x' B T b t :
  MambaBlock_wf self -> 1 <= d_conv self -> 1 <= d_state self ->
  shape x = [B; T; embed_dim self] -> shape x' = [B; T; embed_dim self] ->
  b < B -> t < T ->
  (forall j c, j <= t -> c < embed_dim self ->
     entry x [b; j; c] = entry x' [b; j; c]) ->
  exists y y',
    MambaBlock_forward self x = Some y
    /\ MambaBlock_forward self x' = Some y'
    /\ forall c, entry y [b; t; c] = entry y' [b; t; c].
Proof.
  intros Hwf HK HN Hx Hx' Hb Ht Hag.
  destruct (@MambaBlock_locals_causal self x x' B T b t
              Hwf HK HN Hx Hx' Hb Ht Hag) as (l & l' & Hl & Hl' & Hout).
  exists (m_out l), (m_out l').
  unfold MambaBlock_forward, MambaBlock_forward_logic. rewrite Hl, Hl'.
  split; [reflexivity|]. split; [reflexivity|]. exact Hout.
Qed.

Lemma MambaBlock_is_causal_witness :
  match MambaBlock_init (fun _ _ => 0%R) 2 16 4 None with
  | Some self =>
      exists y y',
        MambaBlock_forward self (ones [1; 3; 2]) = Some y
        /\ MambaBlock_forward self
             (mkT [1; 3; 2] (fun idx => if nth 1 idx 0 <=? 1 then 1%R else 5%R))
           = Some y'
        /\ forall c, entry y [0; 1; c] = entry y' [0; 1; c]
  | None => False
  end.
Proof.
  destruct (MambaBlock_init (fun _ _ => 0%R) 2 16 4 None) as [self|] eqn:Ei;
    [|discriminate Ei].
  destruct (MambaBlock_init_wf _ _ _ _ _ Ei) as (Hwf & HE & HN & HK).
  apply (@MambaBlock_is_causal self (ones [1; 3; 2])
           (mkT [1; 3; 2] (fun idx => if nth 1 idx 0 <=? 1 then 1%R else 5%R))
           1 3 0 1 Hwf).
  - lia.
  - lia.
  - rewrite HE. reflexivity.
  - rewrite HE. reflexivity.
  - lia.
  - lia.
  - intros j c Hj _. cbn [ones entry nth].
    destruct (Nat.leb_spec j 1); [reflexivity | lia].
Defined.

(** What [DillNetBlock.forward] does around its mixer works on one
    position at a time: the output at a position is a function [G] of
    the row [x + mixer(norm1(x))] at that position. *)
Lemma DillNetBlock_positionwise blk E :
  DillNetBlock_wf E blk ->
  exists G : (nat -> R) -> nat -> R,
    (forall r r' c, (forall j, j < E -> r j = r' j) -> c < E ->
                    G r c = G r' c)
    /\ forall x B T,
         shape x = [B; T; E] -> mixer_runs (attention_layer blk) E B T ->
         exists n1 a y,
           RMSNorm_forward (norm1 blk) x = Some n1
           /\ shape n1 = [B; T; E]
           /\ mixer_forward (attention_layer blk) n1 = Some a
           /\ DillNetBlock_forward blk x = Some y
           /\ forall b t c, b < B -> t < T -> c < E ->
                entry y [b; t; c]
                = G (fun j => Rplus (entry x [b; t; j]) (entry a [b; t; j])) c.
Proof.
  intros (Hn1 & Hmix & Hn2 & F & H1 & H2 & H3).
  set (nrm := fun (r : nat -> R) (i : nat) =>
                Rmult (Rmult (r i)
                             (rsqrt (Rplus (Rdiv (rsum E (fun k => (r k ^ 2)%R))
                                                 (INR E))
                                           (eps (norm2 blk)))))
                      (entry (norm_weight (norm2 blk)) [i])).
  set (lin := fun (L : Linear) (n : nat) (v : nat -> R) (o : nat) =>
                Rplus (rsum n (fun k => Rmult (v k) (entry (weight L) [o; k])))
                      (entry (bias L) [o])).
  exists (fun r c =>
            Rplus (r c)
                  (lin (w3 blk) F
                       (fun k => Rmult (silu (lin (w1 blk) E (nrm r) k))
                                       (lin (w2 blk) E (nrm r) k))
                       c)).
  assert (Hnrm : forall r r', (forall j, j < E -> r j = r' j) ->
                              forall i, i < E -> nrm r i = nrm r' i).
  { intros r r' Hr i Hi. unfold nrm. rewrite (Hr i Hi).
    rewrite (@rsum_ext E (fun k => (r k ^ 2)%R) (fun k => (r' k ^ 2)%R));
      [reflexivity|].
    intros k Hk. rewrite (Hr k Hk). reflexivity. }
  split.
  - intros r r' c Hr Hc. rewrite (Hr c Hc). f_equal. unfold lin. f_equal.
    apply rsum_ext. intros k Hk. f_equal.
    rewrite (@rsum_ext E (fun i => Rmult (nrm r i) (entry (weight (w1 blk)) [k; i]))
               (fun i => Rmult (nrm r' i) (entry (weight (w1 blk)) [k; i])));
      [|intros i Hi; rewrite (Hnrm r r' Hr i Hi); reflexivity].
    rewrite (@rsum_ext E (fun i => Rmult (nrm r i) (entry (weight (w2 blk)) [k; i]))
               (fun i => Rmult (nrm r' i) (entry (weight (w2 blk)) [k; i])));
      [|intros i Hi; rewrite (Hnrm r r' Hr i Hi); reflexivity].
    reflexivity.
  - intros x B T Hx Hr.
    unfold DillNetBlock_forward.
    destruct (@RMSNorm_run (norm1 blk) x B T E Hn1 Hx) as (n1 & En1 & Hs1).
    destruct (@mixer_run (attention_layer blk) n1 B T E Hmix Hs1 Hr)
      as (a & Ea & Hsa).
    exists n1, a. rewrite En1. cbn [bind]. rewrite Ea. cbn [bind].
    expose a Hsa. expose x Hx.
    next_keep.
    match goal with
    | |- context [RMSNorm_forward (norm2 blk) ?t] =>
        destruct (@RMSNorm_entries (norm2 blk) t B T E Hn2 eq_refl)
          as (nx & -> & Hnx & Henx)
    end.
    cbn [bind].
    erewrite linear_run3; [|exact H1|exact Hnx]. cbn [bind].
    erewrite linear_run3; [|exact H2|exact Hnx]. cbn [bind].
    next_keep.
    erewrite linear_run3; [|exact H3|reflexivity]. cbn [bind].
    unfold dropout.
    match goal with
    | |- exists y, _ /\ _ /\ _ /\ ?c = Some y /\ _ =>
        let t := fresh "t" in
        let E := fresh "E" in
        destruct c as [t|] eqn:E;
        [ unfold_ops_in E; simp_in E; apply some_inj in E; subst t
        | unfold_ops_in E; simp_in E; discriminate E ]
    end.
    eexists. split; [reflexivity|]. split; [exact Hs1|].
    split; [reflexivity|]. split; [reflexivity|].
    intros b t c Hb Ht Hc.
    cbn [entry tmap bidx bidx_aligned length Nat.sub skipn removelast last app].
    bsel_all. f_equal.
    unfold linear_entry, lin. f_equal.
    apply rsum_ext. intros k Hk.
    cbn [entry tmap bidx bidx_aligned length Nat.sub skipn removelast last app].
    bsel_all.
    assert (Hrow : forall i, i < E ->
              entry nx [b; t; i]
              = nrm (fun j => Rplus (f0 [b; t; j]) (f [b; t; j])) i).
    { intros i Hi. rewrite Henx by assumption.
      unfold nrm, mean_square.
      cbn [entry app bidx bidx_aligned length Nat.sub skipn]. bsel_all.
      f_equal. f_equal. f_equal. f_equal. f_equal.
      apply rsum_ext. intros k0 Hk0. bsel_all. reflexivity. }
    f_equal. f_equal.
    + f_equal. f_equal. apply rsum_ext. intros i Hi. cbn [app].
      rewrite (Hrow i Hi). reflexivity.
    + f_equal. apply rsum_ext. intros i Hi. cbn [app].
      rewrite (Hrow i Hi). reflexivity.
Qed.

Lemma mean_square_ext x x' pre n :
  (forall k, k < n -> entry x (pre ++ [k]) = entry x' (pre ++ [k])) ->
  mean_square x pre n = mean_square x' pre n.
Proof.
  intros H. unfold mean_square. f_equal.
  apply rsum_ext. intros k Hk. rewrite (H k Hk). reflexivity.
Qed.

(** [RMSNorm.forward] works on one position at a time. *)
Lemma RMSNorm_rows n x x' y y' B T E b t :
  RMSNorm_wf E n -> shape x = [B; T; E] -> shape x' = [B; T; E] ->
  RMSNorm_forward n x = Some y -> RMSNorm_forward n x' = Some y' ->
  b < B -> t < T ->
  (forall c, c < E -> entry x [b; t; c] = entry x' [b; t; c]) ->
  forall c, c < E -> entry y [b; t; c] = entry y' [b; t; c].
Proof.
  intros Hw Hx Hx' Ey Ey' Hb Ht Hag c Hc.
  destruct (@RMSNorm_entries n x B T E Hw Hx) as (y0 & Hy & _ & He).
  destruct (@RMSNorm_entries n x' B T E Hw Hx') as (y0' & Hy' & _ & He').
  rewrite Ey in Hy. apply some_inj in Hy. subst y0.
  rewrite Ey' in Hy'. apply some_inj in Hy'. subst y0'.
  rewrite He, He' by assumption.
  rewrite (Hag c Hc).
  rewrite (@mean_square_ext x x' [b; t] E); [reflexivity|].
  intros k Hk. cbn [app]. apply Hag. exact Hk.
Qed.

(** X27. [RMSNorm.forward] works on one position at a time: its output at
    time [t] of sample [b] depends only on the input row at time [t] of
    sample [b], so that it mixes neither time steps nor samples. *)
Theorem RMSNorm_is_positionwise n x x' B T E b t :
  RMSNorm_wf E n -> shape x = [B; T; E] -> shape x' = [B; T; E] ->
  b < B -> t < T ->
  (forall c, c < E -> entry x [b; t; c] = entry x' [b; t; c]) ->
  exists y y',
    RMSNorm_forward n x = Some y /\ RMSNorm_forward n x' = Some y'
    /\ forall c, c < E -> entry y [b; t; c] = entry y' [b; t; c].
Proof.
  intros Hw Hx Hx' Hb Ht Hag.
  destruct (@RMSNorm_run n x B T E Hw Hx) as (y & Ey & _).
  destruct (@RMSNorm_run n x' B T E Hw Hx') as (y' & Ey' & _).
  exists y, y'. split; [exact Ey|]. split; [exact Ey'|].
  exact (@RMSNorm_rows n x x' y y' B T E b t Hw Hx Hx' Ey Ey' Hb Ht Hag).
Qed.

Lemma RMSNorm_is_positionwise_witness :
  exists y y',
    RMSNorm_forward (RMSNorm_init 2) (ones [1; 3; 2]) = Some y
    /\ RMSNorm_forward (RMSNorm_init 2)
         (mkT [1; 3; 2] (fun idx => if nth 1 idx 0 =? 1 then 1%R else 5%R))
       = Some y'
    /\ forall c, c < 2 -> entry y [0; 1; c] = entry y' [0; 1; c].
Proof.
  apply (@RMSNorm_is_positionwise (RMSNorm_init 2) (ones [1; 3; 2])
           (mkT [1; 3; 2] (fun idx => if nth 1 idx 0 =? 1 then 1%R else 5%R))
           1 3 2 0 1);
    [reflexivity | reflexivity | reflexivity | lia | lia |].
  intros c Hc. reflexivity.
Defined.

(** X26. A [DillNetBlock] whose mixer is a [MambaBlock] is causal and per
    sample: its output at time [t] of sample [b] depends only on the
    input at times up to [t] of sample [b]. *)
Theorem DillNetBlock_mamba_is_causal blk m x x' B T E b t :
  DillNetBlock_wf E blk -> attention_layer blk = MixerMamba m ->
  shape x = [B; T; E] -> shape x' = [B; T; E] ->
  b < B -> t < T ->
  (forall j c, j <= t -> c < E -> entry x [b; j; c] = entry x' [b; j; c]) ->
  exists y y',
    DillNetBlock_forward blk x = Some y
    /\ DillNetBlock_forward blk x' = Some y'
    /\ forall c, c < E -> entry y [b; t; c] = entry y' [b; t; c].
Proof.
  intros Hwf Ha Hx Hx' Hb Ht Hag.
  destruct (DillNetBlock_positionwise Hwf) as (G & Gext & Hrun).
  destruct Hwf as (Hn1 & Hmix & _).
  assert (Hr : mixer_runs (attention_layer blk) E B T).
  { rewrite Ha. cbn [mixer_runs]. lia. }
  destruct (Hrun x B T Hx Hr) as (n1 & a & y & En1 & Sn1 & Ea & Ey & Hy).
  destruct (Hrun x' B T Hx' Hr)
    as (n1' & a' & y' & En1' & Sn1' & Ea' & Ey' & Hy').
  exists y, y'. split; [exact Ey|]. split; [exact Ey'|].
  rewrite Ha in Hmix, Ea, Ea'. cbn [mixer_wf mixer_forward] in Hmix, Ea, Ea'.
  destruct Hmix as (Hm & HE & Hdc & Hds). subst E.
  destruct (@MambaBlock_locals_causal m n1 n1' B T b t Hm)
    as (l & l' & El & El' & Hya); try assumption; try lia.
  { intros j c Hj Hc.
    apply (@RMSNorm_rows (norm1 blk) x x' n1 n1' B T (embed_dim m) b j);
      try assumption; try lia.
    intros c' Hc'. apply Hag; assumption. }
  unfold MambaBlock_forward, MambaBlock_forward_logic in Ea, Ea'.
  rewrite El in Ea. rewrite El' in Ea'. cbn [bind] in Ea, Ea'.
  apply some_inj in Ea. apply some_inj in Ea'. subst a a'.
  intros c Hc. rewrite Hy, Hy' by assumption.
  apply Gext; [|exact Hc].
  intros j Hj. rewrite (Hag t j (le_n t) Hj), (Hya j). reflexivity.
Qed.

Lemma DillNetBlock_mamba_is_causal_witness :
  match DillNetBlock_init (fun _ _ => 0%R) 2 1 true None with
  | Some blk =>
      exists y y',
        DillNetBlock_forward blk (ones [1; 3; 2]) = Some y
        /\ DillNetBlock_forward blk
             (mkT [1; 3; 2] (fun idx => if nth 1 idx 0 <=? 1 then 1%R else 5%R))
           = Some y'
        /\ forall c, c < 2 -> entry y [0; 1; c] = entry y' [0; 1; c]
  | None => False
  end.
Proof.
  destruct (DillNetBlock_init (fun _ _ => 0%R) 2 1 true None) as [blk|] eqn:Ei;
    [|discriminate Ei].
  destruct (DillNetBlock_init_wf _ _ _ _ _ Ei) as (Hwf & Hk).
  destruct (attention_layer blk) as [m|r] eqn:Ea;
    [|destruct Hk as [Hk _]; discriminate Hk].
  apply (@DillNetBlock_mamba_is_causal blk m (ones [1; 3; 2])
           (mkT [1; 3; 2] (fun idx => if nth 1 idx 0 <=? 1 then 1%R else 5%R))
           1 3 2 0 1 Hwf Ea).
  - reflexivity.
  - reflexivity.
  - lia.
  - lia.
  - intros j c Hj _. cbn [ones entry nth].
    destruct (Nat.leb_spec j 1); [reflexivity | lia].
Defined.

End CausalFacts.

(* ------------------------------------------------------------------ *)
(** ** From the projections to the output of the two mixers *)

Module FlowFacts.
Import Torch Scan Model TorchFacts ScanFacts WfFacts RetentionFacts MambaFacts ShapeFacts ScanLaws ReturnFacts NormFacts CausalFacts.
Local Open Scope torch_scope.

(** [view(B, T, heads, head_dim)] splits channel [h * head_dim + j] into
    [(h, j)], and [reshape(B, T, -1)] joins it again. *)
Lemma unravel_ravel_heads (B T h hd b t hh j : nat) :
  t < T -> hh < h -> j < hd ->
  unravel [B; T; h * hd] (ravel [B; T; h; hd] [b; t; hh; j])
  = [b; t; hh * hd + j].
Proof.
  intros Ht Hh Hj. cbn [ravel unravel numel fold_right].
  rewrite !Nat.mul_1_r, !Nat.add_0_r.
  assert (Hc : hh * hd + j < h * hd) by (apply flat_row_bound; assumption).
  assert (Hq : t * (h * hd) + (hh * hd + j) < T * (h * hd)) by nia.
  destruct (@div_mod_step (T * (h * hd)) b _ Hq) as [-> ->].
  destruct (@div_mod_step (h * hd) t _ Hc) as [-> ->].
  rewrite Nat.div_1_r. reflexivity.
Qed.

Lemma unravel_ravel_unheads (B T h hd b t hh j : nat) :
  t < T -> hh < h -> j < hd ->
  unravel [B; T; h; hd] (ravel [B; T; h * hd] [b; t; hh * hd + j])
  = [b; t; hh; j].
Proof.
  intros Ht Hh Hj. cbn [ravel unravel numel fold_right].
  rewrite !Nat.mul_1_r, !Nat.add_0_r.
  assert (Hc : hh * hd + j < h * hd) by (apply flat_row_bound; assumption).
  assert (Hq : t * (h * hd) + (hh * hd + j) < T * (h * hd)) by nia.
  destruct (@div_mod_step (T * (h * hd)) b _ Hq) as [-> ->].
  destruct (@div_mod_step (h * hd) t _ Hc) as [-> ->].
  destruct (@div_mod_step hd hh j Hj) as [-> ->].
  rewrite Nat.div_1_r. reflexivity.
Qed.

(** The whole of [Retention.forward]: the decay matrix, the scores, their
    weighting, and the output read off the weighted scores. *)
Lemma Retention_entries r x B T E :
  Retention_wf E r -> shape x = [B; T; E] ->
  retention_runs E (heads r) B T ->
  exists l,
    Retention_locals r x = Some l
    /\ shape (r_out l) = [B; T; E]
    /\ (forall h i j, h < heads r -> i < T -> j < T ->
          entry (r_t_w l) [h; i; j]
          = exp (- sigmoid (entry (gamma_param r) [h])
                 * IZR (Z.max 0 (Z.of_nat i - Z.of_nat j))))
    /\ (forall b h s j, b < B -> h < heads r -> s < T -> j < head_dim r ->
          entry (r_V l) [b; h; s; j]
          = linear_entry (w_v r) E x [b; s] (h * head_dim r + j))
    /\ (forall b h i j, b < B -> h < heads r -> i < T -> j < T ->
          entry (r_scores l) [b; h; i; j]
          = Rdiv (rsum (head_dim r)
                    (fun k => Rmult (entry (r_Q l) [b; h; i; k])
                                    (entry (r_K l) [b; h; j; k])))
                 (scale r))
    /\ (forall b h i j, b < B -> h < heads r -> i < T -> j < T ->
          entry (r_weighted_scores l) [b; h; i; j]
          = Rmult (entry (r_scores l) [b; h; i; j]) (entry (r_t_w l) [h; i; j]))
    /\ (forall b i h j, b < B -> i < T -> h < heads r -> j < head_dim r ->
          entry (r_out l) [b; i; h * head_dim r + j]
          = Rmult (silu (linear_entry (gate r) E x [b; i] (h * head_dim r + j)))
                  (rsum T (fun s =>
                             Rmult (entry (r_weighted_scores l) [b; h; i; s])
                                   (entry (r_V l) [b; h; s; j])))).
Proof.
  intros Hwf Hx (Hmod & Hev & HB & HT).
  destruct Hwf as (Hh & Hhd & Hq & Hk & Hv & Hg & Hgam & Hrot).
  assert (HE : heads r * head_dim r = E).
  { rewrite Hhd. pose proof (Nat.div_mod_eq E (heads r)). lia. }
  rewrite <- Hhd in Hev.
  unfold Retention_locals. rewrite Hx.
  change [Z.of_nat B; Z.of_nat T; Z.of_nat (heads r); Z.of_nat (head_dim r)]
    with (map Z.of_nat [B; T; heads r; head_dim r]).
  assert (Hnum : numel [B; T; E] = numel [B; T; heads r; head_dim r]).
  { cbn [numel fold_right]. rewrite <- HE. ring. }
  erewrite linear_run3; [|exact Hq|exact Hx]. forget_head.
  erewrite view_nat_run; [|reflexivity|exact Hnum]. forget_head.
  next.
  erewrite linear_run3; [|exact Hk|exact Hx]. forget_head.
  erewrite view_nat_run; [|reflexivity|exact Hnum]. forget_head.
  next.
  erewrite linear_run3; [|exact Hv|exact Hx]. cbn [bind].
  erewrite view_nat_run; [|reflexivity|exact Hnum]. cbn [bind].
  next_keep.
  match goal with
  | |- context [RotaryEmbedding_forward (rotary r) ?q] =>
      destruct (@rotary_run (rotary r) q B (heads r) T (head_dim r) Hrot
                  eq_refl Hev) as (Q & -> & HQ)
  end.
  cbn [bind]. expose Q HQ.
  match goal with
  | |- context [RotaryEmbedding_forward (rotary r) ?q] =>
      destruct (@rotary_run (rotary r) q B (heads r) T (head_dim r) Hrot
                  eq_refl Hev) as (K & -> & HK)
  end.
  cbn [bind]. expose K HK.
  destruct (@decay_run r T Hgam) as (diff & t_w & -> & Htw & Hen).
  cbn [bind]. expose t_w Htw. cbn [entry] in Hen.
  next_keep. next_keep. next_keep. next_keep. next_keep. next_keep.
  unfold reshape.
  erewrite view_last_run with (n := E);
    [|reflexivity|cbn [numel fold_right shape]; rewrite <- HE; ring|exact HB|exact HT].
  cbn [bind].
  erewrite linear_run3; [|exact Hg|exact Hx]. cbn [bind].
  next_keep.
  eexists. split; [reflexivity|].
  cbn [r_out r_t_w r_V r_scores r_weighted_scores r_Q r_K dropout shape entry].
  split; [reflexivity|].
  split; [exact Hen|].
  split.
  { intros b h s j Hb Hhh Hs Hj.
    change (swap 1 2 [b; h; s; j]) with [b; s; h; j].
    rewrite <- HE, unravel_ravel_heads by assumption. reflexivity. }
  split.
  { intros b h i j Hb Hhh Hi Hj.
    cbn [entry tmap bidx bidx_aligned length Nat.sub skipn firstn app nth].
    bsel_all. reflexivity. }
  split.
  { intros b h i j Hb Hhh Hi Hj.
    cbn [entry tmap bidx bidx_aligned length Nat.sub skipn firstn app nth].
    change (1 =? 1) with true. cbv iota. bsel_all. reflexivity. }
  intros b i h j Hb Hi Hhh Hj.
  assert (Hc : h * head_dim r + j < heads r * head_dim r)
    by (apply flat_row_bound; assumption).
  cbn [entry tmap bidx bidx_aligned length Nat.sub skipn firstn app nth
       removelast last].
  rewrite <- HE. bsel_all.
  rewrite unravel_ravel_unheads by assumption.
  change (swap 1 2 [b; i; h; j]) with [b; h; i; j].
  cbn [entry tmap bidx bidx_aligned length Nat.sub skipn firstn app nth
       removelast last].
  bsel_all. reflexivity.
Qed.

(** C4. In a forward pass of [Retention] on an input of [T] time steps,
    the decay matrix [t_w] holds, for head [h], query [i] and key [j],
    the weight 1 when [i <= j] and [exp(-gamma_h * (i - j))] when
    [i > j], with [gamma_h = sigmoid(gamma_param[h])]; the scores
    [Q K^T / scale] are multiplied by that weight, and the layer's output
    is the gated sum over all keys, those after the query included, of
    weighted score times value. *)
Theorem retention_decay_weight self x l B T E :
  Retention_wf E self -> shape x = [B; T; E] ->
  Retention_locals self x = Some l ->
  Retention_forward self x = Some (r_out l)
  /\ (forall h i j, h < heads self -> i < T -> j < T ->
        entry (r_t_w l) [h; i; j]
        = if i <=? j then 1%R
          else exp (- sigmoid (entry (gamma_param self) [h]) * INR (i - j)))
  /\ (forall b h i j, b < B -> h < heads self -> i < T -> j < T ->
        entry (r_scores l) [b; h; i; j]
        = Rdiv (rsum (head_dim self)
                  (fun k => Rmult (entry (r_Q l) [b; h; i; k])
                                  (entry (r_K l) [b; h; j; k])))
               (scale self))
  /\ (forall b h i j, b < B -> h < heads self -> i < T -> j < T ->
        entry (r_weighted_scores l) [b; h; i; j]
        = (entry (r_scores l) [b; h; i; j]
           * (if i <=? j then 1
              else exp (- sigmoid (entry (gamma_param self) [h])
                        * INR (i - j))))%R)
  /\ (forall b h s j, b < B -> h < heads self -> s < T -> j < head_dim self ->
        entry (r_V l) [b; h; s; j]
        = linear_entry (w_v self) E x [b; s] (h * head_dim self + j))
  /\ (forall b i h j, b < B -> i < T -> h < heads self -> j < head_dim self ->
        entry (r_out l) [b; i; h * head_dim self + j]
        = Rmult
            (silu (linear_entry (gate self) E x [b; i] (h * head_dim self + j)))
            (rsum T
               (fun s =>
                  Rmult
                    (Rmult (entry (r_scores l) [b; h; i; s])
                           (if i <=? s then 1%R
                            else exp (- sigmoid (entry (gamma_param self) [h])
                                      * INR (i - s))))
                    (entry (r_V l) [b; h; s; j])))).
Proof.
  intros Hwf Hx Hl.
  assert (Hfw : Retention_forward self x = Some (r_out l)).
  { unfold Retention_forward. rewrite Hl. reflexivity. }
  destruct (retention_runs_dec E (heads self) B T) as [Hrun|Hrun];
    [|rewrite (@Retention_fails_unless self x B T E Hwf Hx Hrun) in Hfw;
      discriminate Hfw].
  destruct (@Retention_entries self x B T E Hwf Hx Hrun)
    as (l' & Hl' & _ & Htw & HV & Hsc & Hws & Hout).
  rewrite Hl in Hl'. apply some_inj in Hl'. subst l'.
  assert (Hw : forall h i j, h < heads self -> i < T -> j < T ->
                 entry (r_t_w l) [h; i; j]
                 = if i <=? j then 1%R
                   else exp (- sigmoid (entry (gamma_param self) [h])
                             * INR (i - j))).
  { intros h i j Hh Hi Hj. rewrite Htw by assumption.
    destruct (Nat.leb_spec i j) as [Hij|Hij].
    - replace (Z.max 0 (Z.of_nat i - Z.of_nat j)) with 0%Z by lia.
      rewrite Rmult_0_r. apply exp_0.
    - replace (Z.max 0 (Z.of_nat i - Z.of_nat j)) with (Z.of_nat (i - j))
        by lia.
      rewrite <- INR_IZR_INZ. reflexivity. }
  split; [exact Hfw|]. split; [exact Hw|]. split; [exact Hsc|].
  split.
  { intros b h i j Hb Hh Hi Hj. rewrite Hws, Hw by assumption. reflexivity. }
  split; [exact HV|].
  intros b i h j Hb Hi Hh Hj. rewrite Hout by assumption. f_equal.
  apply rsum_ext. intros s Hs.
  rewrite Hws, Hw by assumption. reflexivity.
Qed.

Lemma retention_decay_weight_witness :
  match Retention_init (fun _ _ => 1%R) 4 2 with
  | Some self =>
      match Retention_locals self (ones [1; 3; 4]) with
      | Some l =>
          Retention_forward self (ones [1; 3; 4]) = Some (r_out l)
          /\ entry (r_t_w l) [1; 2; 0] = exp (Rmult (Ropp (sigmoid 1)) (INR 2))
          /\ entry (r_t_w l) [1; 0; 2] = 1%R
          /\ entry (r_weighted_scores l) [0; 1; 2; 0]
             = Rmult (entry (r_scores l) [0; 1; 2; 0])
                     (exp (Rmult (Ropp (sigmoid 1)) (INR 2)))
          /\ entry (r_weighted_scores l) [0; 1; 0; 2]
             = Rmult (entry (r_scores l) [0; 1; 0; 2]) 1%R
          /\ entry (r_out l) [0; 2; 1 * head_dim self + 0]
             = Rmult
                 (silu (linear_entry (gate self) 4 (ones [1; 3; 4]) [0; 2]
                                     (1 * head_dim self + 0)))
                 (rsum 3
                    (fun s =>
                       Rmult
                         (Rmult (entry (r_scores l) [0; 1; 2; s])
                                (if 2 <=? s then 1%R
                                 else exp (Rmult (Ropp (sigmoid 1))
                                                 (INR (2 - s)))))
                         (entry (r_V l) [0; 1; s; 0])))
      | None => False
      end
  | None => False
  end.
Proof.
  assert (Hr : ran (self <- Retention_init (fun _ _ => 1%R) 4 2 ;;
                    Retention_locals self (ones [1; 3; 4])) = true)
    by (vm_compute; reflexivity).
  destruct (Retention_init (fun _ _ => 1%R) 4 2) as [self|] eqn:Ei;
    [|discriminate Hr].
  cbn [bind] in Hr.
  destruct (Retention_locals self (ones [1; 3; 4])) as [l|] eqn:El;
    [|discriminate Hr].
  pose proof (Retention_init_wf _ _ _ Ei) as Hwf.
  pose proof (Retention_init_heads _ _ _ Ei) as Hh.
  assert (Hg : entry (gamma_param self) [1] = 1%R).
  { unfold Retention_init in Ei. cbn [Nat.eqb] in Ei.
    apply bind_some in Ei. destruct Ei as (rot & _ & Ei).
    apply some_inj in Ei. rewrite <- Ei. reflexivity. }
  assert (Hhd : 0 < head_dim self).
  { destruct Hwf as (_ & -> & _). rewrite Hh. cbn. lia. }
  destruct (@retention_decay_weight self (ones [1; 3; 4]) l 1 3 4
              Hwf eq_refl El) as (Hfw & Htw & _ & Hws & _ & Hout).
  pose proof (Htw 1 2 0) as H1. pose proof (Htw 1 0 2) as H2.
  pose proof (Hws 0 1 2 0) as H3. pose proof (Hws 0 1 0 2) as H4.
  pose proof (Hout 0 2 1 0) as H5.
  rewrite Hg in H1, H3, H5. rewrite Hh in *.
  split; [exact Hfw|].
  split; [apply H1; lia|].
  split; [apply H2; lia|].
  split; [apply H3; lia|].
  split; [apply H4; lia|].
  apply H5; lia.
Defined.

(** The whole of [selective_scan]: the two terms, the layout in which the
    scan receives them, and the output read off the scan's result. *)
Lemma selective_scan_flow self u delta B C Bn T E :
  shape (A_log self) = [1; d_state self] ->
  shape u = [Bn; T; E] -> shape delta = [Bn; T; E] ->
  shape B = [Bn; T; d_state self] -> shape C = [Bn; T; d_state self] ->
  1 <= T -> 1 <= d_state self ->
  exists sl a',
    selective_scan_locals self u delta B C = Some sl
    /\ associative_scan Rmult Rplus (s_flat_A sl, s_flat_B_u sl)
       = Some (a', s_ys sl)
    /\ (forall b t d n, b < Bn -> t < T -> d < E -> n < d_state self ->
          entry (s_deltaA sl) [b; t; d; n]
          = exp (Rmult (entry delta [b; t; d])
                       (Ropp (exp (entry (A_log self) [0; n]))))
          /\ entry (s_deltaB_u sl) [b; t; d; n]
             = Rmult (Rmult (entry delta [b; t; d]) (entry B [b; t; n]))
                     (entry u [b; t; d])
          /\ entry (s_flat_A sl) [t; b * E + d; n]
             = entry (s_deltaA sl) [b; t; d; n]
          /\ entry (s_flat_B_u sl) [t; b * E + d; n]
             = entry (s_deltaB_u sl) [b; t; d; n])
    /\ (forall b t d, b < Bn -> t < T -> d < E ->
          entry (s_y sl) [b; t; d]
          = rsum (d_state self)
              (fun n => Rmult (entry (s_ys sl) [t; b * E + d; n])
                              (entry C [b; t; n]))).
Proof.
  intros HA Hu Hd HB HC HT HN.
  unfold selective_scan_locals. rewrite Hu.
  expose u Hu. expose delta Hd. expose B HB. expose C HC.
  destruct (A_log self) as [sA fA] eqn:EA. cbn [shape] in HA. subst sA.
  set (N := d_state self) in *.
  next_keep. next_keep. next_keep. next_keep. next_keep. next_keep.
  next_keep. next_keep.
  unfold contiguous.
  rewrite !(@view_flat_run _ _ T Bn E N) by (reflexivity || assumption).
  cbn [bind].
  edestruct (@associative_scan_run R Rmult Rplus)
    as (a' & ys & Hscan & _ & Hys);
    [| | rewrite Hscan]; [reflexivity | reflexivity |].
  cbn [bind].
  change [Z.of_nat T; Z.of_nat Bn; Z.of_nat E; Z.of_nat N]
    with (map Z.of_nat [T; Bn; E; N]).
  erewrite view_nat_run; [|exact Hys|cbn [numel fold_right shape]; ring].
  cbn [bind].
  next_keep. next_keep. next_keep. next_keep.
  eexists. exists a'. split; [reflexivity|].
  cbn [s_y s_ys s_flat_A s_flat_B_u s_deltaA s_deltaB_u shape].
  split; [exact Hscan|].
  split.
  - intros b t d n Hb Ht Hd Hn. cbn [entry tmap].
    rewrite !unravel_ravel_flat by assumption.
    cbn [nth bidx bidx_aligned length Nat.sub skipn app entry tmap].
    change (1 =? 1) with true. cbv iota. bsel_all.
    repeat split; reflexivity.
  - intros b t d Hb Ht Hd. cbn [entry].
    apply rsum_ext. intros n Hn.
    cbn [app bidx bidx_aligned length Nat.sub skipn nth].
    change (1 =? 1) with true. cbv iota. bsel_all.
    rewrite unravel_ravel_unflat by assumption.
    reflexivity.
Qed.

(** C3, as the code has it. In a forward pass of [MambaBlock] the scan
    runs on the pair [(flat_A, flat_B_u)], the (T, B*D, N) layouts of
    [deltaA] and of the driven term
    [deltaB_u = (delta * B_param) * x_conv]; [y_scan] is the scan's
    result contracted with [C_param]; the output before the gate is
    [y_skip = y_scan + x_conv * D], and it is [y_skip] that is gated by
    SiLU of [res] and handed to [out_proj]. Here [x_conv] is SiLU of the
    causal depthwise convolution of [x_in], the first half of the input
    projection. *)
Theorem mamba_driven_term_uses_x_conv self x B T :
  MambaBlock_wf self -> shape x = [B; T; embed_dim self] ->
  1 <= T -> 1 <= d_conv self -> 1 <= d_state self ->
  exists l a',
    MambaBlock_locals self x = Some l
    /\ MambaBlock_forward self x = Some (m_out l)
    /\ selective_scan_locals self (m_x_conv l) (m_delta l) (m_B_param l)
                             (m_C_param l) = Some (m_scan l)
    /\ associative_scan Rmult Rplus
         (s_flat_A (m_scan l), s_flat_B_u (m_scan l))
       = Some (a', s_ys (m_scan l))
    /\ forall b t d, b < B -> t < T -> d < embed_dim self ->
         entry (m_x_in l) [b; t; d]
         = linear_entry (in_proj self) (embed_dim self) x [b; t] d
         /\ entry (m_x_conv l) [b; t; d]
            = silu (conv_stage_entry self (m_x_in l) T b t d)
         /\ (forall n, n < d_state self ->
               entry (s_deltaB_u (m_scan l)) [b; t; d; n]
               = (entry (m_delta l) [b; t; d] * entry (m_B_param l) [b; t; n]
                  * entry (m_x_conv l) [b; t; d])%R
               /\ entry (s_flat_B_u (m_scan l)) [t; b * embed_dim self + d; n]
                  = entry (s_deltaB_u (m_scan l)) [b; t; d; n]
               /\ entry (s_flat_A (m_scan l)) [t; b * embed_dim self + d; n]
                  = entry (s_deltaA (m_scan l)) [b; t; d; n])
         /\ entry (m_y_scan l) [b; t; d]
            = rsum (d_state self)
                (fun n =>
                   Rmult (entry (s_ys (m_scan l))
                                [t; b * embed_dim self + d; n])
                         (entry (m_C_param l) [b; t; n]))
         /\ entry (m_y_skip l) [b; t; d]
            = (entry (m_y_scan l) [b; t; d]
               + entry (m_x_conv l) [b; t; d] * entry (D self) [d])%R
         /\ entry (m_y_gated l) [b; t; d]
            = (entry (m_y_skip l) [b; t; d] * silu (entry (m_res l) [b; t; d]))%R
         /\ entry (m_out l) [b; t; d]
            = linear_entry (out_proj self) (embed_dim self) (m_y_gated l)
                           [b; t] d.
Proof.
  intros Hwf Hx HT HK HN.
  destruct (@MambaBlock_entries self x B T Hwf Hx HT HK HN)
    as (l & Hl & Hsxc & Hsd & HsB & HsC & Hxin & _ & Hxc & _ & _ & _
        & Hsc & Hys & Hsk & Hgt & Hout).
  pose proof Hwf as (_ & _ & _ & _ & _ & _ & _ & _ & _ & HA & _).
  destruct (@selective_scan_flow self (m_x_conv l) (m_delta l) (m_B_param l)
              (m_C_param l) B T (embed_dim self) HA Hsxc Hsd HsB HsC HT HN)
    as (sl & a' & Hsl & Hscan & Hterms & Hy).
  rewrite Hsc in Hsl. apply some_inj in Hsl. subst sl.
  exists l, a'. split; [exact Hl|]. split.
  { unfold MambaBlock_forward, MambaBlock_forward_logic. rewrite Hl.
    reflexivity. }
  split; [exact Hsc|]. split; [exact Hscan|].
  intros b t d Hb Ht Hd.
  split; [apply Hxin|]. split; [apply Hxc|]. split.
  { intros n Hn.
    destruct (Hterms b t d n Hb Ht Hd Hn) as (_ & HdB & HfA & HfB).
    split; [exact HdB|]. split; [exact HfB|exact HfA]. }
  split; [rewrite Hys; apply Hy; assumption|].
  split; [apply Hsk; assumption|].
  split; [apply Hgt; assumption|].
  apply Hout.
Qed.

Lemma mamba_driven_term_uses_x_conv_witness :
  match MambaBlock_init (fun _ _ => 1%R) 2 16 4 None with
  | Some self =>
      exists l a',
        MambaBlock_locals self (ones [1; 3; 2]) = Some l
        /\ MambaBlock_forward self (ones [1; 3; 2]) = Some (m_out l)
        /\ selective_scan_locals self (m_x_conv l) (m_delta l) (m_B_param l)
                                 (m_C_param l) = Some (m_scan l)
        /\ associative_scan Rmult Rplus
             (s_flat_A (m_scan l), s_flat_B_u (m_scan l))
           = Some (a', s_ys (m_scan l))
        /\ entry (m_x_in l) [0; 0; 0] = 3%R
        /\ entry (m_x_conv l) [0; 0; 0] = silu 4
        /\ entry (s_flat_B_u (m_scan l)) [0; 0; 5]
           = Rmult (Rmult (entry (m_delta l) [0; 0; 0])
                          (entry (m_B_param l) [0; 0; 5]))
                   (silu 4)
        /\ entry (m_y_skip l) [0; 0; 0]
           = Rplus (rsum 16
                      (fun n => Rmult (entry (s_ys (m_scan l)) [0; 0; n])
                                      (entry (m_C_param l) [0; 0; n])))
                   (silu 4)
        /\ entry (m_y_gated l) [0; 0; 0]
           = Rmult (entry (m_y_skip l) [0; 0; 0])
                   (silu (entry (m_res l) [0; 0; 0]))
  | None => False
  end.
Proof.
  destruct (MambaBlock_init (fun _ _ => 1%R) 2 16 4 None) as [self|] eqn:Ei;
    [|discriminate Ei].
  destruct (MambaBlock_init_wf _ _ _ _ _ Ei) as (Hwf & HE & HN & HK).
  destruct (@mamba_driven_term_uses_x_conv self (ones [1; 3; 2]) 1 3 Hwf)
    as (l & a' & Hl & Hfw & Hsc & Hscan & Hall);
    [rewrite HE; reflexivity | lia | lia | lia |].
  exists l, a'.
  split; [exact Hl|]. split; [exact Hfw|]. split; [exact Hsc|].
  split; [exact Hscan|].
  destruct (Hall 0 0 0) as (Hxin & Hxc & Hdrv & Hys & Hsk & Hgt & _);
    [lia | lia | rewrite HE; lia |].
  destruct (Hdrv 5) as (HdB & HfB & _); [rewrite HN; lia|].
  rewrite HE in HfB, Hys. rewrite HN in Hys. cbn [Nat.mul Nat.add] in HfB, Hys.
  unfold MambaBlock_init, Conv1d_init in Ei.
  cbn [Nat.eqb Nat.modulo Nat.divmod snd fst Nat.sub negb bind] in Ei.
  unfold arange_step, unsqueeze, rank in Ei.
  cbn [Nat.eqb bind float tmap shape length] in Ei. norm_dims_in Ei.
  cbn [bind] in Ei. apply some_inj in Ei.
  assert (H3 : entry (m_x_in l) [0; 0; 0] = 3%R).
  { rewrite Hxin. rewrite <- Ei.
    unfold linear_entry, Linear_init, param, child, ones.
    cbn [in_proj embed_dim weight bias entry rsum app]. lra. }
  assert (H4 : entry (m_x_conv l) [0; 0; 0] = silu 4).
  { rewrite Hxc. f_equal. unfold conv_stage_entry. rewrite <- Ei.
    cbn [conv in_channels out_channels groups d_conv conv_weight conv_bias].
    unfold param, child. cbn [entry].
    change (2 / 2) with 1. cbn [rsum].
    change (4 - 1) with 3.
    cbn [Nat.add Nat.leb Nat.ltb andb Nat.sub].
    change (0 / 1 * 1 + 0) with 0.
    rewrite H3. lra. }
  assert (HD : entry (D self) [0] = 1%R) by (rewrite <- Ei; reflexivity).
  split; [exact H3|]. split; [exact H4|].
  split; [rewrite HfB, HdB, H4; reflexivity|].
  split; [rewrite Hsk, Hys, H4, HD; lra|].
  exact Hgt.
Defined.

End FlowFacts.

(* ------------------------------------------------------------------ *)
(** ** The state decay as a float32 *)

Module RoundingFacts.
Import Torch Scan Model Float32 TorchFacts ScanFacts WfFacts RetentionFacts MambaFacts ShapeFacts ScanLaws ReturnFacts NormFacts CausalFacts FlowFacts.
Local Open Scope torch_scope.

Lemma div_lt_l (a b c : R) : (0 < b)%R -> (a < c * b)%R -> (a / b < c)%R.
Proof.
  intros Hb H. apply Rmult_lt_reg_r with b; [exact Hb|].
  unfold Rdiv. rewrite Rmult_assoc, Rinv_l by lra. lra.
Qed.


Lemma rne_small (y : R) : (0 <= y < 1 / 2)%R -> rne y = 0%Z.
Proof.
  intros [H0 H1].
  assert (Hi : Int_part y = 0%Z).
  { symmetry. apply Int_part_spec. cbn. lra. }
  unfold rne. rewrite Hi. cbn [IZR].
  destruct (Rlt_dec (y - 0) (1 / 2)) as [_|Hn]; [reflexivity|].
  exfalso. apply Hn. lra.
Qed.

Lemma ln2_pos : (0 < ln 2)%R.
Proof. pose proof ln_lt_2. lra. Qed.

Lemma Int_part_lt (y : R) (z : Z) : (y < IZR z)%R -> (Int_part y < z)%Z.
Proof.
  intros H. destruct (base_Int_part y) as [Hl _].
  apply lt_IZR. lra.
Qed.


(** A positive number below half the least positive binary32 number,
    [2^-149], is rounded to zero. *)
Lemma round32_underflow (x : R) :
  (0 < x < powerRZ 2 (-150))%R -> round32 x = 0%R.
Proof.
  intros [H0 H1].
  assert (He : exponent x = (-126)%Z).
  { unfold exponent. rewrite Rabs_pos_eq by lra.
    assert (Hln : (ln x < IZR (-150) * ln 2)%R).
    { replace (IZR (-150) * ln 2)%R with (ln (powerRZ 2 (-150))).
      - apply ln_increasing; assumption.
      - change (powerRZ 2 (-150)) with (/ 2 ^ 150)%R.
        rewrite ln_Rinv by (apply pow_lt; lra).
        rewrite ln_pow by lra.
        rewrite INR_IZR_INZ. change (Z.of_nat 150) with 150%Z. lra. }
    assert (Hq : (ln x / ln 2 < IZR (-150))%R).
    { apply div_lt_l; [apply ln2_pos|exact Hln]. }
    apply Int_part_lt in Hq. lia. }
  unfold round32, ulp. rewrite He.
  rewrite rne_small; [cbn [IZR]; ring|].
  change (-126 - 23)%Z with (-149)%Z.
  assert (Hu : (0 < powerRZ 2 (-149))%R) by (apply powerRZ_lt; lra).
  assert (Hh : (powerRZ 2 (-150) = powerRZ 2 (-149) / 2)%R).
  { change (-150)%Z with (-149 + -1)%Z.
    rewrite powerRZ_add by lra.
    replace (powerRZ 2 (-1)) with (/ 2)%R by (simpl; field).
    reflexivity. }
  split.
  - apply Rlt_le. apply Rdiv_lt_0_compat; assumption.
  - apply div_lt_l; [assumption|]. lra.
Qed.


Lemma two_lt_exp : (2 < exp (56 / 75))%R.
Proof.
  assert (H1 : (1 + 7 / 75 < exp (7 / 75))%R) by (apply exp_ineq1; lra).
  assert (H2 : exp (14 / 75) = (exp (7 / 75) * exp (7 / 75))%R)
    by (rewrite <- exp_plus; f_equal; lra).
  assert (H4 : exp (28 / 75) = (exp (14 / 75) * exp (14 / 75))%R)
    by (rewrite <- exp_plus; f_equal; lra).
  assert (H8 : exp (56 / 75) = (exp (28 / 75) * exp (28 / 75))%R)
    by (rewrite <- exp_plus; f_equal; lra).
  assert (B2 : (1195 / 1000 < exp (14 / 75))%R) by nra.
  assert (B4 : (1428 / 1000 < exp (28 / 75))%R) by nra.
  nra.
Qed.

(** [exp z] for [z <= -112] is below [2^-150]. *)
Lemma exp_below_half_least (z : R) :
  (z <= -112)%R -> (0 < exp z < powerRZ 2 (-150))%R.
Proof.
  intros Hz. split; [apply exp_pos|].
  apply Rle_lt_trans with (exp (-112)).
  { destruct Hz as [Hz| ->]; [apply Rlt_le, exp_increasing; exact Hz|lra]. }
  change (powerRZ 2 (-150)) with (/ 2 ^ 150)%R.
  replace (exp (-112)) with (/ exp 112)%R
    by (rewrite <- exp_Ropp; f_equal; lra).
  assert (Hp : (0 < 2 ^ 150)%R) by (apply pow_lt; lra).
  apply Rinv_lt_contravar; [apply Rmult_lt_0_compat; [exact Hp|apply exp_pos]|].
  apply ln_lt_inv; [exact Hp|apply exp_pos|].
  rewrite ln_exp, ln_pow by lra.
  rewrite INR_IZR_INZ. change (Z.of_nat 150) with 150%Z.
  assert (Hl : (ln 2 < 56 / 75)%R).
  { rewrite <- (ln_exp (56 / 75)).
    apply ln_increasing; [lra|apply two_lt_exp]. }
  lra.
Qed.

(** The float32 [exp] of an argument at or below -112 is 0.0, whatever
    rounding the argument itself went through. *)
Lemma exp_rounds_to_zero (z : R) : (z <= -112)%R -> round32 (exp z) = 0%R.
Proof.
  intros Hz. apply round32_underflow, exp_below_half_least, Hz.
Qed.







End RoundingFacts.
